(** * blu-store: the [Store] class (src/index.d.ts, class Store extends Map)

    A shallow embedding of the JavaScript class [Store] and of the part of
    the built-in [Map] and [Array] behaviour it relies on, followed by the
    properties of the specification.

    - JavaScript values are an inductive type; numbers are the integers
      together with the two infinities and NaN, and arrays are the lists of
      their elements, without empty slots.
    - Every [Store] is an object in a heap ([gmap loc MapData]); a Store is
      known by its location, so two variables can name the same Store.
    - A method is a function in the monad [M]: it reads and writes the heap,
      and ends by returning, by throwing, or by running out of fuel (the
      [for ... of] loop over a Map is live and need not end when the loop
      body keeps adding entries).
    - A callback is any function in [M]: it may read and write every Store
      of the heap, keep state there, and throw. *)

From stdpp Require Import base option list gmap strings.
From Stdlib Require Import ZArith Lia.

Set Warnings "-register-all".

Local Open Scope string_scope.
Local Open Scope list_scope.
Local Open Scope Z_scope.

(** ** JavaScript values *)

Inductive number : Type :=
  | Int (z : Z)
  | PosInfinity
  | NegInfinity
  | NaN.

Definition loc := positive.

(** The values a Map compares without looking inside: primitives, and
    objects, which are known only by their identity. *)
Inductive atom : Type :=
  | AUndefined
  | ANull
  | ABool (b : bool)
  | ANumber (n : number)
  | AString (s : string)
  | AObject (l : loc).

(** A value is an atom or an array, kept by its elements: the arrays here
    have no empty slots. *)
Inductive jsval : Type :=
  | JAtom (a : atom)
  | JArray (xs : list jsval).

Coercion JAtom : atom >-> jsval.

Definition undefined : jsval := JAtom AUndefined.
Definition num (z : Z) : jsval := JAtom (ANumber (Int z)).
Definition str (s : string) : jsval := JAtom (AString s).

#[global] Instance number_eq_dec : EqDecision number.
Proof. solve_decision. Defined.
#[global] Instance atom_eq_dec : EqDecision atom.
Proof. solve_decision. Defined.

(** [Array.isArray] *)
Definition isArray (v : jsval) : bool :=
  match v with JArray _ => true | JAtom _ => false end.

(** ToBoolean *)
Definition truthy (v : jsval) : bool :=
  match v with
  | JArray _ => true
  | JAtom AUndefined => false
  | JAtom ANull => false
  | JAtom (ABool b) => b
  | JAtom (ANumber (Int z)) => negb (z =? 0)
  | JAtom (ANumber NaN) => false
  | JAtom (ANumber _) => true
  | JAtom (AString s) => negb (String.eqb s "")
  | JAtom (AObject _) => true
  end.

(** SameValueZero, the comparison of Map keys: NaN is the same as NaN. There
    is one zero and one NaN in [number], and objects are identities, so it is
    equality of atoms. *)
Definition same_value_zero (x y : atom) : bool := bool_decide (x = y).

(** IsStrictlyEqual ([===]), the comparison of [Array.prototype.indexOf] and
    [lastIndexOf]: NaN is not equal to itself. *)
Definition is_strictly_equal (x y : atom) : bool :=
  match x with
  | ANumber NaN => false
  | _ => bool_decide (x = y)
  end.

(** [x < y] on numbers: false when either side is NaN. *)
Definition number_lt (x y : number) : bool :=
  match x, y with
  | NaN, _ | _, NaN => false
  | Int a, Int b => a <? b
  | NegInfinity, NegInfinity => false
  | NegInfinity, _ => true
  | _, PosInfinity => match x with PosInfinity => false | _ => true end
  | _, _ => false
  end.

(** [x > y] is [y < x]; [x >= y] is false on NaN and otherwise [not (x < y)]. *)
Definition number_gt (x y : number) : bool := number_lt y x.
Definition number_ge (x y : number) : bool :=
  match x, y with
  | NaN, _ | _, NaN => false
  | _, _ => negb (number_lt x y)
  end.

(** ToIntegerOrInfinity on a number of this model. *)
Definition to_integer_or_infinity (n : number) : number :=
  match n with NaN => Int 0 | _ => n end.

(** ** Arrays *)

(** [arr[i]]: reading outside the array gives the default ([undefined]). *)
Definition array_get {A} (dflt : A) (arr : list A) (i : Z) : A :=
  if i <? 0 then dflt else nth (Z.to_nat i) arr dflt.

(** The search loop of [Array.prototype.indexOf]: the first position at or
    after [k] holding an element strictly equal to [x]; [i] is the position
    of the head of [arr]. *)
Fixpoint index_from (x : atom) (arr : list atom) (i k : Z) : Z :=
  match arr with
  | [] => -1
  | y :: ys =>
      if (k <=? i) && is_strictly_equal y x then i
      else index_from x ys (i + 1) k
  end.

(** The search loop of [Array.prototype.lastIndexOf]: the last position at or
    before [k] holding an element strictly equal to [x]. *)
Fixpoint last_index_upto (x : atom) (arr : list atom) (i k : Z) : Z :=
  match arr with
  | [] => -1
  | y :: ys =>
      let r := last_index_upto x ys (i + 1) k in
      if 0 <=? r then r
      else if (i <=? k) && is_strictly_equal y x then i
      else -1
  end.

(** [arr.indexOf(x, fromIndex)] *)
Definition Array_indexOf (arr : list atom) (x : atom) (fromIndex : number) : Z :=
  let len := Z.of_nat (length arr) in
  if len =? 0 then -1 else
  match to_integer_or_infinity fromIndex with
  | PosInfinity => -1
  | NegInfinity => index_from x arr 0 0
  | Int n => index_from x arr 0 (if 0 <=? n then n else Z.max (len + n) 0)
  | NaN => index_from x arr 0 0
  end.

(** [arr.lastIndexOf(x, fromIndex)], with [fromIndex] given. *)
Definition Array_lastIndexOf (arr : list atom) (x : atom) (fromIndex : number) : Z :=
  let len := Z.of_nat (length arr) in
  if len =? 0 then -1 else
  match to_integer_or_infinity fromIndex with
  | NegInfinity => -1
  | PosInfinity => last_index_upto x arr 0 (len - 1)
  | Int n =>
      last_index_upto x arr 0 (if 0 <=? n then Z.min n (len - 1) else len + n)
  | NaN => last_index_upto x arr 0 0
  end.

(** FlattenIntoArray with a finite depth, as [Array.prototype.flat] uses it. *)
Fixpoint flatten_into (depth : nat) (xs : list jsval) : list jsval :=
  match depth with
  | O => xs
  | S d =>
      List.concat
        (List.map (fun x => match x with
                            | JArray ys => flatten_into d ys
                            | JAtom _ => [x]
                            end) xs)
  end.

(** The same with depth [Infinity]. *)
Fixpoint flatten_all (x : jsval) : list jsval :=
  match x with
  | JArray ys => List.concat (List.map flatten_all ys)
  | JAtom _ => [x]
  end.

(** [arr.flat(depth)] *)
Definition Array_flat (arr : list jsval) (depth : number) : list jsval :=
  match to_integer_or_infinity depth with
  | Int z => flatten_into (Z.to_nat z) arr
  | PosInfinity => List.concat (List.map flatten_all arr)
  | NegInfinity => arr
  | NaN => arr
  end.

(** [[].concat(v)]: an array is spread, any other value is one element. *)
Definition concat_spread (v : jsval) : list jsval :=
  match v with JArray ys => ys | JAtom _ => [v] end.

(** [[].concat(...arr)], for an array without empty slots and short enough
    to be spread into arguments. *)
Definition Array_concat_all (arr : list jsval) : list jsval :=
  List.concat (List.map concat_spread arr).

(** ** The heap and the monad of methods *)

(** [[MapData]] of a Map, as ECMAScript has it: the list of its records in
    insertion order, where [delete] empties a record ([None]) and leaves it in
    place, so that the position of a live iterator stays right. *)
Abbreviation MapData := (list (option (atom * jsval))).

Abbreviation heap := (gmap loc MapData).

Inductive error : Type :=
  | TypeError (msg : string)
  | RangeError (msg : string).

Inductive outcome (A : Type) : Type :=
  | Ok (a : A)
  | Throw (e : error)
  | OutOfFuel.

Arguments Ok {A} a.
Arguments Throw {A} e.
Arguments OutOfFuel {A}.

Definition M (A : Type) : Type := heap -> outcome A * heap.

Definition ret {A} (a : A) : M A := fun h => (Ok a, h).

Definition bind {A B} (m : M A) (f : A -> M B) : M B :=
  fun h =>
    match m h with
    | (Ok a, h') => f a h'
    | (Throw e, h') => (Throw e, h')
    | (OutOfFuel, h') => (OutOfFuel, h')
    end.

Definition throw {A} (e : error) : M A := fun h => (Throw e, h).
Definition out_of_fuel {A} : M A := fun h => (OutOfFuel, h).

Notation "x <- c1 ;; c2" := (bind c1 (fun x => c2))
  (at level 20, c1 at level 99, c2 at level 200, only parsing).
Notation "' pat <- c1 ;; c2" := (bind c1 (fun x => match x with pat => c2 end))
  (at level 20, pat pattern, c1 at level 99, c2 at level 200, only parsing).
Notation "c1 ;; c2" := (bind c1 (fun _ => c2))
  (at level 100, c2 at level 200, only parsing, right associativity).

(** [for (const x of arr) body], over an array nothing else can reach. *)
Fixpoint for_of_array {A} (arr : list A) (body : A -> M unit) : M unit :=
  match arr with
  | [] => ret tt
  | x :: xs => body x ;; for_of_array xs body
  end.

(** ** Map *)

(** The records that are not empty, in order: what iteration yields. *)
Definition entries (d : MapData) : list (atom * jsval) := omap id d.

Definition data_size (d : MapData) : Z := Z.of_nat (length (entries d)).

(** Map.prototype.set on the data: the first record with the same key gets the
    value, and a key that is not there is appended. *)
Fixpoint data_set (k : atom) (v : jsval) (d : MapData) : MapData :=
  match d with
  | [] => [Some (k, v)]
  | Some (k', v') :: d' =>
      if same_value_zero k' k then Some (k', v) :: d'
      else Some (k', v') :: data_set k v d'
  | None :: d' => None :: data_set k v d'
  end.

Fixpoint data_get (k : atom) (d : MapData) : jsval :=
  match d with
  | [] => undefined
  | Some (k', v') :: d' => if same_value_zero k' k then v' else data_get k d'
  | None :: d' => data_get k d'
  end.

Fixpoint data_has (k : atom) (d : MapData) : bool :=
  match d with
  | [] => false
  | Some (k', _) :: d' => if same_value_zero k' k then true else data_has k d'
  | None :: d' => data_has k d'
  end.

(** Map.prototype.delete: the record is emptied, not removed. *)
Fixpoint data_delete (k : atom) (d : MapData) : MapData :=
  match d with
  | [] => []
  | Some (k', v') :: d' =>
      if same_value_zero k' k then None :: d'
      else Some (k', v') :: data_delete k d'
  | None :: d' => None :: data_delete k d'
  end.

(** The Map methods check that the receiver is a Map. *)
Definition this_data (this : loc) : M MapData :=
  fun h =>
    match h !! this with
    | Some d => (Ok d, h)
    | None => (Throw (TypeError "incompatible receiver"), h)
    end.

Definition put_data (this : loc) (d : MapData) : M unit :=
  fun h => (Ok tt, <[this := d]> h).

(** A new object gets a location that is not in use. *)
Definition alloc (d : MapData) : M loc :=
  fun h => let l := fresh (dom h) in (Ok l, <[l := d]> h).

Definition Map_set (this : loc) (k : atom) (v : jsval) : M unit :=
  d <- this_data this ;; put_data this (data_set k v d).

Definition Map_get (this : loc) (k : atom) : M jsval :=
  d <- this_data this ;; ret (data_get k d).

Definition Map_has (this : loc) (k : atom) : M bool :=
  d <- this_data this ;; ret (data_has k d).

Definition Map_delete (this : loc) (k : atom) : M bool :=
  d <- this_data this ;;
  put_data this (data_delete k d) ;;
  ret (data_has k d).

Definition Map_size (this : loc) : M Z :=
  d <- this_data this ;; ret (data_size d).

(** [for (const [key, value] of map) body]: the iterator holds a position
    [i] in the records of [map] and reads them anew at every step, so it sees
    what the body did to the map. [acc] stands for the local variables the
    body updates. *)
Fixpoint for_of_map {S} (fuel : nat) (map : loc)
    (body : S -> atom -> jsval -> M S) (i : nat) (acc : S) : M S :=
  match fuel with
  | O => out_of_fuel
  | Datatypes.S fuel' =>
      d <- this_data map ;;
      match d !! i with
      | None => ret acc
      | Some None => for_of_map fuel' map body (Datatypes.S i) acc
      | Some (Some (k, v)) =>
          acc' <- body acc k v ;;
          for_of_map fuel' map body (Datatypes.S i) acc'
      end
  end.

(** ** Functions *)

(** A function value: called with a [this] value and its arguments. *)
Definition func := jsval -> list jsval -> M jsval.

(** What a caller can pass where a function is expected. *)
Inductive callback : Type :=
  | NotCallable (v : jsval)
  | Callable (f : func).

(** [f.bind(thisArg)]: the bound function ignores the [this] of its call. *)
Definition Function_bind (f : func) (thisArg : jsval) : func :=
  fun _ args => f thisArg args.

Definition is_undefined (v : jsval) : bool :=
  match v with JAtom AUndefined => true | _ => false end.

(** [if (typeof thisArg !== 'undefined') callback = callback.bind(thisArg)] *)
Definition bind_if_given (f : func) (thisArg : jsval) : func :=
  if is_undefined thisArg then f else Function_bind f thisArg.

(** [callback(value, key, index, this)], a plain call: its [this] is
    [undefined]. *)
Definition call_entry (f : func) (this : loc) (value : jsval) (key : atom)
    (index : Z) : M jsval :=
  f undefined [value; JAtom key; num index; JAtom (AObject this)].

(** [arr.flatMap(f, thisArg)] *)
Fixpoint flatMap_from (f : func) (thisArg : jsval) (source rest : list jsval)
    (i : Z) : M (list jsval) :=
  match rest with
  | [] => ret []
  | x :: xs =>
      r <- f thisArg [x; num i; JArray source] ;;
      rs <- flatMap_from f thisArg source xs (i + 1) ;;
      ret (concat_spread r ++ rs)
  end.

Definition Array_flatMap (arr : list jsval) (f : func) (thisArg : jsval)
    : M (list jsval) :=
  flatMap_from f thisArg arr arr 0.

(** The environment: whether [Array.prototype.flat] and
    [Array.prototype.flatMap] exist. *)
Record env : Type := {
  Array_prototype_flat : bool;
  Array_prototype_flatMap : bool
}.

(** A result of [Math.random()]: a fraction in [0, 1). The product with the
    length is taken exactly; the rounding of the floating-point product is
    not part of this model. *)
Record draw : Type := {
  draw_num : Z;
  draw_den : Z;
  draw_range : 0 <= draw_num < draw_den
}.

(** [Math.floor(Math.random() * length)] *)
Definition random_index (u : draw) (length : Z) : Z :=
  (draw_num u * length) / draw_den u.

(** ** The class Store *)

(** What [new Store(iterable)] can be given here: nothing, an array of
    [[key, value]] pairs, or a Store. *)
Inductive iterable : Type :=
  | NoIterable
  | FromArray (items : list (atom * jsval))
  | FromStore (source : loc).

(** [new Store(iterable)]: [super(iterable)], the Map constructor, makes the
    object and then calls [this.set] with every pair the iterable yields. *)
Definition Store_new (fuel : nat) (it : iterable) : M loc :=
  this <- alloc [] ;;
  match it with
  | NoIterable => ret this
  | FromArray items =>
      for_of_array items (fun kv => Map_set this kv.1 kv.2) ;;
      ret this
  | FromStore source =>
      for_of_map fuel source (fun _ k v => Map_set this k v) 0%nat tt ;;
      ret this
  end.

(** [array() { return [...this.values()]; }] *)
Definition array (this : loc) : M (list jsval) :=
  d <- this_data this ;; ret ((entries d).*2).

(** [keyArray() { return [...this.keys()]; }] *)
Definition keyArray (this : loc) : M (list atom) :=
  d <- this_data this ;; ret ((entries d).*1).

(** [clone() { return new Store(this); }] *)
Definition clone (fuel : nat) (this : loc) : M loc :=
  Store_new fuel (FromStore this).

(** [const [[key, value]] = s]: the first pair [s] yields; when there is
    none, destructuring [undefined] throws. *)
Definition first_pair (s : loc) : M (atom * jsval) :=
  d <- this_data s ;;
  match entries d with
  | [] => throw (TypeError "undefined is not iterable")
  | kv :: _ => ret kv
  end.

(** [concat(...stores)] *)
Definition concat (fuel : nat) (this : loc) (stores : list loc) : M loc :=
  store <- clone fuel this ;;
  for_of_array stores (fun s =>
    kv <- first_pair s ;; Map_set store kv.1 kv.2) ;;
  ret store.

(** [filter(callback, thisArg)] *)
Definition filter (fuel : nat) (this : loc) (cb : callback) (thisArg : jsval)
    : M loc :=
  match cb with
  | NotCallable _ => throw (TypeError "callback must be a function.")
  | Callable f =>
      let callback := bind_if_given f thisArg in
      filtered <- Store_new fuel NoIterable ;;
      for_of_map fuel this (fun index key value =>
        r <- call_entry callback this value key index ;;
        (if truthy r then Map_set filtered key value else ret tt) ;;
        ret (index + 1)) 0%nat 0 ;;
      ret filtered
  end.

(** [indexOf(key, fromIndex = 0)] *)
Definition indexOf (this : loc) (key : atom) (fromIndex : option number) : M Z :=
  let fromIndex := default (Int 0) fromIndex in
  size <- Map_size this ;;
  if size =? 0 then ret (-1) else
  keys <- keyArray this ;;
  ret (Array_indexOf keys key fromIndex).

(** [lastIndexOf(key, fromIndex = this.size - 1)] *)
Definition lastIndexOf (this : loc) (key : atom) (fromIndex : option number)
    : M Z :=
  fromIndex <- match fromIndex with
               | Some n => ret n
               | None => size <- Map_size this ;; ret (Int (size - 1))
               end ;;
  size <- Map_size this ;;
  if size =? 0 then ret (-1) else
  keys <- keyArray this ;;
  ret (Array_lastIndexOf keys key fromIndex).

(** The loop of [map], for any function of the value, the key and the
    index. *)
Definition map_with {T} (fuel : nat) (this : loc)
    (f : jsval -> atom -> Z -> M T) : M (list T) :=
  r <- for_of_map fuel this (fun st key value =>
         x <- f value key st.2 ;;
         ret (st.1 ++ [x], st.2 + 1)) 0%nat ([], 0) ;;
  ret r.1.

(** [map(callback, thisArg)] *)
Definition map (fuel : nat) (this : loc) (cb : callback) (thisArg : jsval)
    : M (list jsval) :=
  match cb with
  | NotCallable _ => throw (TypeError "callback must be a function")
  | Callable f =>
      let callback := bind_if_given f thisArg in
      map_with fuel this (call_entry callback this)
  end.

(** [first() { return this.array()[0]; }] *)
Definition first (this : loc) : M jsval :=
  arr <- array this ;; ret (array_get undefined arr 0).

(** [firstKey() { return this.keyArray()[0]; }] *)
Definition firstKey (this : loc) : M atom :=
  keys <- keyArray this ;; ret (array_get AUndefined keys 0).

(** [last() { return this.array()[this.size - 1]; }] *)
Definition last (this : loc) : M jsval :=
  arr <- array this ;;
  size <- Map_size this ;;
  ret (array_get undefined arr (size - 1)).

(** [lastKey() { return this.keyArray()[this.size - 1]; }] *)
Definition lastKey (this : loc) : M atom :=
  keys <- keyArray this ;;
  size <- Map_size this ;;
  ret (array_get AUndefined keys (size - 1)).

(** [random()], where [u] is what [Math.random()] returns. *)
Definition random (u : draw) (this : loc) : M jsval :=
  values <- array this ;;
  ret (array_get undefined values (random_index u (Z.of_nat (length values)))).

(** [randomKey()] *)
Definition randomKey (u : draw) (this : loc) : M atom :=
  keys <- keyArray this ;;
  ret (array_get AUndefined keys (random_index u (Z.of_nat (length keys)))).

(** [randomPair()]: a new array of the key and [this.get(key)]. *)
Definition randomPair (u : draw) (this : loc) : M jsval :=
  key <- randomKey u this ;;
  value <- Map_get this key ;;
  ret (JArray [JAtom key; value]).

(** [split(callback, thisArg)] *)
Definition split (fuel : nat) (this : loc) (cb : callback) (thisArg : jsval)
    : M (loc * loc) :=
  match cb with
  | NotCallable _ => throw (TypeError "callback must be a Function.")
  | Callable f =>
      let callback := bind_if_given f thisArg in
      first <- Store_new fuel NoIterable ;;
      second <- Store_new fuel NoIterable ;;
      for_of_map fuel this (fun index key value =>
        r <- call_entry callback this value key index ;;
        (if truthy r then Map_set first key value
         else Map_set second key value) ;;
        ret (index + 1)) 0%nat 0 ;;
      ret (first, second)
  end.

(** [for (const [key, value] of mapped) toFlat.set(key, value);] *)
Definition set_all (toFlat : loc) (mapped : list (atom * jsval)) : M unit :=
  for_of_array mapped (fun kv => Map_set toFlat kv.1 kv.2).

(** [val => Array.isArray(val) ? val.some(v => Array.isArray(v)) : false] *)
Definition has_nested_array (val : jsval) : bool :=
  match val with
  | JArray xs => existsb isArray xs
  | JAtom _ => false
  end.

(** [i--] *)
Definition number_pred (n : number) : number :=
  match n with Int z => Int (z - 1) | _ => n end.

(** The loop [for (let i = strength; i > 0; i--)] of [flat], taken when
    there is no [Array.prototype.flat]; [fuel] bounds its rounds and [inner]
    is the fuel of the loop over the Store in each round. *)
Fixpoint flat_rounds (fuel inner : nat) (toFlat : loc) (i : number) : M unit :=
  if negb (number_gt i (Int 0)) then ret tt else
  match fuel with
  | O => out_of_fuel
  | S fuel' =>
      vals <- array toFlat ;;
      let i := if negb (existsb has_nested_array vals) then Int 0 else i in
      for_of_map inner toFlat (fun _ key value =>
        match value with
        | JArray xs => Map_set toFlat key (JArray (Array_concat_all xs))
        | JAtom _ => ret tt
        end) 0%nat tt ;;
      flat_rounds fuel' inner toFlat (number_pred i)
  end.

(** [flat(strength = 1)]. [util.deprecate] wraps it to print a warning once,
    which is not part of this model. *)
Definition flat (E : env) (fuel : nat) (this : loc) (strength : option number)
    : M loc :=
  let strength := default (Int 1) strength in
  if number_lt strength (Int 1)
  then throw (RangeError "strength must be greater than 1.") else
  toFlat <- clone fuel this ;;
  vals <- array this ;;
  if negb (existsb isArray vals) then ret toFlat else
  (if Array_prototype_flat E then
     mapped <- map_with fuel toFlat (fun value key _ =>
                 ret (key, match value with
                           | JArray xs => JArray (Array_flat xs strength)
                           | JAtom _ => value
                           end)) ;;
     set_all toFlat mapped
   else flat_rounds fuel fuel toFlat strength) ;;
  ret toFlat.

(** [flatMap(callback, bind)], wrapped by [util.deprecate] like [flat]. *)
Definition flatMap (E : env) (fuel : nat) (this : loc) (cb : callback)
    (bind : jsval) : M loc :=
  match cb with
  | NotCallable _ => throw (TypeError "callback must be a Function.")
  | Callable f =>
      let callback := bind_if_given f bind in
      toFlat <- clone fuel this ;;
      vals <- array this ;;
      if negb (existsb isArray vals) then ret toFlat else
      mapped <-
        (if Array_prototype_flatMap E then
           map_with fuel toFlat (fun value key _ =>
             match value with
             | JArray xs =>
                 r <- Array_flatMap xs callback bind ;; ret (key, JArray r)
             | JAtom _ => ret (key, value)
             end)
         else
           map_with fuel toFlat (fun value key _ =>
             match value with
             | JArray xs =>
                 r <- callback undefined [value; bind] ;;
                 ret (key, JArray (concat_spread r))
             | JAtom _ => ret (key, value)
             end)) ;;
      set_all toFlat mapped ;;
      ret toFlat
  end.

(** ** Notions used to state the properties *)

(** The keys of a Store, in insertion order. *)
Definition keys (d : MapData) : list atom := (entries d).*1.

(** The invariant of [[MapData]]: no key is held by two records. *)
Definition wf_data (d : MapData) : Prop := NoDup (keys d).

#[global] Instance wf_data_dec (d : MapData) : Decision (wf_data d).
Proof. unfold wf_data. apply _. Defined.

(** The contents of the Store at [l]: its pairs in order; nothing where [l]
    is not a Store. *)
Definition contents (h : heap) (l : loc) : list (atom * jsval) :=
  match h !! l with Some d => entries d | None => [] end.

(** The loop over a Map whose records do not change while it runs: a fold
    over the pairs it had at the start. *)
Fixpoint fold_entries {S} (body : S -> atom -> jsval -> M S)
    (es : list (atom * jsval)) (acc : S) : M S :=
  match es with
  | [] => ret acc
  | kv :: es' => acc' <- body acc kv.1 kv.2 ;; fold_entries body es' acc'
  end.

(** What a computation guarantees from a heap satisfying [P]: [Q] when it
    returns, [E] when it throws, [D] when it runs out of fuel. *)
Definition hoare {A} (P : heap -> Prop) (m : M A) (Q : A -> heap -> Prop)
    (E : error -> heap -> Prop) (D : heap -> Prop) : Prop :=
  forall h, P h ->
    match m h with
    | (Ok a, h') => Q a h'
    | (Throw e, h') => E e h'
    | (OutOfFuel, h') => D h'
    end.

(** A mutation of a Store through the Map interface. *)
Inductive mutation : Type :=
  | MSet (k : atom) (v : jsval)
  | MDelete (k : atom).

Definition mutate (l : loc) (m : mutation) : M unit :=
  match m with
  | MSet k v => Map_set l k v
  | MDelete k => Map_delete l k ;; ret tt
  end.

(** Callbacks. [never_frees]: no function can make an object disappear. *)
Definition never_frees (f : func) : Prop :=
  forall t args h, dom h ⊆ dom (f t args h).2.

Definition never_throws (f : func) : Prop :=
  forall t args h e, (f t args h).1 <> Throw e.

(** The function returns whenever it is called. *)
Definition always_returns (f : func) : Prop :=
  forall t args h, exists r h', f t args h = (Ok r, h').

(** The computation returns from [h]. *)
Definition returns {A} (m : M A) (h : heap) : Prop :=
  exists a h', m h = (Ok a, h').

(** The objects of [X] are in the heap. *)
Definition alive (X : gset loc) (h : heap) : Prop := X ⊆ dom h.

(** The Store at [C] has the records [d]. *)
Definition has_records (C : loc) (d : MapData) (h : heap) : Prop :=
  h !! C = Some d.

(** The Store at [C] has the records [d] and the objects of [X] are in the
    heap. *)
Definition kept_alive (C : loc) (d : MapData) (X : gset loc) (h : heap) : Prop :=
  h !! C = Some d /\ alive X h.

(** However the computation ends, it leaves the records [d] at [C]. *)
Definition keeps (C : loc) (d : MapData) {A} (m : M A) : Prop :=
  hoare (has_records C d) m (fun _ => has_records C d)
    (fun _ => has_records C d) (has_records C d).

(** From [P] the computation returns, with [Q]. *)
Definition total {A} (P : heap -> Prop) (m : M A) (Q : A -> heap -> Prop) : Prop :=
  hoare P m Q (fun _ _ => False) (fun _ => False).

(** While the objects of [X] are in the heap the computation does not throw,
    and when it returns [Q] holds. *)
Definition safe {A} (X : gset loc) (m : M A) (Q : A -> heap -> Prop) : Prop :=
  hoare (alive X) m Q (fun _ _ => False) (fun _ => True).

(** The function does not change the Store at [l]. *)
Definition leaves (l : loc) (f : func) : Prop :=
  forall t args h, (f t args h).2 !! l = h !! l.

(** The function is a function of its arguments: it returns, changes
    nothing, and its result is given by its [this], its arguments and the
    records of the Store [l] it is handed. *)
Definition pure_on (l : loc) (f : func) : Prop :=
  exists g : jsval -> list jsval -> option MapData -> jsval,
    forall t args h, f t args h = (Ok (g t args (h !! l)), h).

(** What a function of its arguments answers, as a predicate on the pairs of
    the Store [C] with records [d]: the truthiness of its result. *)
Definition verdict (g : jsval -> list jsval -> option MapData -> jsval)
    (thisArg : jsval) (C : loc) (d : MapData) (v : jsval) (k : atom) (i : Z)
    : bool :=
  truthy (g thisArg [v; JAtom k; num i; JAtom (AObject C)] (Some d)).

(** The pairs a pure predicate keeps ([keep = true]) or rejects, with the
    index counted from [i]. *)
Fixpoint select (p : jsval -> atom -> Z -> bool) (keep : bool)
    (es : list (atom * jsval)) (i : Z) : list (atom * jsval) :=
  match es with
  | [] => []
  | kv :: es' =>
      if Bool.eqb (p kv.2 kv.1 i) keep then kv :: select p keep es' (i + 1)
      else select p keep es' (i + 1)
  end.

(** ** Sample data *)

Definition abc_data : MapData :=
  [Some (AString "a", num 1); Some (AString "b", num 2);
   Some (AString "c", num 3)].

(** A heap with the Store [[("a",1), ("b",2), ("c",3)]] at location 1. *)
Definition abc_heap : heap := {[ 1%positive := abc_data ]}.

(** A heap with the Store [[(NaN, 1)]] at location 1. *)
Definition nan_heap : heap := {[ 1%positive := [Some (ANumber NaN, num 1)] ]}.

(** A heap with an empty Store at location 1. *)
Definition empty_heap : heap := {[ 1%positive := [] ]}.

(** A heap with A = [[("x",1)]] at location 1 and B = [[("y",2), ("z",3)]] at
    location 2. *)
Definition xy_heap : heap :=
  <[ 2%positive := [Some (AString "y", num 2); Some (AString "z", num 3)] ]>
    {[ 1%positive := [Some (AString "x", num 1)] ]}.

(** A predicate with a memory: [(v, k) => { const b = seen.has(k);
    seen.set(k, true); return !b; }], true of a key the first time only. *)
Definition first_time (seen : loc) : func :=
  fun _ args =>
    match args with
    | _ :: JAtom k :: _ =>
        b <- Map_has seen k ;;
        Map_set seen k (JAtom (ABool true)) ;;
        ret (JAtom (ABool (negb b)))
    | _ => ret undefined
    end.

(** A heap with C = [[("a",1)]] at location 1 and the empty Store [seen] at
    location 2. *)
Definition seen_heap : heap :=
  <[ 2%positive := [] ]> {[ 1%positive := [Some (AString "a", num 1)] ]}.

(** [v => typeof v === 'number' && v > 1] *)
Definition greater_than_1 : func :=
  fun _ args =>
    match args with
    | JAtom (ANumber n) :: _ => ret (JAtom (ABool (number_gt n (Int 1))))
    | _ => ret (JAtom (ABool false))
    end.

(** [const f = C.filter(P), s = C.split(P);] and then the three sizes of
    [C.filter(P).size + C.split(P)[1].size == C.size], with whether the key
    "a" is in [f] and in [s[0]]; C is the Store at location 1 and P is
    [first_time] with its memory at location 2. *)
Definition sizes_with_first_time : M (Z * Z * Z * bool * bool) :=
  let P := Callable (first_time 2%positive) in
  filtered <- filter 2 1%positive P undefined ;;
  halves <- split 2 1%positive P undefined ;;
  a <- Map_size filtered ;;
  b <- Map_size halves.2 ;;
  c <- Map_size 1%positive ;;
  in_filtered <- Map_has filtered (AString "a") ;;
  in_first <- Map_has halves.1 (AString "a") ;;
  ret (a, b, c, in_filtered, in_first).

(** The Store of the example of [flat]: [hec -> [1, 2, [3, 4, [5, 6]]]]. *)
Definition hec_heap : heap :=
  {[ 1%positive :=
       [Some (AString "hec",
              JArray [num 1; num 2; JArray [num 3; num 4; JArray [num 5; num 6]]])] ]}.

(** An environment without [Array.prototype.flat] and [flatMap]. *)
Definition legacy : env :=
  {| Array_prototype_flat := false; Array_prototype_flatMap := false |}.

(** An environment with [Array.prototype.flat] and [flatMap]. *)
Definition modern : env :=
  {| Array_prototype_flat := true; Array_prototype_flatMap := true |}.

(** [Math.random()] returning 1/2. *)
Definition half : draw.
Proof. refine {| draw_num := 1; draw_den := 2 |}. lia. Defined.

(** ** Further notions and sample data *)

(** What the loop of the Map constructor does to the records: [set] of every
    pair in turn. *)
Definition set_pairs (items : list (atom * jsval)) (d : MapData) : MapData :=
  fold_left (fun d kv => data_set kv.1 kv.2 d) items d.

(** The pairs [[("a",1), ("b",2), ("a",3)]]: the key "a" comes twice. *)
Definition aba_items : list (atom * jsval) :=
  [(AString "a", num 1); (AString "b", num 2); (AString "a", num 3)].

(** The pairs of [abc_data]. *)
Definition abc_items : list (atom * jsval) :=
  [(AString "a", num 1); (AString "b", num 2); (AString "c", num 3)].

(** The Store [s] of the heap [h] yields [kv] first. *)
Definition yields_first (h : heap) (s : loc) (kv : atom * jsval) : Prop :=
  exists d, h !! s = Some d /\ head (entries d) = Some kv.

(** A heap with A = [[("x",1)]] at location 1, B = [[("y",2), ("z",3)]] at
    location 2 and an empty Store at location 3. *)
Definition xy_empty_heap : heap := <[ 3%positive := [] ]> xy_heap.

(** What [map] collects from a function [p] of the value, the key and the
    index, the index counted from [i]. *)
Fixpoint map_results {T} (p : jsval -> atom -> Z -> T)
    (es : list (atom * jsval)) (i : Z) : list T :=
  match es with
  | [] => []
  | kv :: es' => p kv.2 kv.1 i :: map_results p es' (i + 1)
  end.

(** [(v, k, i) => i]: the index the callback is given. *)
Definition give_index : func :=
  fun _ args => ret (nth 2 args undefined).

(** [function (...args) { return !f.apply(this, args); }] *)
Definition negate (f : func) : func :=
  fun t args => r <- f t args ;; ret (JAtom (ABool (negb (truthy r)))).

(** What [flat] puts in place of a value:
    [Array.isArray(value) ? value.flat(strength) : value]. *)
Definition flat_value (strength : number) (value : jsval) : jsval :=
  match value with
  | JArray xs => JArray (Array_flat xs strength)
  | JAtom _ => value
  end.

(** What one round of the loop of [flat] puts in place of a value:
    [[].concat(...value)] for an array. *)
Definition spread_value (value : jsval) : jsval :=
  match value with
  | JArray xs => JArray (Array_concat_all xs)
  | JAtom _ => value
  end.

(** The pairs with every value replaced, keys and order kept. *)
Definition on_values (g : jsval -> jsval) (es : list (atom * jsval))
    : list (atom * jsval) :=
  (fun kv => (kv.1, g kv.2)) <$> es.

(** What [arr.flatMap] collects from a function [p] of the element and the
    index, the index counted from [i]. *)
Fixpoint flatMap_results (p : jsval -> Z -> jsval) (xs : list jsval) (i : Z)
    : list jsval :=
  match xs with
  | [] => []
  | x :: xs' => concat_spread (p x i) ++ flatMap_results p xs' (i + 1)
  end.

(** What [flatMap] puts in place of a value when the callback answers [g]:
    with [Array.prototype.flatMap] the callback is called on every element
    of an array value, without it once on the array and [bind]. *)
Definition flatMap_value (E : env)
    (g : jsval -> list jsval -> option MapData -> jsval) (bind : jsval)
    (d : MapData) (value : jsval) : jsval :=
  match value with
  | JArray xs =>
      if Array_prototype_flatMap E
      then JArray (flatMap_results
                     (fun x i => g bind [x; num i; JArray xs] (Some d)) xs 0)
      else JArray (concat_spread (g bind [value; bind] (Some d)))
  | JAtom _ => value
  end.

(** [x => [x, x]] *)
Definition twice : func :=
  fun _ args => ret (JArray [nth 0 args undefined; nth 0 args undefined]).

(** A callback that throws whenever it is called. *)
Definition always_throws : func :=
  fun _ _ => throw (TypeError "called").

(** The Store [[("n", [1, 2]), ("a", 1)]] at location 1. *)
Definition pair_heap : heap :=
  {[ 1%positive := [Some (AString "n", JArray [num 1; num 2]);
                    Some (AString "a", num 1)] ]}.

(** A heap with a Store at location 1 whose two pairs were deleted. *)
Definition emptied_heap : heap := {[ 1%positive := [None; None] ]}.



(** The callback changes nothing and [g] tells how each call ends: with a
    result or with an exception. *)
Definition answers (C : loc) (f : func)
    (g : jsval -> list jsval -> option MapData -> error + jsval) : Prop :=
  forall t args h,
    f t args h = (match g t args (h !! C) with
                  | inr r => Ok r
                  | inl e => Throw e
                  end, h).

(** [(v, k) => { if (k === "b") throw new RangeError("b"); return true; }] *)
Definition throws_at_b : func :=
  fun _ args =>
    match args with
    | _ :: JAtom (AString "b") :: _ => throw (RangeError "b")
    | _ => ret (JAtom (ABool true))
    end.

(** [(v, k, i, s) => { s.delete(k); return true; }]: what it returns depends
    on nothing but its arguments, and it changes the Store it is handed. *)
Definition delete_and_keep : func :=
  fun _ args =>
    match args with
    | _ :: JAtom k :: _ :: JAtom (AObject s) :: _ =>
        Map_delete s k ;; ret (JAtom (ABool true))
    | _ => ret (JAtom (ABool true))
    end.

(** [const f = C.filter(P), s = C.split(P);] and then the keys and the values
    of [f] and those of [s[0]]; C is the Store at location 1 and P is
    [delete_and_keep]. *)
Definition pairs_with_delete
    : M (list atom * list jsval * (list atom * list jsval)) :=
  let P := Callable delete_and_keep in
  filtered <- filter 4 1%positive P undefined ;;
  halves <- split 4 1%positive P undefined ;;
  ks <- keyArray filtered ;;
  vs <- array filtered ;;
  ks1 <- keyArray halves.1 ;;
  vs1 <- array halves.1 ;;
  ret (ks, vs, (ks1, vs1)).

(** What [n] rounds of the loop of [flat] put in place of a value:
    [[].concat(...value)], [n] times over. *)
Fixpoint spread_times (n : nat) (value : jsval) : jsval :=
  match n with
  | O => value
  | S n' => spread_value (spread_times n' value)
  end.

(** ** Lemmas on the data of a Map *)

#[local] Arguments entries : simpl never.

Lemma entries_Some (es : list (atom * jsval)) : entries (Some <$> es) = es.
Proof.
  unfold entries. induction es as [|kv es IH]; [done|].
  rewrite fmap_cons. simpl. by f_equal.
Qed.

Lemma entries_cons_Some kv (d : MapData) :
  entries (Some kv :: d) = kv :: entries d.
Proof. done. Qed.

Lemma entries_cons_None (d : MapData) : entries (None :: d) = entries d.
Proof. done. Qed.


Lemma entries_data_set_new k v (d : MapData) :
  k ∉ keys d -> entries (data_set k v d) = entries d ++ [(k, v)].
Proof.
  unfold keys. induction d as [|[[k' v']|] d IH]; intros Hk.
  - done.
  - rewrite entries_cons_Some, fmap_cons in Hk. cbn [fst] in Hk.
    apply not_elem_of_cons in Hk as [Hne Hk]. cbn [data_set].
    unfold same_value_zero. rewrite bool_decide_eq_false_2 by congruence.
    rewrite !entries_cons_Some, IH by done. done.
  - cbn [data_set]. rewrite !entries_cons_None. by apply IH.
Qed.

Lemma data_set_Some_new k v (es : list (atom * jsval)) :
  k ∉ es.*1 -> data_set k v (Some <$> es) = Some <$> (es ++ [(k, v)]).
Proof.
  induction es as [|[k' v'] es IH]; intros Hk; [done|].
  rewrite fmap_cons in Hk. simpl in Hk.
  apply not_elem_of_cons in Hk as [Hne Hk].
  rewrite fmap_cons. cbn [data_set].
  unfold same_value_zero. rewrite bool_decide_eq_false_2 by congruence.
  by rewrite IH.
Qed.

Lemma entries_data_set_old k v (d : MapData) :
  wf_data d -> k ∈ keys d ->
  entries (data_set k v d) =
  (fun kv => if decide (kv.1 = k) then (k, v) else kv) <$> entries d.
Proof.
  unfold wf_data, keys. induction d as [|[[k' v']|] d IH]; intros Hnd Hk.
  - by apply elem_of_nil in Hk.
  - rewrite entries_cons_Some, fmap_cons in Hnd, Hk. cbn [fst] in Hnd, Hk.
    apply NoDup_cons in Hnd as [Hnotin Hnd]. cbn [data_set].
    unfold same_value_zero. destruct (decide (k' = k)) as [->|Hne].
    + rewrite bool_decide_eq_true_2 by done.
      rewrite !entries_cons_Some, fmap_cons. cbn [fst].
      rewrite decide_True by done. f_equal.
      clear IH Hk Hnd. induction (entries d) as [|[k1 v1] es IH]; [done|].
      rewrite fmap_cons in Hnotin. cbn [fst] in Hnotin.
      apply not_elem_of_cons in Hnotin as [Hne Hnotin].
      rewrite fmap_cons. cbn [fst]. rewrite decide_False by congruence.
      f_equal. by apply IH.
    + rewrite bool_decide_eq_false_2 by done.
      rewrite !entries_cons_Some, fmap_cons. cbn [fst].
      rewrite decide_False by done. f_equal.
      apply IH; [done|]. apply elem_of_cons in Hk as [?|?]; congruence.
  - cbn [data_set]. rewrite !entries_cons_None. by apply IH.
Qed.

Lemma keys_data_set k v (d : MapData) :
  keys (data_set k v d) = if decide (k ∈ keys d) then keys d else keys d ++ [k].
Proof.
  unfold keys. induction d as [|[[k' v']|] d IH]; cbn [data_set].
  - rewrite decide_False; [done|]. apply not_elem_of_nil.
  - unfold same_value_zero. destruct (decide (k' = k)) as [->|Hne].
    + rewrite bool_decide_eq_true_2 by done.
      rewrite !entries_cons_Some, !fmap_cons. cbn [fst].
      rewrite decide_True; [done|]. apply elem_of_cons; by left.
    + rewrite bool_decide_eq_false_2 by done.
      rewrite !entries_cons_Some, !fmap_cons, IH. cbn [fst].
      destruct (decide (k ∈ (entries d).*1)) as [Hin|Hnin].
      * rewrite decide_True; [done|]. apply elem_of_cons; by right.
      * rewrite decide_False; [done|].
        intros [?|?]%elem_of_cons; congruence.
  - rewrite !entries_cons_None. apply IH.
Qed.

Lemma wf_data_set k v (d : MapData) : wf_data d -> wf_data (data_set k v d).
Proof.
  unfold wf_data. rewrite keys_data_set. intros Hnd.
  destruct (decide (k ∈ keys d)); [done|].
  apply NoDup_app. split; [done|]. split.
  - intros x Hx Hx'. apply list_elem_of_singleton in Hx'. by subst.
  - apply NoDup_singleton.
Qed.

Lemma data_get_lookup k v (d : MapData) :
  wf_data d -> (k, v) ∈ entries d -> data_get k d = v.
Proof.
  unfold wf_data, keys. induction d as [|[[k' v']|] d IH]; intros Hnd Hin.
  - by apply elem_of_nil in Hin.
  - rewrite entries_cons_Some in Hnd, Hin. rewrite fmap_cons in Hnd.
    cbn [fst] in Hnd. apply NoDup_cons in Hnd as [Hnotin Hnd].
    cbn [data_get]. unfold same_value_zero.
    apply elem_of_cons in Hin as [Heq|Hin].
    + inversion Heq; subst. by rewrite bool_decide_eq_true_2.
    + rewrite bool_decide_eq_false_2; [by apply IH|].
      intros ->. apply Hnotin. apply list_elem_of_fmap. by exists (k, v).
  - cbn [data_get]. rewrite entries_cons_None in Hin, Hnd. by apply IH.
Qed.

Lemma data_get_absent k (d : MapData) : k ∉ keys d -> data_get k d = undefined.
Proof.
  unfold keys. induction d as [|[[k' v']|] d IH]; intros Hk; cbn [data_get].
  - done.
  - rewrite entries_cons_Some, fmap_cons in Hk. cbn [fst] in Hk.
    apply not_elem_of_cons in Hk as [Hne Hk].
    unfold same_value_zero. rewrite bool_decide_eq_false_2 by congruence.
    by apply IH.
  - by apply IH.
Qed.

(** The Map interface keeps the invariant. *)

Lemma wf_data_nil : wf_data [].
Proof. apply NoDup_nil_2. Qed.

Lemma keys_data_delete k (d : MapData) : sublist (keys (data_delete k d)) (keys d).
Proof.
  unfold keys. induction d as [|[[k' v']|] d IH]; cbn [data_delete].
  - done.
  - destruct (same_value_zero k' k).
    + rewrite entries_cons_None, entries_cons_Some, fmap_cons.
      by apply sublist_cons.
    + rewrite !entries_cons_Some, !fmap_cons. by apply sublist_skip.
  - by rewrite !entries_cons_None.
Qed.

Lemma wf_data_delete k (d : MapData) : wf_data d -> wf_data (data_delete k d).
Proof.
  unfold wf_data. intros Hnd. eapply sublist_NoDup; [exact Hnd|].
  apply keys_data_delete.
Qed.

Lemma wf_data_Some (es : list (atom * jsval)) : NoDup es.*1 -> wf_data (Some <$> es).
Proof. intros Hnd. unfold wf_data, keys. by rewrite entries_Some. Qed.

(** ** Reading a Store *)

Lemma array_get_lookup {A} (dflt x : A) (arr : list A) (i : nat) :
  arr !! i = Some x -> array_get dflt arr (Z.of_nat i) = x.
Proof.
  intros Hi. unfold array_get.
  destruct (Z.ltb_spec (Z.of_nat i) 0) as [?|_]; [lia|].
  rewrite Nat2Z.id. by apply nth_lookup_Some.
Qed.


Lemma bind_ok {A B} (m : M A) (f : A -> M B) (h h' : heap) (a : A) :
  m h = (Ok a, h') -> bind m f h = f a h'.
Proof. intros Hm. unfold bind. by rewrite Hm. Qed.



Lemma bind_ext {A B} (m : M A) (f g : A -> M B) (h : heap) :
  (forall a h', m h = (Ok a, h') -> f a h' = g a h') ->
  bind m f h = bind m g h.
Proof.
  intros Hfg. unfold bind. destruct (m h) as [[a| |] h']; [|done..].
  by apply Hfg.
Qed.

Lemma bind_snd {A B} (P : heap -> Prop) (m : M A) (f : A -> M B) (h : heap) :
  P (m h).2 -> (forall a h', P h' -> P (f a h').2) -> P (bind m f h).2.
Proof.
  intros Hm Hf. unfold bind. destruct (m h) as [[a| |] h']; [|done..].
  by apply Hf.
Qed.

Lemma ret_run {A} (a : A) (h : heap) : ret a h = (Ok a, h).
Proof. done. Qed.

Create HintDb store discriminated.

Lemma this_data_lookup (h : heap) this d :
  h !! this = Some d -> this_data this h = (Ok d, h).
Proof. intros Hd. unfold this_data. by rewrite Hd. Qed.

Lemma array_lookup (h : heap) this d :
  h !! this = Some d -> array this h = (Ok (entries d).*2, h).
Proof. intros Hd. unfold array, bind. by rewrite (this_data_lookup h this d). Qed.

Lemma keyArray_lookup (h : heap) this d :
  h !! this = Some d -> keyArray this h = (Ok (keys d), h).
Proof. intros Hd. unfold keyArray, bind. by rewrite (this_data_lookup h this d). Qed.

Lemma Map_size_lookup (h : heap) this d :
  h !! this = Some d -> Map_size this h = (Ok (data_size d), h).
Proof. intros Hd. unfold Map_size, bind. by rewrite (this_data_lookup h this d). Qed.

Lemma Map_get_lookup (h : heap) this d k :
  h !! this = Some d -> Map_get this k h = (Ok (data_get k d), h).
Proof. intros Hd. unfold Map_get, bind. by rewrite (this_data_lookup h this d). Qed.

#[local] Hint Resolve this_data_lookup array_lookup keyArray_lookup
  Map_size_lookup Map_get_lookup ret_run : store.

(** Runs the binds of the goal whose first computation is known. *)
Ltac mrun :=
  repeat (erewrite bind_ok by (eauto with store)); rewrite ?ret_run.

(** C7: on an empty Store [first], [firstKey], [last] and [lastKey] return
    [undefined] and do not throw; on a Store that is not empty [first] and
    [firstKey] return the value and the key at position 0, and [last] and
    [lastKey] those at position size - 1 of the insertion order. *)
Theorem C7_first_last (h : heap) (this : loc) (d : MapData) :
  h !! this = Some d ->
  (entries d = [] ->
     first this h = (Ok undefined, h) /\ firstKey this h = (Ok AUndefined, h) /\
     last this h = (Ok undefined, h) /\ lastKey this h = (Ok AUndefined, h)) /\
  (forall k v, entries d !! 0%nat = Some (k, v) ->
     first this h = (Ok v, h) /\ firstKey this h = (Ok k, h)) /\
  (forall k v, entries d !! (length (entries d) - 1)%nat = Some (k, v) ->
     last this h = (Ok v, h) /\ lastKey this h = (Ok k, h)).
Proof.
  intros Hd. unfold first, firstKey, last, lastKey, keys, data_size. mrun.
  unfold keys, data_size. split; [|split].
  - intros Hnil. by rewrite Hnil.
  - intros k v H0.
    rewrite (array_get_lookup undefined v _ 0%nat)
      by (by rewrite list_lookup_fmap, H0).
    rewrite (array_get_lookup AUndefined k _ 0%nat)
      by (by rewrite list_lookup_fmap, H0).
    done.
  - intros k v Hlast. pose proof (lookup_lt_Some _ _ _ Hlast) as Hlt.
    replace (Z.of_nat (length (entries d)) - 1)
      with (Z.of_nat (length (entries d) - 1)) by lia.
    rewrite (array_get_lookup undefined v)
      by (by rewrite list_lookup_fmap, Hlast).
    rewrite (array_get_lookup AUndefined k)
      by (by rewrite list_lookup_fmap, Hlast).
    done.
Qed.

Lemma C7_first_last_witness :
  first 1%positive abc_heap = (Ok (num 1), abc_heap) /\
  last 1%positive abc_heap = (Ok (num 3), abc_heap).
Proof.
  destruct (C7_first_last abc_heap 1%positive abc_data eq_refl)
    as (_ & Hfirst & Hlast).
  split.
  - apply (Hfirst (AString "a") (num 1)). reflexivity.
  - apply (Hlast (AString "c") (num 3)). reflexivity.
Defined.

(** ** indexOf and lastIndexOf *)

Lemma is_strictly_equal_true (y x : atom) :
  is_strictly_equal y x = true -> y = x.
Proof.
  unfold is_strictly_equal.
  destruct y as [| |b|[z| | |]|s|l]; try done;
    by intros ?%bool_decide_eq_true.
Qed.

Lemma is_strictly_equal_refl (x : atom) :
  x <> ANumber NaN -> is_strictly_equal x x = true.
Proof.
  intros Hx. unfold is_strictly_equal.
  destruct x as [| |b|[z| | |]|s|l]; try done; by apply bool_decide_eq_true.
Qed.

Lemma index_from_absent x (arr : list atom) i k :
  x ∉ arr -> index_from x arr i k = -1.
Proof.
  revert i. induction arr as [|y ys IH]; intros i Hx; [done|].
  apply not_elem_of_cons in Hx as [Hne Hx]. cbn [index_from].
  destruct (is_strictly_equal y x) eqn:Heq.
  - apply is_strictly_equal_true in Heq. congruence.
  - rewrite andb_false_r. by apply IH.
Qed.

Lemma index_from_found x (arr : list atom) (pos : nat) i k :
  x <> ANumber NaN -> NoDup arr -> arr !! pos = Some x -> k <= i ->
  index_from x arr i k = i + Z.of_nat pos.
Proof.
  intros Hx. revert pos i.
  induction arr as [|y ys IH]; intros pos i Hnd Hpos Hk; [done|].
  apply NoDup_cons in Hnd as [Hy Hnd]. cbn [index_from].
  destruct pos as [|pos].
  - injection Hpos as ->. rewrite is_strictly_equal_refl by done.
    destruct (Z.leb_spec k i); [|lia]. cbn. lia.
  - cbn in Hpos. destruct (is_strictly_equal y x) eqn:Heq.
    + apply is_strictly_equal_true in Heq. subst y.
      exfalso. apply Hy. by eapply list_elem_of_lookup_2.
    + rewrite andb_false_r. rewrite (IH pos) by (done || lia). lia.
Qed.

Lemma last_index_upto_absent x (arr : list atom) i k :
  x ∉ arr -> last_index_upto x arr i k = -1.
Proof.
  revert i. induction arr as [|y ys IH]; intros i Hx; [done|].
  apply not_elem_of_cons in Hx as [Hne Hx]. cbn [last_index_upto].
  rewrite IH by done. cbn.
  destruct (is_strictly_equal y x) eqn:Heq.
  - apply is_strictly_equal_true in Heq. congruence.
  - by rewrite andb_false_r.
Qed.

Lemma last_index_upto_found x (arr : list atom) (pos : nat) i k :
  x <> ANumber NaN -> NoDup arr -> arr !! pos = Some x ->
  0 <= i -> i + Z.of_nat pos <= k ->
  last_index_upto x arr i k = i + Z.of_nat pos.
Proof.
  intros Hx. revert pos i.
  induction arr as [|y ys IH]; intros pos i Hnd Hpos Hi Hk; [done|].
  apply NoDup_cons in Hnd as [Hy Hnd]. cbn [last_index_upto].
  destruct pos as [|pos].
  - injection Hpos as ->. rewrite last_index_upto_absent by done. cbn.
    rewrite is_strictly_equal_refl by done.
    destruct (Z.leb_spec i k); [|lia]. cbn. lia.
  - cbn in Hpos. rewrite (IH pos) by (done || lia).
    destruct (Z.leb_spec 0 (i + 1 + Z.of_nat pos)); [|lia]. lia.
Qed.

(** C5 (amended): with the default [fromIndex], a key other than NaN that is
    in the Store at position [i] of the insertion order makes [indexOf] and
    [lastIndexOf] both return [i]; a key that is not in the Store (so any key,
    when the Store is empty) makes both return -1. *)
Theorem C5_indexOf_lastIndexOf (h : heap) (this : loc) (d : MapData) (key : atom) :
  h !! this = Some d -> wf_data d ->
  (forall i : nat, key <> ANumber NaN -> keys d !! i = Some key ->
     indexOf this key None h = (Ok (Z.of_nat i), h) /\
     lastIndexOf this key None h = (Ok (Z.of_nat i), h)) /\
  (key ∉ keys d ->
     indexOf this key None h = (Ok (-1), h) /\
     lastIndexOf this key None h = (Ok (-1), h)).
Proof.
  intros Hd Hwf.
  assert (Hlen : data_size d = Z.of_nat (length (keys d)))
    by (unfold data_size, keys; by rewrite length_fmap).
  unfold indexOf, lastIndexOf. cbn [default]. mrun.
  erewrite (bind_ok (bind _ _)) by (mrun; done).
  mrun. rewrite Hlen. split.
  - intros i Hnan Hi. pose proof (lookup_lt_Some _ _ _ Hi) as Hlt.
    destruct (Z.eqb_spec (Z.of_nat (length (keys d))) 0) as [?|_]; [lia|].
    mrun. unfold Array_indexOf, Array_lastIndexOf.
    destruct (Z.eqb_spec (Z.of_nat (length (keys d))) 0) as [?|_]; [lia|].
    cbn [to_integer_or_infinity].
    destruct (Z.leb_spec 0 (Z.of_nat (length (keys d)) - 1)) as [_|?]; [|lia].
    rewrite Z.min_id. cbn [Z.leb Z.compare].
    rewrite (index_from_found key (keys d) i) by (done || lia).
    rewrite (last_index_upto_found key (keys d) i) by (done || lia).
    done.
  - intros Habs.
    destruct (Z.eqb_spec (Z.of_nat (length (keys d))) 0) as [?|Hne]; [done|].
    mrun. unfold Array_indexOf, Array_lastIndexOf.
    destruct (Z.eqb_spec (Z.of_nat (length (keys d))) 0) as [?|_]; [lia|].
    cbn [to_integer_or_infinity].
    rewrite index_from_absent, last_index_upto_absent by done. done.
Qed.

Lemma C5_indexOf_lastIndexOf_witness :
  indexOf 1%positive (AString "b") None abc_heap = (Ok 1, abc_heap) /\
  lastIndexOf 1%positive (AString "b") None abc_heap = (Ok 1, abc_heap).
Proof.
  assert (Hwf : wf_data abc_data)
    by (apply (bool_decide_unpack _); vm_compute; exact I).
  destruct (C5_indexOf_lastIndexOf abc_heap 1%positive abc_data (AString "b")
              eq_refl Hwf) as [Hfound _].
  apply (Hfound 1%nat); [discriminate|reflexivity].
Defined.

(** C5 as stated fails: NaN is a key of the Store [[(NaN, 1)]], at position
    0, and [indexOf(NaN)] and [lastIndexOf(NaN)] return -1. *)
Lemma C5_counterexample_NaN :
  Map_has 1%positive (ANumber NaN) nan_heap = (Ok true, nan_heap) /\
  contents nan_heap 1%positive !! 0%nat = Some (ANumber NaN, num 1) /\
  indexOf 1%positive (ANumber NaN) None nan_heap = (Ok (-1), nan_heap) /\
  lastIndexOf 1%positive (ANumber NaN) None nan_heap = (Ok (-1), nan_heap).
Proof. repeat split. Qed.

(** ** random, randomKey and randomPair *)

Lemma random_index_range (u : draw) (len : Z) :
  0 < len -> 0 <= random_index u len < len.
Proof.
  intros Hlen. unfold random_index. pose proof (draw_range u) as Hu. split.
  - apply Z.div_pos; nia.
  - apply Z.div_lt_upper_bound; nia.
Qed.

Lemma random_index_empty (u : draw) : random_index u 0 = 0.
Proof. unfold random_index. by rewrite Z.mul_0_r. Qed.

(** C4 (amended): on a Store that is not empty, whatever [Math.random()]
    gives, [random] returns a value of the Store, [randomKey] a key of the
    Store and [randomPair] the array of a key and its value, a pair of the
    Store; on an empty Store [random] and [randomKey] return [undefined] and
    [randomPair] returns the array [[undefined, undefined]]. *)
Theorem C4_random (h : heap) (this : loc) (d : MapData) (u : draw) :
  h !! this = Some d -> wf_data d ->
  (entries d <> [] ->
     exists (i : nat) k v,
       entries d !! i = Some (k, v) /\
       random u this h = (Ok v, h) /\
       randomKey u this h = (Ok k, h) /\
       randomPair u this h = (Ok (JArray [JAtom k; v]), h)) /\
  (entries d = [] ->
     random u this h = (Ok undefined, h) /\
     randomKey u this h = (Ok AUndefined, h) /\
     randomPair u this h = (Ok (JArray [undefined; undefined]), h)).
Proof.
  intros Hd Hwf. unfold randomPair, random, randomKey. mrun.
  erewrite (bind_ok (bind _ _)) by (mrun; done). mrun.
  unfold keys. rewrite !length_fmap. split.
  - intros Hne.
    assert (Hlen : 0 < Z.of_nat (length (entries d)))
      by (destruct (entries d); [done|cbn; lia]).
    pose proof (random_index_range u _ Hlen) as Hi.
    set (i := random_index u (Z.of_nat (length (entries d)))) in *.
    destruct (lookup_lt_is_Some_2 (entries d) (Z.to_nat i)) as [[k v] Hkv];
      [lia|].
    exists (Z.to_nat i), k, v. split; [done|].
    replace i with (Z.of_nat (Z.to_nat i)) by lia.
    rewrite (array_get_lookup undefined v), (array_get_lookup AUndefined k)
      by (by rewrite list_lookup_fmap, Hkv).
    repeat split. rewrite (data_get_lookup k v); [done..|].
    by eapply list_elem_of_lookup_2.
  - intros Hnil. rewrite Hnil. cbn [length Z.of_nat].
    rewrite random_index_empty. repeat split.
    rewrite data_get_absent; [done|]. unfold keys. rewrite Hnil.
    apply not_elem_of_nil.
Qed.

Lemma abc_wf : wf_data abc_data.
Proof. apply (bool_decide_unpack _). vm_compute. exact I. Qed.

Lemma C4_random_witness :
  exists (i : nat) k v,
    entries abc_data !! i = Some (k, v) /\
    random half 1%positive abc_heap = (Ok v, abc_heap) /\
    randomKey half 1%positive abc_heap = (Ok k, abc_heap) /\
    randomPair half 1%positive abc_heap = (Ok (JArray [JAtom k; v]), abc_heap).
Proof.
  destruct (C4_random abc_heap 1%positive abc_data half eq_refl abc_wf)
    as [Hfull _].
  apply Hfull. discriminate.
Defined.

(** C4 as stated fails for [randomPair]: on an empty Store it returns a new
    array of two [undefined], not [undefined]. *)
Lemma C4_counterexample_randomPair :
  contents empty_heap 1%positive = [] /\
  randomPair half 1%positive empty_heap
    = (Ok (JArray [undefined; undefined]), empty_heap) /\
  JArray [undefined; undefined] <> undefined.
Proof. repeat split. discriminate. Qed.

(** ** The loop over a Map that stays as it is *)

Lemma Map_set_lookup (h : heap) l d k v :
  h !! l = Some d -> Map_set l k v h = (Ok tt, <[l := data_set k v d]> h).
Proof. intros Hd. unfold Map_set. by mrun. Qed.

Lemma Map_set_other (h : heap) l l' k v :
  l <> l' -> (Map_set l k v h).2 !! l' = h !! l'.
Proof.
  intros Hne. unfold Map_set, bind, this_data, put_data.
  destruct (h !! l); cbn [snd]; [|done]. by rewrite lookup_insert_ne.
Qed.

Lemma Map_delete_other (h : heap) l l' k :
  l <> l' -> (Map_delete l k h).2 !! l' = h !! l'.
Proof.
  intros Hne. unfold Map_delete, bind, this_data, put_data, ret.
  destruct (h !! l); cbn [snd]; [|done]. by rewrite lookup_insert_ne.
Qed.

(** While the records of [map] are [d] before and after every round, the
    live loop is the fold over the pairs of [d], as soon as the fuel exceeds
    the number of records left. *)
Lemma for_of_map_fold {S} (P : heap -> Prop) (map : loc) (d : MapData)
    (body : S -> atom -> jsval -> M S) :
  (forall h, P h -> h !! map = Some d) ->
  (forall acc k v h, P h -> P (body acc k v h).2) ->
  forall fuel i acc h, P h -> (length d - i < fuel)%nat ->
    for_of_map fuel map body i acc h
    = fold_entries body (entries (drop i d)) acc h.
Proof.
  intros Hmap Hbody. induction fuel as [|fuel IH]; intros i acc h HP Hfuel;
    [lia|].
  cbn [for_of_map]. rewrite (bind_ok _ _ h h d) by eauto with store.
  destruct (d !! i) as [[[k v]|]|] eqn:Hi.
  - pose proof (lookup_lt_Some _ _ _ Hi) as Hlt.
    rewrite (drop_S _ _ _ Hi), entries_cons_Some. cbn [fold_entries fst snd].
    apply bind_ext. intros acc' h' Hrun. specialize (Hbody acc k v h HP).
    rewrite Hrun in Hbody. apply IH; [done|lia].
  - pose proof (lookup_lt_Some _ _ _ Hi) as Hlt.
    rewrite (drop_S _ _ _ Hi), entries_cons_None. apply IH; [done|lia].
  - apply lookup_ge_None in Hi. by rewrite drop_ge.
Qed.

(** Copying pairs with distinct keys into a Store appends them. *)
Lemma fold_entries_Map_set (l : loc) (es es0 : list (atom * jsval)) (h : heap) :
  h !! l = Some (Some <$> es0) -> NoDup (es0 ++ es).*1 ->
  fold_entries (fun _ k v => Map_set l k v) es tt h
  = (Ok tt, <[l := Some <$> (es0 ++ es)]> h).
Proof.
  revert es0 h. induction es as [|[k v] es IH]; intros es0 h Hl Hnd.
  - cbn [fold_entries]. rewrite app_nil_r, ret_run. by rewrite insert_id.
  - cbn [fold_entries fst snd].
    assert (Hk : k ∉ es0.*1).
    { rewrite fmap_app, fmap_cons in Hnd. apply NoDup_app in Hnd as (_ & Hd & _).
      intros Hin. apply (Hd k Hin). cbn. by left. }
    rewrite (bind_ok _ _ h _ tt (Map_set_lookup h l _ k v Hl)).
    rewrite data_set_Some_new by done.
    rewrite (IH (es0 ++ [(k, v)])).
    + by rewrite insert_insert_eq, <- app_assoc.
    + by rewrite lookup_insert_eq.
    + by rewrite <- app_assoc.
Qed.

(** [clone] returns a new Store holding the pairs of the receiver. *)
Lemma clone_run (fuel : nat) (h : heap) (this : loc) (d : MapData) :
  h !! this = Some d -> wf_data d -> (length d < fuel)%nat ->
  clone fuel this h
  = (Ok (fresh (dom h)), <[fresh (dom h) := Some <$> entries d]> h).
Proof.
  intros Hd Hwf Hfuel. unfold clone, Store_new.
  set (l := fresh (dom h)).
  assert (Hl : l ∉ dom h) by apply is_fresh.
  assert (Hne : l <> this).
  { intros ->. apply Hl. apply elem_of_dom. by rewrite Hd. }
  rewrite (bind_ok _ _ h (<[l := []]> h) l) by done.
  rewrite (bind_ok _ _ _ (<[l := Some <$> entries d]> h) tt); [done|].
  rewrite (for_of_map_fold (fun h' => h' !! this = Some d) this d).
  - rewrite drop_0. rewrite (fold_entries_Map_set l (entries d) []).
    + by rewrite insert_insert_eq.
    + by rewrite lookup_insert_eq.
    + done.
  - done.
  - intros acc k v h' Hh'. by rewrite Map_set_other.
  - by rewrite lookup_insert_ne.
  - lia.
Qed.

Lemma contents_insert_eq (h : heap) l (es : list (atom * jsval)) :
  contents (<[l := Some <$> es]> h) l = es.
Proof. unfold contents. by rewrite lookup_insert_eq, entries_Some. Qed.


Lemma contents_lookup (h : heap) l (d : MapData) :
  h !! l = Some d -> contents h l = entries d.
Proof. intros Hd. unfold contents. by rewrite Hd. Qed.

Lemma fresh_ne (h : heap) l (d : MapData) : h !! l = Some d -> fresh (dom h) <> l.
Proof.
  intros Hd Heq. apply (is_fresh (dom h)). rewrite Heq.
  apply elem_of_dom. by rewrite Hd.
Qed.

Lemma mutate_other (h : heap) l l' (m : mutation) :
  l <> l' -> (mutate l m h).2 !! l' = h !! l'.
Proof.
  intros Hne. destruct m as [k v|k]; cbn [mutate].
  - by apply Map_set_other.
  - unfold bind at 1. pose proof (Map_delete_other h l l' k Hne) as Hdel.
    by destruct (Map_delete l k h) as [[b| |] h1].
Qed.

Lemma mutations_other (h : heap) l l' (ms : list mutation) :
  l <> l' -> (for_of_array ms (mutate l) h).2 !! l' = h !! l'.
Proof.
  intros Hne. revert h. induction ms as [|m ms IH]; intros h; [done|].
  cbn [for_of_array]. unfold bind.
  pose proof (mutate_other h l l' m Hne) as Hm.
  destruct (mutate l m h) as [[[]| |] h1]; cbn [snd] in *; [|done..].
  by rewrite IH.
Qed.

(** C3: [clone] returns a new Store of the same size whose pairs are those
    of the receiver in the same order, and no sequence of [set] and [delete]
    on the clone changes the receiver. *)
Theorem C3_clone (fuel : nat) (h : heap) (C : loc) (d : MapData) :
  h !! C = Some d -> wf_data d -> (length d < fuel)%nat ->
  exists (l : loc) (h' : heap),
    clone fuel C h = (Ok l, h') /\
    (l ∉ dom h) /\
    Map_size l h' = Map_size C h' /\
    contents h' l = contents h C /\
    h' !! C = Some d /\
    forall ms : list mutation, (for_of_array ms (mutate l) h').2 !! C = Some d.
Proof.
  intros Hd Hwf Hfuel. pose proof (fresh_ne h C d Hd) as Hne.
  exists (fresh (dom h)), (<[fresh (dom h) := Some <$> entries d]> h).
  assert (HC : (<[fresh (dom h) := Some <$> entries d]> h) !! C = Some d)
    by (by rewrite lookup_insert_ne).
  split; [by apply clone_run|]. split; [apply is_fresh|]. split.
  - rewrite (Map_size_lookup _ _ (Some <$> entries d))
      by (by rewrite lookup_insert_eq).
    rewrite (Map_size_lookup _ C d) by done.
    unfold data_size. by rewrite entries_Some.
  - split; [|split; [done|]].
    + by rewrite contents_insert_eq, (contents_lookup h C d).
    + intros ms. by rewrite mutations_other.
Qed.

Lemma C3_clone_witness :
  exists (l : loc) (h' : heap),
    clone 4 1%positive abc_heap = (Ok l, h') /\
    (l ∉ dom abc_heap) /\
    Map_size l h' = Map_size 1%positive h' /\
    contents h' l = contents abc_heap 1%positive /\
    h' !! 1%positive = Some abc_data /\
    forall ms : list mutation,
      (for_of_array ms (mutate l) h').2 !! 1%positive = Some abc_data.
Proof.
  apply (C3_clone 4 abc_heap 1%positive abc_data eq_refl abc_wf).
  cbn. lia.
Defined.

(** ** concat *)

Lemma first_pair_lookup (h : heap) s d kv rest :
  h !! s = Some d -> entries d = kv :: rest -> first_pair s h = (Ok kv, h).
Proof. intros Hd He. unfold first_pair. mrun. by rewrite He. Qed.

Lemma concat_run (fuel : nat) (h : heap) (A B : loc) (dA dB : MapData) k v rest :
  h !! A = Some dA -> h !! B = Some dB -> wf_data dA ->
  entries dB = (k, v) :: rest -> (length dA < fuel)%nat ->
  concat fuel A [B] h
  = (Ok (fresh (dom h)),
     <[fresh (dom h) := data_set k v (Some <$> entries dA)]> h).
Proof.
  intros HA HB Hwf He Hfuel. unfold concat.
  rewrite (bind_ok _ _ _ _ _ (clone_run fuel h A dA HA Hwf Hfuel)).
  set (l := fresh (dom h)). set (h1 := <[l := Some <$> entries dA]> h).
  assert (HB1 : h1 !! B = Some dB).
  { unfold h1. rewrite lookup_insert_ne; [done|]. by eapply fresh_ne. }
  cbn [for_of_array].
  rewrite (bind_ok _ _ h1 (<[l := data_set k v (Some <$> entries dA)]> h1) tt).
  - unfold h1. by rewrite insert_insert_eq.
  - rewrite (bind_ok _ _ h1 (<[l := data_set k v (Some <$> entries dA)]> h1) tt);
      [done|].
    rewrite (bind_ok _ _ _ _ _ (first_pair_lookup h1 B dB _ _ HB1 He)).
    apply Map_set_lookup. unfold h1. by rewrite lookup_insert_eq.
Qed.

(** C1: for a Store A and a Store B that is not empty, [A.concat(B)] returns
    a new Store: the clone of A after [set(k, v)] for the first pair [(k, v)]
    of B and nothing else, so that a later pair of B is in the result only
    when A has it. For A = [[("x",1)]] and B = [[("y",2), ("z",3)]] the
    result is [[("x",1), ("y",2)]]. *)
Theorem C1_concat :
  (forall (fuel : nat) (h : heap) (A B : loc) (dA dB : MapData) k v rest,
     h !! A = Some dA -> h !! B = Some dB -> wf_data dA -> wf_data dB ->
     entries dB = (k, v) :: rest -> (length dA < fuel)%nat ->
     exists (l : loc) (h' : heap),
       concat fuel A [B] h = (Ok l, h') /\
       (l ∉ dom h) /\
       h' = <[l := data_set k v (Some <$> entries dA)]> h /\
       contents h' l =
         (if decide (k ∈ keys dA)
          then (fun kv => if decide (kv.1 = k) then (k, v) else kv) <$> entries dA
          else entries dA ++ [(k, v)]) /\
       (forall kv, kv ∈ rest -> kv ∈ contents h' l -> kv ∈ entries dA)) /\
  concat 2 1%positive [2%positive] xy_heap
  = (Ok 3%positive,
     <[ 3%positive := [Some (AString "x", num 1); Some (AString "y", num 2)] ]>
       xy_heap).
Proof.
  split; [|by vm_compute].
  intros fuel h A B dA dB k v rest HA HB HwfA HwfB He Hfuel.
  exists (fresh (dom h)), (<[fresh (dom h) := data_set k v (Some <$> entries dA)]> h).
  split; [by eapply concat_run|]. split; [apply is_fresh|]. split; [done|].
  assert (Hcont : contents (<[fresh (dom h) := data_set k v (Some <$> entries dA)]> h)
                    (fresh (dom h)) =
         (if decide (k ∈ keys dA)
          then (fun kv => if decide (kv.1 = k) then (k, v) else kv) <$> entries dA
          else entries dA ++ [(k, v)])).
  { unfold contents. rewrite lookup_insert_eq.
    assert (Hwf' : wf_data (Some <$> entries dA))
      by (unfold wf_data, keys; by rewrite entries_Some).
    destruct (decide (k ∈ keys dA)) as [Hin|Hnin].
    - rewrite entries_data_set_old; [by rewrite entries_Some|done|].
      unfold keys. by rewrite entries_Some.
    - rewrite entries_data_set_new; [by rewrite entries_Some|].
      unfold keys. by rewrite entries_Some. }
  split; [done|]. rewrite Hcont. intros [k' v'] Hrest Hres.
  assert (Hk' : k' <> k).
  { unfold wf_data, keys in HwfB. rewrite He, fmap_cons in HwfB.
    apply NoDup_cons in HwfB as [Hnotin _]. intros ->. apply Hnotin.
    apply list_elem_of_fmap. by exists (k, v'). }
  destruct (decide (k ∈ keys dA)).
  - apply list_elem_of_fmap in Hres as ([k1 v1] & Heq & Hin).
    cbn [fst] in Heq. destruct (decide (k1 = k)); congruence.
  - apply elem_of_app in Hres as [Hin|Hin]; [done|].
    apply list_elem_of_singleton in Hin. congruence.
Qed.

Lemma C1_concat_witness :
  exists (l : loc) (h' : heap),
    concat 2 1%positive [2%positive] xy_heap = (Ok l, h') /\
    contents h' l = [(AString "x", num 1); (AString "y", num 2)].
Proof.
  destruct C1_concat as [Hgen _].
  destruct (Hgen 2%nat xy_heap 1%positive 2%positive
              [Some (AString "x", num 1)]
              [Some (AString "y", num 2); Some (AString "z", num 3)]
              (AString "y") (num 2) [(AString "z", num 3)]
              eq_refl eq_refl) as (l & h' & Hrun & _ & _ & Hcont & _).
  - apply (bool_decide_unpack _). vm_compute. exact I.
  - apply (bool_decide_unpack _). vm_compute. exact I.
  - reflexivity.
  - cbn. lia.
  - exists l, h'. split; [exact Hrun|]. rewrite Hcont. reflexivity.
Defined.

(** ** flat on a Store without array values *)

Lemma number_ge_not_lt (n m : number) : number_ge n m = true -> number_lt n m = false.
Proof.
  unfold number_ge. destruct n, m; try done; by intros ?%negb_true_iff.
Qed.

Lemma existsb_isArray_false (es : list (atom * jsval)) :
  Forall (fun kv => isArray kv.2 = false) es -> existsb isArray es.*2 = false.
Proof.
  induction 1 as [|kv es Hkv _ IH]; [done|].
  rewrite fmap_cons. cbn [existsb]. by rewrite Hkv, IH.
Qed.

(** C10: on a Store none of whose values is an array, [flat(strength)] with
    [strength >= 1] returns a new Store with the pairs of the receiver in the
    same order, and the receiver is as before. *)
Theorem C10_flat_no_array (E : env) (fuel : nat) (h : heap) (C : loc)
    (d : MapData) (strength : number) :
  h !! C = Some d -> wf_data d -> (length d < fuel)%nat ->
  Forall (fun kv => isArray kv.2 = false) (entries d) ->
  number_ge strength (Int 1) = true ->
  exists (l : loc) (h' : heap),
    flat E fuel C (Some strength) h = (Ok l, h') /\
    (l ∉ dom h) /\
    contents h' l = contents h C /\
    h' = <[l := Some <$> entries d]> h /\
    h' !! C = Some d.
Proof.
  intros Hd Hwf Hfuel Hvals Hge.
  pose proof (fresh_ne h C d Hd) as Hne.
  exists (fresh (dom h)), (<[fresh (dom h) := Some <$> entries d]> h).
  assert (HC : (<[fresh (dom h) := Some <$> entries d]> h) !! C = Some d)
    by (by rewrite lookup_insert_ne).
  split.
  - unfold flat. cbv zeta. cbn [default from_option]. unfold id.
    rewrite (number_ge_not_lt _ _ Hge).
    rewrite (bind_ok _ _ _ _ _ (clone_run fuel h C d Hd Hwf Hfuel)).
    mrun. by rewrite existsb_isArray_false.
  - split; [apply is_fresh|]. split; [|done].
    by rewrite contents_insert_eq, (contents_lookup h C d).
Qed.

Lemma C10_flat_no_array_witness :
  exists (l : loc) (h' : heap),
    flat modern 4 1%positive (Some PosInfinity) abc_heap = (Ok l, h') /\
    (l ∉ dom abc_heap) /\
    contents h' l = contents abc_heap 1%positive /\
    h' = <[l := Some <$> entries abc_data]> abc_heap /\
    h' !! 1%positive = Some abc_data.
Proof.
  apply (C10_flat_no_array _ 4 abc_heap 1%positive abc_data PosInfinity
           eq_refl abc_wf).
  - cbn. lia.
  - repeat constructor.
  - reflexivity.
Defined.

(** ** filter and split with a predicate that is a function of its arguments *)

Lemma call_entry_bind (f : func) (thisArg : jsval) C v k i :
  call_entry (bind_if_given f thisArg) C v k i
  = f thisArg [v; JAtom k; num i; JAtom (AObject C)].
Proof. by destruct thisArg as [[| | | | |]|]. Qed.

Lemma Store_new_empty (fuel : nat) (h : heap) :
  Store_new fuel NoIterable h = (Ok (fresh (dom h)), <[fresh (dom h) := []]> h).
Proof. done. Qed.

Lemma NoDup_keys_snoc (acc es : list (atom * jsval)) kv :
  NoDup (acc ++ kv :: es).*1 ->
  (kv.1 ∉ acc.*1) /\ NoDup ((acc ++ [kv]) ++ es).*1 /\ NoDup (acc ++ es).*1.
Proof.
  intros Hnd. split; [|split].
  - rewrite fmap_app, fmap_cons in Hnd. apply NoDup_app in Hnd as (_ & Hd & _).
    intros Hin. apply (Hd _ Hin). by left.
  - by rewrite <- app_assoc.
  - rewrite fmap_app, fmap_cons in Hnd. rewrite fmap_app.
    apply NoDup_app in Hnd as (Ha & Hd & He). apply NoDup_cons in He as [_ He].
    apply NoDup_app. split; [done|]. split; [|done].
    intros x Hx Hx'. apply (Hd x Hx). by right.
Qed.

Section pure_predicate.
Variable f : func.
Variable g : jsval -> list jsval -> option MapData -> jsval.
Variable C : loc.
Variable d : MapData.
Variable thisArg : jsval.
Hypothesis Hpure : forall t args h, f t args h = (Ok (g t args (h !! C)), h).

#[local] Abbreviation p := (verdict g thisArg C d).

Lemma call_entry_pure (h : heap) v k i :
  h !! C = Some d ->
  call_entry (bind_if_given f thisArg) C v k i h
  = (Ok (g thisArg [v; JAtom k; num i; JAtom (AObject C)] (Some d)), h).
Proof. intros HC. by rewrite call_entry_bind, Hpure, HC. Qed.

Lemma fold_filter (lf : loc) (es acc : list (atom * jsval)) (i : Z) (h : heap) :
  lf <> C -> h !! C = Some d -> h !! lf = Some (Some <$> acc) ->
  NoDup (acc ++ es).*1 ->
  fold_entries (fun index key value =>
      r <- call_entry (bind_if_given f thisArg) C value key index ;;
      (if truthy r then Map_set lf key value else ret tt) ;;
      ret (index + 1)) es i h
  = (Ok (i + Z.of_nat (length es)),
     <[lf := Some <$> (acc ++ select p true es i)]> h).
Proof.
  intros Hne. revert acc i h.
  induction es as [|[k v] es' IH]; intros acc i h HC Hlf Hnd.
  - cbn [fold_entries select length]. rewrite app_nil_r, ret_run.
    rewrite insert_id by done. f_equal; first [done | f_equal; lia].
  - apply NoDup_keys_snoc in Hnd as (Hk & Hnd1 & Hnd2).
    cbn [fold_entries select fst snd length].
    rewrite (bind_ok (bind _ _) _ h
               (if p v k i then <[lf := Some <$> (acc ++ [(k, v)])]> h else h)
               (i + 1)).
    + destruct (p v k i) eqn:Hp; cbn [Bool.eqb].
      * rewrite (IH (acc ++ [(k, v)])).
        -- rewrite insert_insert_eq, <- app_assoc.
           f_equal; first [done | f_equal; lia].
        -- by rewrite lookup_insert_ne.
        -- by rewrite lookup_insert_eq.
        -- done.
      * rewrite (IH acc) by done. f_equal; first [done | f_equal; lia].
    + rewrite (bind_ok _ _ _ _ _ (call_entry_pure h v k i HC)).
      fold (verdict g thisArg C d v k i).
      destruct (p v k i).
      * rewrite (bind_ok _ _ _ _ _ (Map_set_lookup h lf _ k v Hlf)).
        by rewrite data_set_Some_new.
      * done.
Qed.

Lemma fold_split (l1 l2 : loc) (es acc1 acc2 : list (atom * jsval)) (i : Z)
    (h : heap) :
  l1 <> C -> l2 <> C -> l1 <> l2 -> h !! C = Some d ->
  h !! l1 = Some (Some <$> acc1) -> h !! l2 = Some (Some <$> acc2) ->
  NoDup (acc1 ++ es).*1 -> NoDup (acc2 ++ es).*1 ->
  fold_entries (fun index key value =>
      r <- call_entry (bind_if_given f thisArg) C value key index ;;
      (if truthy r then Map_set l1 key value else Map_set l2 key value) ;;
      ret (index + 1)) es i h
  = (Ok (i + Z.of_nat (length es)),
     <[l2 := Some <$> (acc2 ++ select p false es i)]>
       (<[l1 := Some <$> (acc1 ++ select p true es i)]> h)).
Proof.
  intros Hne1 Hne2 Hne. revert acc1 acc2 i h.
  induction es as [|[k v] es' IH]; intros acc1 acc2 i h HC Hl1 Hl2 Hnd1 Hnd2.
  - cbn [fold_entries select length]. rewrite !app_nil_r, ret_run.
    rewrite (insert_id h l1) by done. rewrite insert_id by done.
    f_equal; first [done | f_equal; lia].
  - apply NoDup_keys_snoc in Hnd1 as (Hk1 & Hnd1 & Hnd1').
    apply NoDup_keys_snoc in Hnd2 as (Hk2 & Hnd2 & Hnd2').
    cbn [fold_entries select fst snd length].
    rewrite (bind_ok (bind _ _) _ h
               (if p v k i then <[l1 := Some <$> (acc1 ++ [(k, v)])]> h
                else <[l2 := Some <$> (acc2 ++ [(k, v)])]> h)
               (i + 1)).
    + destruct (p v k i) eqn:Hp; cbn [Bool.eqb].
      * rewrite (IH (acc1 ++ [(k, v)]) acc2).
        -- rewrite insert_insert_eq, <- app_assoc.
           f_equal; first [done | f_equal; lia].
        -- by rewrite lookup_insert_ne.
        -- by rewrite lookup_insert_eq.
        -- by rewrite lookup_insert_ne.
        -- done.
        -- done.
      * rewrite (IH acc1 (acc2 ++ [(k, v)])).
        -- rewrite (insert_insert_ne _ l1 l2) by done.
           rewrite insert_insert_eq, <- app_assoc.
           f_equal; first [done | f_equal; lia].
        -- by rewrite lookup_insert_ne.
        -- by rewrite lookup_insert_ne.
        -- by rewrite lookup_insert_eq.
        -- done.
        -- done.
    + rewrite (bind_ok _ _ _ _ _ (call_entry_pure h v k i HC)).
      fold (verdict g thisArg C d v k i).
      destruct (p v k i).
      * rewrite (bind_ok _ _ _ _ _ (Map_set_lookup h l1 _ k v Hl1)).
        by rewrite data_set_Some_new.
      * rewrite (bind_ok _ _ _ _ _ (Map_set_lookup h l2 _ k v Hl2)).
        by rewrite data_set_Some_new.
Qed.
End pure_predicate.

Lemma filter_pure_run (f : func) g (C : loc) (d : MapData) (thisArg : jsval)
    (fuel : nat) (h : heap) :
  (forall t args h, f t args h = (Ok (g t args (h !! C)), h)) ->
  h !! C = Some d -> wf_data d -> (length d < fuel)%nat ->
  filter fuel C (Callable f) thisArg h
  = (Ok (fresh (dom h)),
     <[fresh (dom h) := Some <$> select (verdict g thisArg C d) true (entries d) 0]> h).
Proof.
  intros Hpure HC Hwf Hfuel. pose proof (fresh_ne h C d HC) as Hne.
  unfold filter. cbv zeta.
  rewrite (bind_ok _ _ _ _ _ (Store_new_empty fuel h)).
  set (lf := fresh (dom h)) in *.
  erewrite bind_ok; [by rewrite ret_run|].
  rewrite (for_of_map_fold (fun h' => h' !! C = Some d) C d).
  - rewrite drop_0.
    rewrite (fold_filter f g C d thisArg Hpure lf (entries d) [] 0 _ Hne).
    + by rewrite insert_insert_eq.
    + by rewrite lookup_insert_ne.
    + by rewrite lookup_insert_eq.
    + done.
  - done.
  - intros acc k v h' Hh'.
    rewrite (bind_ok _ _ _ _ _ (call_entry_pure f g C d thisArg Hpure h' v k acc Hh')).
    apply (bind_snd (fun h => h !! C = Some d)); [|done].
    destruct (truthy _); [|done]. by rewrite Map_set_other.
  - by rewrite lookup_insert_ne.
  - lia.
Qed.

Lemma split_pure_run (f : func) g (C : loc) (d : MapData) (thisArg : jsval)
    (fuel : nat) (h : heap) :
  (forall t args h, f t args h = (Ok (g t args (h !! C)), h)) ->
  h !! C = Some d -> wf_data d -> (length d < fuel)%nat ->
  let l1 := fresh (dom h) in
  let l2 := fresh (dom (<[l1 := []]> h)) in
  split fuel C (Callable f) thisArg h
  = (Ok (l1, l2),
     <[l2 := Some <$> select (verdict g thisArg C d) false (entries d) 0]>
       (<[l1 := Some <$> select (verdict g thisArg C d) true (entries d) 0]> h)).
Proof.
  intros Hpure HC Hwf Hfuel l1 l2. pose proof (fresh_ne h C d HC) as Hne1.
  fold l1 in Hne1.
  assert (HC1 : (<[l1 := []]> h) !! C = Some d) by (by rewrite lookup_insert_ne).
  pose proof (fresh_ne _ C d HC1) as Hne2. fold l2 in Hne2.
  assert (Hne : l1 <> l2).
  { intros Heq. apply (is_fresh (dom (<[l1 := []]> h))). fold l2. rewrite <- Heq.
    apply elem_of_dom. by rewrite lookup_insert_eq. }
  unfold split. cbv zeta.
  rewrite (bind_ok _ _ _ _ _ (Store_new_empty fuel h)). fold l1.
  rewrite (bind_ok _ _ _ _ _ (Store_new_empty fuel _)). fold l2.
  erewrite bind_ok; [by rewrite ret_run|].
  rewrite (for_of_map_fold (fun h' => h' !! C = Some d) C d).
  - rewrite drop_0.
    rewrite (fold_split f g C d thisArg Hpure l1 l2 (entries d) [] [] 0 _
               Hne1 Hne2 Hne).
    + f_equal.
      rewrite (insert_insert_ne _ l1 l2) by done.
      by rewrite !insert_insert_eq.
    + by rewrite !lookup_insert_ne.
    + rewrite lookup_insert_ne by done. by rewrite lookup_insert_eq.
    + by rewrite lookup_insert_eq.
    + done.
    + done.
  - done.
  - intros acc k v h' Hh'.
    rewrite (bind_ok _ _ _ _ _ (call_entry_pure f g C d thisArg Hpure h' v k acc Hh')).
    apply (bind_snd (fun h => h !! C = Some d)); [|done].
    destruct (truthy _); by rewrite Map_set_other.
  - by rewrite !lookup_insert_ne.
  - lia.
Qed.

Lemma select_length p (es : list (atom * jsval)) (i : Z) :
  (length (select p true es i) + length (select p false es i))%nat = length es.
Proof.
  revert i. induction es as [|kv es IH]; intros i; [done|].
  cbn [select]. specialize (IH (i + 1)).
  destruct (p kv.2 kv.1 i); cbn [Bool.eqb length]; lia.
Qed.

(** [filter] and then [split] with the same function of its arguments:
    [filter] adds one new Store to the heap, [split] two more, and nothing
    else changes. *)
Lemma filter_then_split (fuel : nat) (h : heap) (C : loc) (d : MapData)
    (f : func) (thisArg : jsval) :
  h !! C = Some d -> wf_data d -> (length d < fuel)%nat -> pure_on C f ->
  exists (p : jsval -> atom -> Z -> bool) (lf l1 l2 : loc),
    let df := Some <$> select p true (entries d) 0 in
    let d2 := Some <$> select p false (entries d) 0 in
    let h1 := <[lf := df]> h in
    let h2 := <[l2 := d2]> (<[l1 := df]> h1) in
    filter fuel C (Callable f) thisArg h = (Ok lf, h1) /\
    split fuel C (Callable f) thisArg h1 = (Ok (l1, l2), h2) /\
    (lf ∉ dom h) /\ (l1 ∉ dom h1) /\ (l2 ∉ dom h1) /\ l1 <> l2 /\
    h2 !! lf = Some df /\ h2 !! l1 = Some df /\ h2 !! l2 = Some d2 /\
    h2 !! C = Some d.
Proof.
  intros HC Hwf Hfuel [g Hg].
  set (p := verdict g thisArg C d).
  set (lf := fresh (dom h)).
  set (h1 := <[lf := Some <$> select p true (entries d) 0]> h).
  set (l1 := fresh (dom h1)).
  set (l2 := fresh (dom (<[l1 := []]> h1))).
  assert (HlfC : lf <> C) by (by eapply fresh_ne).
  assert (HC1 : h1 !! C = Some d) by (unfold h1; by rewrite lookup_insert_ne).
  assert (Hlf1 : h1 !! lf = Some (Some <$> select p true (entries d) 0))
    by (unfold h1; by rewrite lookup_insert_eq).
  assert (Hl1C : l1 <> C) by (by eapply fresh_ne).
  assert (Hl1lf : l1 <> lf) by (by eapply fresh_ne).
  assert (Hl2C : l2 <> C).
  { eapply (fresh_ne _ C d). by rewrite lookup_insert_ne. }
  assert (Hl2lf : l2 <> lf).
  { eapply (fresh_ne _ lf). by rewrite lookup_insert_ne. }
  assert (Hl2l1 : l2 <> l1).
  { eapply (fresh_ne _ l1 []). by rewrite lookup_insert_eq. }
  assert (Hl2 : l2 ∉ dom h1).
  { pose proof (is_fresh (dom (<[l1 := []]> h1))) as Hfresh. fold l2 in Hfresh.
    intros Hin. apply Hfresh. rewrite dom_insert_L. by apply elem_of_union_r. }
  exists p, lf, l1, l2. cbv zeta. fold h1.
  split; [by apply filter_pure_run|].
  split; [by apply (split_pure_run f g C d thisArg fuel h1)|].
  split; [apply is_fresh|]. split; [apply is_fresh|]. split; [done|].
  split; [done|].
  rewrite lookup_insert_eq.
  rewrite !(lookup_insert_ne _ l2) by done.
  rewrite lookup_insert_eq.
  rewrite !(lookup_insert_ne _ l1) by done.
  by rewrite Hlf1, HC1.
Qed.

(** C9 (amended): for a predicate that is a function of its arguments,
    [filter] returns a new Store, [split] then returns two Stores that are
    new as well, and the Store [filter] returned and the first Store of
    [split] hold the same pairs in the same order; nothing else in the heap
    changes. *)
Theorem C9_filter_equals_split_first (fuel : nat) (h : heap) (C : loc)
    (d : MapData) (f : func) (thisArg : jsval) :
  h !! C = Some d -> wf_data d -> (length d < fuel)%nat -> pure_on C f ->
  exists (lf l1 l2 : loc) (df d1 d2 : MapData),
    let h1 := <[lf := df]> h in
    let h2 := <[l2 := d2]> (<[l1 := d1]> h1) in
    filter fuel C (Callable f) thisArg h = (Ok lf, h1) /\
    (lf ∉ dom h) /\
    split fuel C (Callable f) thisArg h1 = (Ok (l1, l2), h2) /\
    (l1 ∉ dom h1) /\ (l2 ∉ dom h1) /\ l1 <> l2 /\
    contents h1 lf = entries df /\
    contents h2 lf = entries df /\
    contents h2 l1 = entries d1 /\
    entries df = entries d1.
Proof.
  intros HC Hwf Hfuel Hpure.
  destruct (filter_then_split fuel h C d f thisArg HC Hwf Hfuel Hpure)
    as (p & lf & l1 & l2 & Hf & Hs & Hlf & Hl1 & Hl2 & Hne & H2f & H21 & _ & _).
  cbv zeta in *.
  exists lf, l1, l2, (Some <$> select p true (entries d) 0),
    (Some <$> select p true (entries d) 0),
    (Some <$> select p false (entries d) 0).
  cbv zeta. split; [done|]. split; [done|]. split; [done|].
  split; [done|]. split; [done|]. split; [done|].
  unfold contents. rewrite H2f, H21, lookup_insert_eq. done.
Qed.

Lemma greater_than_1_pure (C : loc) : pure_on C greater_than_1.
Proof.
  exists (fun _ args _ =>
            match args with
            | JAtom (ANumber n) :: _ => JAtom (ABool (number_gt n (Int 1)))
            | _ => JAtom (ABool false)
            end).
  intros t args h. unfold greater_than_1.
  by destruct args as [|[[| | |n| |]|] args].
Qed.

Lemma C9_filter_equals_split_first_witness :
  exists (lf l1 l2 : loc) (df d1 d2 : MapData),
    let h1 := <[lf := df]> abc_heap in
    let h2 := <[l2 := d2]> (<[l1 := d1]> h1) in
    filter 4 1%positive (Callable greater_than_1) undefined abc_heap = (Ok lf, h1) /\
    (lf ∉ dom abc_heap) /\
    split 4 1%positive (Callable greater_than_1) undefined h1 = (Ok (l1, l2), h2) /\
    (l1 ∉ dom h1) /\ (l2 ∉ dom h1) /\ l1 <> l2 /\
    contents h1 lf = entries df /\
    contents h2 lf = entries df /\
    contents h2 l1 = entries d1 /\
    entries df = entries d1.
Proof.
  apply (C9_filter_equals_split_first 4 abc_heap 1%positive abc_data
           greater_than_1 undefined eq_refl abc_wf).
  - cbn. lia.
  - apply greater_than_1_pure.
Defined.

(** C9 as stated fails for a predicate that returns [true] whatever its
    arguments are and deletes the key it is given from the Store it is
    given: on C = [[("a",1), ("b",2), ("c",3)]], [filter(P)] holds the three
    pairs and leaves C without pairs, so the first Store of [split(P)] is
    empty. *)
Lemma C9_counterexample_deleting :
  (forall t v k i s h, is_Some (h !! s) ->
     (delete_and_keep t [v; JAtom k; i; JAtom (AObject s)] h).1
     = Ok (JAtom (ABool true))) /\
  (pairs_with_delete abc_heap).1
  = Ok ([AString "a"; AString "b"; AString "c"], [num 1; num 2; num 3], ([], [])) /\
  [AString "a"; AString "b"; AString "c"] <> ([] : list atom).
Proof.
  split; [|split; [by vm_compute|done]].
  intros t v k i s h [ds Hs]. unfold delete_and_keep, Map_delete, bind.
  by rewrite (this_data_lookup h s ds Hs).
Qed.

(** C2 (amended): for a predicate that is a function of its arguments,
    [filter] returns a new Store and [split] then two Stores that are new as
    well; the size of [filter(P)] plus the size of the second Store of
    [split(P)] is the size of the Store, and every pair of [filter(P)] is in
    the first Store of [split(P)]. Nothing else in the heap changes. *)
Theorem C2_filter_split_sizes (fuel : nat) (h : heap) (C : loc)
    (d : MapData) (f : func) (thisArg : jsval) :
  h !! C = Some d -> wf_data d -> (length d < fuel)%nat -> pure_on C f ->
  exists (lf l1 l2 : loc) (df d1 d2 : MapData) (a b c : Z),
    let h1 := <[lf := df]> h in
    let h2 := <[l2 := d2]> (<[l1 := d1]> h1) in
    filter fuel C (Callable f) thisArg h = (Ok lf, h1) /\
    (lf ∉ dom h) /\
    Map_size lf h1 = (Ok a, h1) /\
    split fuel C (Callable f) thisArg h1 = (Ok (l1, l2), h2) /\
    (l1 ∉ dom h1) /\ (l2 ∉ dom h1) /\ l1 <> l2 /\
    Map_size lf h2 = (Ok a, h2) /\
    Map_size l2 h2 = (Ok b, h2) /\
    Map_size C h2 = (Ok c, h2) /\
    Map_size C h = (Ok c, h) /\
    a + b = c /\
    contents h2 lf = entries df /\
    contents h2 l1 = entries d1 /\
    forall kv, kv ∈ entries df -> kv ∈ entries d1.
Proof.
  intros HC Hwf Hfuel Hpure.
  destruct (filter_then_split fuel h C d f thisArg HC Hwf Hfuel Hpure)
    as (p & lf & l1 & l2 & Hf & Hs & Hlf & Hl1 & Hl2 & Hne & H2f & H21 & H22
        & H2C).
  cbv zeta in *.
  exists lf, l1, l2, (Some <$> select p true (entries d) 0),
    (Some <$> select p true (entries d) 0),
    (Some <$> select p false (entries d) 0).
  exists (data_size (Some <$> select p true (entries d) 0)),
    (data_size (Some <$> select p false (entries d) 0)), (data_size d).
  cbv zeta. split; [done|]. split; [done|].
  split; [apply Map_size_lookup, lookup_insert_eq|].
  split; [done|]. split; [done|]. split; [done|]. split; [done|].
  split; [by apply Map_size_lookup|].
  split; [by apply Map_size_lookup|].
  split; [by apply Map_size_lookup|].
  split; [by apply Map_size_lookup|].
  split.
  - unfold data_size. rewrite !entries_Some.
    pose proof (select_length p (entries d) 0). lia.
  - unfold contents. by rewrite H2f, H21.
Qed.

Lemma C2_filter_split_sizes_witness :
  exists (lf l1 l2 : loc) (df d1 d2 : MapData) (a b c : Z),
    let h1 := <[lf := df]> abc_heap in
    let h2 := <[l2 := d2]> (<[l1 := d1]> h1) in
    filter 4 1%positive (Callable greater_than_1) undefined abc_heap = (Ok lf, h1) /\
    (lf ∉ dom abc_heap) /\
    Map_size lf h1 = (Ok a, h1) /\
    split 4 1%positive (Callable greater_than_1) undefined h1 = (Ok (l1, l2), h2) /\
    (l1 ∉ dom h1) /\ (l2 ∉ dom h1) /\ l1 <> l2 /\
    Map_size lf h2 = (Ok a, h2) /\
    Map_size l2 h2 = (Ok b, h2) /\
    Map_size 1%positive h2 = (Ok c, h2) /\
    Map_size 1%positive abc_heap = (Ok c, abc_heap) /\
    a + b = c /\
    contents h2 lf = entries df /\
    contents h2 l1 = entries d1 /\
    forall kv, kv ∈ entries df -> kv ∈ entries d1.
Proof.
  apply (C2_filter_split_sizes 4 abc_heap 1%positive abc_data
           greater_than_1 undefined eq_refl abc_wf).
  - cbn. lia.
  - apply greater_than_1_pure.
Defined.

(** C2 as stated fails for a predicate with a memory: on C = [[("a",1)]],
    [first_time] is true of "a" in [filter] and false in [split], so both
    [filter(P)] and the second Store of [split(P)] have size 1, as C has, and
    the pair of [filter(P)] is not in the first Store of [split(P)]. *)
Lemma C2_counterexample_stateful :
  (sizes_with_first_time seen_heap).1 = Ok (1, 1, 1, true, false) /\
  1 + 1 <> 1.
Proof. split; [by vm_compute|lia]. Qed.

(** ** Rules for [hoare] *)

Section hoare_rules.
Context {A B : Type}.
Implicit Types (P : heap -> Prop) (E : error -> heap -> Prop) (D : heap -> Prop).

Lemma hoare_ret P (a : A) (Q : A -> heap -> Prop) E D :
  (forall h, P h -> Q a h) -> hoare P (ret a) Q E D.
Proof. intros HQ h HP. by apply HQ. Qed.


Lemma hoare_bind P (m : M A) (f : A -> M B) (R : A -> heap -> Prop)
    (Q : B -> heap -> Prop) E D :
  hoare P m R E D -> (forall a, hoare (R a) (f a) Q E D) ->
  hoare P (bind m f) Q E D.
Proof.
  intros Hm Hf h HP. specialize (Hm h HP). unfold bind.
  destruct (m h) as [[a| |] h']; [|done..]. by apply Hf.
Qed.

Lemma hoare_pre P P' (m : M A) (Q : A -> heap -> Prop) E D :
  (forall h, P' h -> P h) -> hoare P m Q E D -> hoare P' m Q E D.
Proof. intros HPP Hm h HP. apply Hm. by apply HPP. Qed.

Lemma hoare_post P (m : M A) (Q Q' : A -> heap -> Prop) E D :
  hoare P m Q E D -> (forall a h, Q a h -> Q' a h) -> hoare P m Q' E D.
Proof.
  intros Hm HQ h HP. specialize (Hm h HP).
  destruct (m h) as [[a| |] h']; [|done..]. by apply HQ.
Qed.

Lemma hoare_pure (phi : Prop) P (m : M A) (Q : A -> heap -> Prop) E D :
  (phi -> hoare P m Q E D) -> hoare (fun h => P h /\ phi) m Q E D.
Proof. intros Hm h [HP Hphi]. by apply Hm. Qed.
End hoare_rules.

Lemma hoare_this_data (l : loc) P E D :
  (forall h, P h -> h !! l = None -> E (TypeError "incompatible receiver") h) ->
  hoare P (this_data l) (fun d h => P h /\ h !! l = Some d) E D.
Proof.
  intros HE h HP. unfold this_data. specialize (HE h HP).
  destruct (h !! l) eqn:Hl; [done|]. by apply HE.
Qed.

Lemma hoare_Map_set (l : loc) k v P (Q : unit -> heap -> Prop) E D :
  (forall h, P h -> h !! l = None -> E (TypeError "incompatible receiver") h) ->
  (forall h d, P h -> h !! l = Some d -> Q tt (<[l := data_set k v d]> h)) ->
  hoare P (Map_set l k v) Q E D.
Proof.
  intros HE HQ h HP. unfold Map_set, bind, this_data, put_data.
  specialize (HE h HP). specialize (HQ h).
  destruct (h !! l) eqn:Hl; [by apply HQ|by apply HE].
Qed.

Lemma hoare_Store_new_empty (fuel : nat) P (Q : loc -> heap -> Prop) E D :
  (forall h, P h -> Q (fresh (dom h)) (<[fresh (dom h) := []]> h)) ->
  hoare P (Store_new fuel NoIterable) Q E D.
Proof. intros HQ h HP. rewrite Store_new_empty. by apply HQ. Qed.

Lemma hoare_for_of_array {A} (xs : list A) (body : A -> M unit) P E D :
  (forall x, hoare P (body x) (fun _ => P) E D) ->
  hoare P (for_of_array xs body) (fun _ => P) E D.
Proof.
  intros Hbody. induction xs as [|x xs IH]; cbn [for_of_array].
  - by apply hoare_ret.
  - eapply hoare_bind; [apply Hbody|]. intros ?. apply IH.
Qed.

Lemma hoare_for_of_map {S} (I : S -> heap -> Prop) E D (fuel : nat) (map : loc)
    (body : S -> atom -> jsval -> M S) :
  (forall acc h, I acc h -> h !! map = None ->
     E (TypeError "incompatible receiver") h) ->
  (forall acc h, I acc h -> D h) ->
  (forall acc k v, hoare (I acc) (body acc k v) I E D) ->
  forall i acc, hoare (I acc) (for_of_map fuel map body i acc) I E D.
Proof.
  intros HE HD Hbody. induction fuel as [|fuel IH]; intros i acc.
  - intros h HI. cbn. by eapply HD.
  - cbn [for_of_map]. eapply hoare_bind.
    + apply hoare_this_data. intros h. apply HE.
    + intros d0. destruct (d0 !! i) as [[[k v]|]|].
      * eapply hoare_bind.
        -- eapply hoare_pre; [|apply Hbody]. by intros h [HI _].
        -- intros acc'. apply IH.
      * eapply hoare_pre; [|apply IH]. by intros h [HI _].
      * apply hoare_ret. by intros h [HI _].
Qed.

(** ** filter, map and split leave the receiver as it is *)

Section frame.
Variable C : loc.
Variable d : MapData.
Variable f : func.
Variable thisArg : jsval.
Hypothesis Hleaves : leaves C f.

#[local] Abbreviation I := (has_records C d).

Lemma callback_keeps this v k i :
  keeps C d (call_entry (bind_if_given f thisArg) this v k i).
Proof.
  rewrite call_entry_bind. intros h HI.
  pose proof (Hleaves thisArg [v; JAtom k; num i; JAtom (AObject this)] h) as Hl.
  unfold has_records in *.
  destruct (f _ _ h) as [[r| |] h']; cbn [snd] in Hl; congruence.
Qed.

Lemma Map_set_keeps l k v : l <> C -> keeps C d (Map_set l k v).
Proof.
  intros Hne. apply hoare_Map_set; [done|].
  intros h d0 HI _. unfold has_records. by rewrite lookup_insert_ne.
Qed.

Lemma Store_new_keeps fuel :
  hoare I (Store_new fuel NoIterable) (fun l h => I h /\ l <> C)
    (fun _ => I) I.
Proof.
  apply hoare_Store_new_empty. intros h HI.
  pose proof (fresh_ne h C d HI). split; [|done].
  unfold has_records. by rewrite lookup_insert_ne.
Qed.

Lemma filter_keeps fuel : keeps C d (filter fuel C (Callable f) thisArg).
Proof.
  unfold filter. cbv zeta.
  eapply hoare_bind; [apply Store_new_keeps|]. intros l. cbv beta.
  apply hoare_pure. intros Hne.
  eapply hoare_bind.
  - apply (hoare_for_of_map (fun _ => I)); [done..|].
    intros acc k v.
    eapply hoare_bind; [apply callback_keeps|]. intros r. cbv beta.
    eapply (hoare_bind _ _ _ (fun _ => I)); [|intros ?; by apply hoare_ret].
    destruct (truthy r); [by apply Map_set_keeps|by apply hoare_ret].
  - intros ?. by apply hoare_ret.
Qed.

Lemma map_keeps fuel : keeps C d (map fuel C (Callable f) thisArg).
Proof.
  unfold map, map_with. cbv zeta.
  eapply hoare_bind.
  - apply (hoare_for_of_map (fun _ => I)); [done..|].
    intros acc k v.
    eapply hoare_bind; [apply callback_keeps|]. intros r.
    by apply hoare_ret.
  - intros r. by apply hoare_ret.
Qed.

Lemma split_keeps fuel : keeps C d (split fuel C (Callable f) thisArg).
Proof.
  unfold split. cbv zeta.
  eapply hoare_bind; [apply Store_new_keeps|]. intros l1. cbv beta.
  apply hoare_pure. intros Hne1.
  eapply hoare_bind; [apply Store_new_keeps|]. intros l2. cbv beta.
  apply hoare_pure. intros Hne2.
  eapply hoare_bind.
  - apply (hoare_for_of_map (fun _ => I)); [done..|].
    intros acc k v.
    eapply hoare_bind; [apply callback_keeps|]. intros r. cbv beta.
    eapply (hoare_bind _ _ _ (fun _ => I)); [|intros ?; by apply hoare_ret].
    destruct (truthy r); by apply Map_set_keeps.
  - intros ?. by apply hoare_ret.
Qed.
End frame.

Lemma alive_mono (X : gset loc) (h h' : heap) :
  alive X h -> dom h ⊆ dom h' -> alive X h'.
Proof. unfold alive. intros HX Hdom. by transitivity (dom h). Qed.

Lemma alive_insert (X : gset loc) (h : heap) l (d : MapData) :
  alive X h -> alive ({[l]} ∪ X) (<[l := d]> h).
Proof.
  unfold alive. intros HX. rewrite dom_insert_L.
  by apply union_mono_l.
Qed.

Lemma alive_insert_same (X : gset loc) (h : heap) l (d : MapData) :
  alive X h -> alive X (<[l := d]> h).
Proof.
  intros HX. apply (alive_mono X h); [done|]. rewrite dom_insert_L.
  apply union_subseteq_r.
Qed.

Lemma alive_lookup (X : gset loc) (h : heap) l :
  alive X h -> l ∈ X -> is_Some (h !! l).
Proof. unfold alive. intros HX Hl. apply elem_of_dom. by apply HX. Qed.

Lemma alive_empty (h : heap) : alive ∅ h.
Proof. unfold alive. apply empty_subseteq. Qed.

Lemma fold_entries_returns {S} (P : heap -> Prop)
    (body : S -> atom -> jsval -> M S) :
  (forall acc k v h, P h ->
     exists acc' h', body acc k v h = (Ok acc', h') /\ P h') ->
  forall es acc h, P h ->
    exists acc' h', fold_entries body es acc h = (Ok acc', h') /\ P h'.
Proof.
  intros Hbody. induction es as [|[k v] es IH]; intros acc h HP.
  - by exists acc, h.
  - cbn [fold_entries fst snd].
    destruct (Hbody acc k v h HP) as (acc1 & h1 & Hrun & HP1).
    rewrite (bind_ok _ _ _ _ _ Hrun). by apply IH.
Qed.

Lemma hoare_returns {A} (P : heap -> Prop) (m : M A) (Q : A -> heap -> Prop)
    (h : heap) :
  hoare P m Q (fun _ _ => False) (fun _ => False) -> P h ->
  exists a h', m h = (Ok a, h') /\ Q a h'.
Proof.
  intros Hm HP. specialize (Hm h HP).
  destruct (m h) as [[a| |] h']; [|done..]. by exists a, h'.
Qed.

(** A loop over a Map that keeps its records, with a body that returns,
    returns once the fuel exceeds the number of records. *)
Lemma hoare_for_of_map_returns {S} (P : heap -> Prop) (map : loc) (d : MapData)
    (body : S -> atom -> jsval -> M S) (fuel : nat) :
  (forall h, P h -> h !! map = Some d) ->
  (forall acc k v,
     hoare P (body acc k v) (fun _ => P) (fun _ _ => False) (fun _ => False)) ->
  (length d < fuel)%nat ->
  forall acc,
    hoare P (for_of_map fuel map body 0 acc) (fun _ => P)
      (fun _ _ => False) (fun _ => False).
Proof.
  intros Hmap Hbody Hfuel acc h HP.
  assert (Hstep : forall acc k v h, P h ->
            exists acc' h', body acc k v h = (Ok acc', h') /\ P h').
  { intros acc0 k v h0 HP0. by apply (hoare_returns P). }
  rewrite (for_of_map_fold P map d); [|done| |done|lia].
  - destruct (fold_entries_returns P body Hstep (entries (drop 0 d)) acc h HP)
      as (acc' & h' & Hrun & HP'). by rewrite Hrun.
  - intros acc0 k v h0 HP0.
    destruct (Hstep acc0 k v h0 HP0) as (acc1 & h1 & Hrun & HP1).
    by rewrite Hrun.
Qed.

Section frame_returns.
Variable C : loc.
Variable d : MapData.
Variable f : func.
Variable thisArg : jsval.
Variable fuel : nat.
Hypothesis Hleaves : leaves C f.
Hypothesis Hreturns : always_returns f.
Hypothesis Hfrees : never_frees f.
Hypothesis Hfuel : (length d < fuel)%nat.

#[local] Abbreviation P := (kept_alive C d).

Lemma callback_returns X this v k i :
  total (P X) (call_entry (bind_if_given f thisArg) this v k i) (fun _ => P X).
Proof.
  intros h [HC HX]. rewrite call_entry_bind.
  pose proof (Hleaves thisArg [v; JAtom k; num i; JAtom (AObject this)] h) as Hl.
  pose proof (Hfrees thisArg [v; JAtom k; num i; JAtom (AObject this)] h) as Hf.
  destruct (Hreturns thisArg [v; JAtom k; num i; JAtom (AObject this)] h)
    as (r & h' & Hrun).
  rewrite Hrun in Hl, Hf |- *. cbn [snd] in Hl, Hf.
  split; [congruence|]. by apply (alive_mono X h).
Qed.

Lemma Map_set_returns X l k v :
  l ∈ X -> l <> C -> total (P X) (Map_set l k v) (fun _ => P X).
Proof.
  intros Hl Hne. apply hoare_Map_set.
  - intros h [HC HX] Hnone.
    destruct (alive_lookup X h l HX Hl) as [d0 Hd0]. congruence.
  - intros h d0 [HC HX] _. split; [by rewrite lookup_insert_ne|].
    by apply alive_insert_same.
Qed.

Lemma Store_new_returns X :
  total (P X) (Store_new fuel NoIterable)
    (fun l h => P ({[l]} ∪ X) h /\ l <> C).
Proof.
  apply hoare_Store_new_empty. intros h [HC HX].
  pose proof (fresh_ne h C d HC). split; [|done]. split.
  - by rewrite lookup_insert_ne.
  - by apply alive_insert.
Qed.

Lemma filter_total :
  total (P ∅) (filter fuel C (Callable f) thisArg) (fun _ _ => True).
Proof.
  unfold filter. cbv zeta.
  eapply hoare_bind; [apply Store_new_returns|]. intros lf. cbv beta.
  apply hoare_pure. intros Hne.
  eapply hoare_bind.
  - apply (hoare_for_of_map_returns (P ({[lf]} ∪ ∅)) C d);
      [by intros ? [? _]| |done].
    intros acc k v.
    eapply hoare_bind; [apply callback_returns|]. intros r. cbv beta.
    eapply (hoare_bind _ _ _ (fun _ => P ({[lf]} ∪ ∅)));
      [|intros ?; by apply hoare_ret].
    destruct (truthy r); [|by apply hoare_ret].
    apply Map_set_returns; [|done]. apply elem_of_union_l.
    by apply elem_of_singleton.
  - intros ?. by apply hoare_ret.
Qed.

Lemma map_total :
  total (P ∅) (map fuel C (Callable f) thisArg) (fun _ _ => True).
Proof.
  unfold map, map_with. cbv zeta.
  eapply hoare_bind.
  - apply (hoare_for_of_map_returns (P ∅) C d); [by intros ? [? _]| |done].
    intros acc k v.
    eapply hoare_bind; [apply callback_returns|]. intros r.
    by apply hoare_ret.
  - intros ?. by apply hoare_ret.
Qed.

Lemma split_total :
  total (P ∅) (split fuel C (Callable f) thisArg) (fun _ _ => True).
Proof.
  unfold split. cbv zeta.
  eapply hoare_bind; [apply Store_new_returns|]. intros l1. cbv beta.
  apply hoare_pure. intros Hne1.
  eapply hoare_bind; [apply Store_new_returns|]. intros l2. cbv beta.
  apply hoare_pure. intros Hne2.
  eapply hoare_bind.
  - apply (hoare_for_of_map_returns (P ({[l2]} ∪ ({[l1]} ∪ ∅))) C d);
      [by intros ? [? _]| |done].
    intros acc k v.
    eapply hoare_bind; [apply callback_returns|]. intros r. cbv beta.
    eapply (hoare_bind _ _ _ (fun _ => P ({[l2]} ∪ ({[l1]} ∪ ∅))));
      [|intros ?; by apply hoare_ret].
    destruct (truthy r); (apply Map_set_returns; [|done]).
    + apply elem_of_union_r, elem_of_union_l. by apply elem_of_singleton.
    + apply elem_of_union_l. by apply elem_of_singleton.
  - intros ?. by apply hoare_ret.
Qed.
End frame_returns.

Lemma hoare_snd {A} (I : heap -> Prop) (m : M A) (h : heap) :
  hoare I m (fun _ => I) (fun _ => I) I -> I h -> I (m h).2.
Proof.
  intros Hm HI. specialize (Hm h HI). by destruct (m h) as [[a| |] h'].
Qed.

(** C8: with a callback that does not change the receiver, [filter], [map]
    and [split] leave the receiver with the records it had, however the call
    ends; and the call does return when the callback always returns, given
    fuel for the records of the receiver. *)
Theorem C8_derive_leaves_receiver (fuel : nat) (h : heap) (C : loc)
    (d : MapData) (f : func) (thisArg : jsval) :
  h !! C = Some d -> leaves C f ->
  ((filter fuel C (Callable f) thisArg h).2 !! C = Some d /\
   (map fuel C (Callable f) thisArg h).2 !! C = Some d /\
   (split fuel C (Callable f) thisArg h).2 !! C = Some d) /\
  (always_returns f -> never_frees f -> (length d < fuel)%nat ->
   returns (filter fuel C (Callable f) thisArg) h /\
   returns (map fuel C (Callable f) thisArg) h /\
   returns (split fuel C (Callable f) thisArg) h).
Proof.
  intros HC Hleaves. split.
  - split; [|split].
    + apply (hoare_snd (has_records C d)); [by apply filter_keeps|done].
    + apply (hoare_snd (has_records C d)); [by apply map_keeps|done].
    + apply (hoare_snd (has_records C d)); [by apply split_keeps|done].
  - intros Hret Hfrees Hfuel.
    assert (HP : kept_alive C d ∅ h) by (split; [done|apply alive_empty]).
    split; [|split].
    + destruct (hoare_returns _ _ _ h
                  (filter_total C d f thisArg fuel Hleaves Hret Hfrees Hfuel) HP)
        as (a & h' & Hrun & _). by exists a, h'.
    + destruct (hoare_returns _ _ _ h
                  (map_total C d f thisArg fuel Hleaves Hret Hfrees Hfuel) HP)
        as (a & h' & Hrun & _). by exists a, h'.
    + destruct (hoare_returns _ _ _ h
                  (split_total C d f thisArg fuel Hleaves Hret Hfrees Hfuel) HP)
        as (a & h' & Hrun & _). by exists a, h'.
Qed.

Lemma greater_than_1_run t args h :
  exists r, greater_than_1 t args h = (Ok r, h).
Proof.
  unfold greater_than_1.
  destruct args as [|[[| | |n| |]|] args]; by eexists.
Qed.

Lemma C8_derive_leaves_receiver_witness :
  ((filter 4 1%positive (Callable greater_than_1) undefined abc_heap).2
     !! 1%positive = Some abc_data /\
   (map 4 1%positive (Callable greater_than_1) undefined abc_heap).2
     !! 1%positive = Some abc_data /\
   (split 4 1%positive (Callable greater_than_1) undefined abc_heap).2
     !! 1%positive = Some abc_data) /\
  returns (filter 4 1%positive (Callable greater_than_1) undefined) abc_heap /\
  returns (map 4 1%positive (Callable greater_than_1) undefined) abc_heap /\
  returns (split 4 1%positive (Callable greater_than_1) undefined) abc_heap.
Proof.
  destruct (C8_derive_leaves_receiver 4 abc_heap 1%positive abc_data
              greater_than_1 undefined eq_refl) as [Hkeeps Hreturns].
  - intros t args h. destruct (greater_than_1_run t args h) as [r ->].
    reflexivity.
  - split; [exact Hkeeps|]. apply Hreturns.
    + intros t args h. destruct (greater_than_1_run t args h) as [r ->].
      by exists r, h.
    + intros t args h. destruct (greater_than_1_run t args h) as [r ->].
      reflexivity.
    + cbn. lia.
Defined.

(** ** No method throws unless its callback does *)

Lemma hoare_alloc (d : MapData) P (Q : loc -> heap -> Prop) E D :
  (forall h, P h -> Q (fresh (dom h)) (<[fresh (dom h) := d]> h)) ->
  hoare P (alloc d) Q E D.
Proof. intros HQ h HP. by apply HQ. Qed.

Lemma hoare_no_throw {A} (P : heap -> Prop) (m : M A) (Q : A -> heap -> Prop)
    (D : heap -> Prop) (h : heap) (e : error) :
  hoare P m Q (fun _ _ => False) D -> P h -> (m h).1 <> Throw e.
Proof.
  intros Hm HP. specialize (Hm h HP). by destruct (m h) as [[a|e'|] h'].
Qed.

Lemma bind_if_given_call (f : func) (thisArg t : jsval) args :
  exists t', bind_if_given f thisArg t args = f t' args.
Proof.
  unfold bind_if_given, Function_bind. destruct (is_undefined thisArg); by eexists.
Qed.

Section safe.
Variable f : func.
Hypothesis Hthrows : never_throws f.
Hypothesis Hfrees : never_frees f.

Lemma func_safe X t args : safe X (f t args) (fun _ => alive X).
Proof.
  intros h HX. pose proof (Hthrows t args h) as Ht.
  pose proof (Hfrees t args h) as Hf.
  destruct (f t args h) as [[r|e|] h']; cbn [fst snd] in *.
  - by apply (alive_mono X h).
  - by apply (Ht e).
  - done.
Qed.

Lemma callback_safe X thisArg t args :
  safe X (bind_if_given f thisArg t args) (fun _ => alive X).
Proof.
  destruct (bind_if_given_call f thisArg t args) as [t' ->]. apply func_safe.
Qed.

Lemma Map_set_safe X l k v : l ∈ X -> safe X (Map_set l k v) (fun _ => alive X).
Proof.
  intros Hl. apply hoare_Map_set.
  - intros h HX Hnone. destruct (alive_lookup X h l HX Hl) as [d0 Hd0].
    congruence.
  - intros h d0 HX _. by apply alive_insert_same.
Qed.

Lemma for_of_map_safe {S} X fuel map (body : S -> atom -> jsval -> M S) i acc :
  map ∈ X ->
  (forall acc k v, safe X (body acc k v) (fun _ => alive X)) ->
  safe X (for_of_map fuel map body i acc) (fun _ => alive X).
Proof.
  intros Hmap Hbody.
  apply (hoare_for_of_map (fun _ => alive X)); [|done|done].
  intros _ h HX Hnone. destruct (alive_lookup X h map HX Hmap) as [d0 Hd0].
  congruence.
Qed.

Lemma Store_new_safe X fuel :
  safe X (Store_new fuel NoIterable) (fun l => alive ({[l]} ∪ X)).
Proof. apply hoare_Store_new_empty. intros h HX. by apply alive_insert. Qed.

Lemma clone_safe X fuel this :
  this ∈ X -> safe X (clone fuel this) (fun l => alive ({[l]} ∪ X)).
Proof.
  intros Hthis. unfold clone, Store_new.
  eapply hoare_bind.
  - apply (hoare_alloc _ _ (fun l => alive ({[l]} ∪ X))).
    intros h HX. by apply alive_insert.
  - intros l. cbv beta.
    eapply (hoare_bind _ _ _ (fun _ => alive ({[l]} ∪ X)));
      [|intros ?; by apply hoare_ret].
    apply for_of_map_safe; [by apply elem_of_union_r|].
    intros _ k v. apply Map_set_safe. apply elem_of_union_l.
    by apply elem_of_singleton.
Qed.

Lemma array_safe X this : this ∈ X -> safe X (array this) (fun _ => alive X).
Proof.
  intros Hthis. unfold array. eapply hoare_bind.
  - apply hoare_this_data. intros h HX Hnone.
    destruct (alive_lookup X h this HX Hthis) as [d0 Hd0]. congruence.
  - intros d0. apply hoare_ret. by intros h [HX _].
Qed.

Lemma map_with_safe {T} X fuel this (g : jsval -> atom -> Z -> M T) :
  this ∈ X ->
  (forall v k i, safe X (g v k i) (fun _ => alive X)) ->
  safe X (map_with fuel this g) (fun _ => alive X).
Proof.
  intros Hthis Hg. unfold map_with.
  eapply (hoare_bind _ _ _ (fun _ => alive X)); [|intros ?; by apply hoare_ret].
  apply for_of_map_safe; [done|]. intros acc k v.
  eapply (hoare_bind _ _ _ (fun _ => alive X)); [apply Hg|].
  intros ?. by apply hoare_ret.
Qed.

Lemma set_all_safe X l mapped : l ∈ X -> safe X (set_all l mapped) (fun _ => alive X).
Proof.
  intros Hl. unfold set_all. apply hoare_for_of_array.
  intros kv. by apply Map_set_safe.
Qed.

Lemma flatMap_from_safe X b thisArg source rest i :
  safe X (flatMap_from (bind_if_given f b) thisArg source rest i)
    (fun _ => alive X).
Proof.
  revert i. induction rest as [|x xs IH]; intros i; cbn [flatMap_from].
  - by apply hoare_ret.
  - eapply (hoare_bind _ _ _ (fun _ => alive X)); [apply callback_safe|].
    intros r. eapply (hoare_bind _ _ _ (fun _ => alive X)); [apply IH|].
    intros rs. by apply hoare_ret.
Qed.

Lemma filter_safe fuel this thisArg :
  safe {[this]} (filter fuel this (Callable f) thisArg) (fun _ _ => True).
Proof.
  unfold filter. cbv zeta.
  eapply hoare_bind; [apply Store_new_safe|]. intros lf. cbv beta.
  eapply (hoare_bind _ _ _ (fun _ => alive ({[lf]} ∪ {[this]})));
    [|intros ?; by apply hoare_ret].
  apply for_of_map_safe.
  - apply elem_of_union_r. by apply elem_of_singleton.
  - intros acc k v.
    eapply (hoare_bind _ _ _ (fun _ => alive ({[lf]} ∪ {[this]})));
      [apply callback_safe|].
    intros r. cbv beta.
    eapply (hoare_bind _ _ _ (fun _ => alive ({[lf]} ∪ {[this]})));
      [|intros ?; by apply hoare_ret].
    destruct (truthy r); [|by apply hoare_ret].
    apply Map_set_safe. apply elem_of_union_l. by apply elem_of_singleton.
Qed.

Lemma map_safe fuel this thisArg :
  safe {[this]} (map fuel this (Callable f) thisArg) (fun _ _ => True).
Proof.
  unfold map. cbv zeta.
  eapply hoare_post.
  - apply map_with_safe; [by apply elem_of_singleton|].
    intros v k i. apply callback_safe.
  - done.
Qed.

Lemma split_safe fuel this thisArg :
  safe {[this]} (split fuel this (Callable f) thisArg) (fun _ _ => True).
Proof.
  unfold split. cbv zeta.
  eapply hoare_bind; [apply Store_new_safe|]. intros l1. cbv beta.
  eapply hoare_bind; [apply Store_new_safe|]. intros l2. cbv beta.
  set (X := ({[l2]} ∪ ({[l1]} ∪ {[this]}) : gset loc)).
  eapply (hoare_bind _ _ _ (fun _ => alive X));
    [|intros ?; by apply hoare_ret].
  apply for_of_map_safe.
  - unfold X. apply elem_of_union_r, elem_of_union_r.
    by apply elem_of_singleton.
  - intros acc k v.
    eapply (hoare_bind _ _ _ (fun _ => alive X)); [apply callback_safe|].
    intros r. cbv beta.
    eapply (hoare_bind _ _ _ (fun _ => alive X));
      [|intros ?; by apply hoare_ret].
    destruct (truthy r); apply Map_set_safe; unfold X.
    + apply elem_of_union_r, elem_of_union_l. by apply elem_of_singleton.
    + apply elem_of_union_l. by apply elem_of_singleton.
Qed.

Lemma flatMap_safe E fuel this b :
  safe {[this]} (flatMap E fuel this (Callable f) b) (fun _ _ => True).
Proof.
  unfold flatMap. cbv zeta.
  eapply hoare_bind;
    [apply clone_safe; by apply elem_of_singleton|].
  intros toFlat. cbv beta.
  set (X := ({[toFlat]} ∪ {[this]} : gset loc)).
  assert (HtoFlat : toFlat ∈ X)
    by (apply elem_of_union_l; by apply elem_of_singleton).
  assert (Hthis : this ∈ X)
    by (apply elem_of_union_r; by apply elem_of_singleton).
  eapply hoare_bind; [by apply array_safe|].
  intros vals. cbv beta.
  destruct (negb (existsb isArray vals)); [by apply hoare_ret|].
  eapply (hoare_bind _ _ _ (fun _ => alive X)).
  - destruct (Array_prototype_flatMap E); (apply map_with_safe; [done|]);
      intros v k i; destruct v as [a|xs]; try (by apply hoare_ret).
    + eapply (hoare_bind _ _ _ (fun _ => alive X)).
      * apply flatMap_from_safe.
      * intros r. by apply hoare_ret.
    + eapply (hoare_bind _ _ _ (fun _ => alive X)); [apply callback_safe|].
      intros r. by apply hoare_ret.
  - intros mapped.
    eapply (hoare_bind _ _ _ (fun _ => alive X)); [by apply set_all_safe|].
    intros ?. by apply hoare_ret.
Qed.
End safe.

Lemma alive_singleton (h : heap) l (d : MapData) : h !! l = Some d -> alive {[l]} h.
Proof.
  intros Hd. unfold alive. apply singleton_subseteq_l, elem_of_dom.
  by rewrite Hd.
Qed.

(** C6: [filter], [map], [split] and [flatMap] throw a TypeError when the
    callback is not callable, and [flat] throws a RangeError when its
    argument is below 1; the heap is then as it was. With a callable
    callback that never throws, none of the four throws. *)
Theorem C6_invalid_arguments :
  (forall (E : env) (fuel : nat) (this : loc) (v thisArg : jsval) (h : heap),
     filter fuel this (NotCallable v) thisArg h
       = (Throw (TypeError "callback must be a function."), h) /\
     map fuel this (NotCallable v) thisArg h
       = (Throw (TypeError "callback must be a function"), h) /\
     split fuel this (NotCallable v) thisArg h
       = (Throw (TypeError "callback must be a Function."), h) /\
     flatMap E fuel this (NotCallable v) thisArg h
       = (Throw (TypeError "callback must be a Function."), h)) /\
  (forall (E : env) (fuel : nat) (this : loc) (strength : number) (h : heap),
     number_lt strength (Int 1) = true ->
     flat E fuel this (Some strength) h
       = (Throw (RangeError "strength must be greater than 1."), h)) /\
  (forall (E : env) (fuel : nat) (this : loc) (d : MapData) (f : func)
          (thisArg : jsval) (h : heap) (e : error),
     h !! this = Some d -> never_throws f -> never_frees f ->
     (filter fuel this (Callable f) thisArg h).1 <> Throw e /\
     (map fuel this (Callable f) thisArg h).1 <> Throw e /\
     (split fuel this (Callable f) thisArg h).1 <> Throw e /\
     (flatMap E fuel this (Callable f) thisArg h).1 <> Throw e).
Proof.
  split; [done|]. split.
  - intros E fuel this strength h Hlt. unfold flat. cbv zeta.
    cbn [default from_option]. unfold id. by rewrite Hlt.
  - intros E fuel this d f thisArg h e Hd Hthrows Hfrees.
    pose proof (alive_singleton h this d Hd) as HX.
    split; [|split; [|split]].
    + eapply hoare_no_throw; [by apply filter_safe|done].
    + eapply hoare_no_throw; [by apply map_safe|done].
    + eapply hoare_no_throw; [by apply split_safe|done].
    + eapply hoare_no_throw; [by apply flatMap_safe|done].
Qed.

Lemma C6_invalid_arguments_witness :
  flat modern 4 1%positive (Some (Int 0)) abc_heap
    = (Throw (RangeError "strength must be greater than 1."), abc_heap) /\
  (filter 4 1%positive (Callable greater_than_1) undefined abc_heap).1
    <> Throw (TypeError "callback must be a function.") /\
  (map 4 1%positive (Callable greater_than_1) undefined abc_heap).1
    <> Throw (TypeError "callback must be a function") /\
  (split 4 1%positive (Callable greater_than_1) undefined abc_heap).1
    <> Throw (TypeError "callback must be a Function.") /\
  (flatMap modern 4 1%positive (Callable greater_than_1) undefined abc_heap).1
    <> Throw (TypeError "callback must be a Function.").
Proof.
  destruct C6_invalid_arguments as (_ & Hflat & Honly).
  split; [by apply Hflat|].
  assert (Hthrows : never_throws greater_than_1).
  { intros t args h e. by destruct (greater_than_1_run t args h) as [r ->]. }
  assert (Hfrees : never_frees greater_than_1).
  { intros t args h. by destruct (greater_than_1_run t args h) as [r ->]. }
  pose proof (fun e => Honly modern 4%nat 1%positive abc_data greater_than_1
                         undefined abc_heap e eq_refl Hthrows Hfrees) as H.
  split; [apply H|]. split; [apply H|]. split; apply H.
Defined.

(** ** The examples of the documentation *)

(** On [[("a",1), ("b",2), ("c",3)]], [filter(v => v > 1)] gives
    [[("b",2), ("c",3)]]. *)
Example example_filter :
  filter 4 1%positive (Callable greater_than_1) undefined abc_heap
  = (Ok 2%positive,
     <[ 2%positive := [Some (AString "b", num 2); Some (AString "c", num 3)] ]>
       abc_heap).
Proof. by vm_compute. Qed.

(** [split(v => v > 1)] gives [[("b",2), ("c",3)]] and [[("a",1)]]. *)
Example example_split :
  split 4 1%positive (Callable greater_than_1) undefined abc_heap
  = (Ok (2%positive, 3%positive),
     <[ 3%positive := [Some (AString "a", num 1)] ]>
       (<[ 2%positive := [Some (AString "b", num 2); Some (AString "c", num 3)] ]>
          abc_heap)).
Proof. by vm_compute. Qed.

(** [map(v => v > 1)] gives [[false, true, true]]. *)
Example example_map :
  map 4 1%positive (Callable greater_than_1) undefined abc_heap
  = (Ok [JAtom (ABool false); JAtom (ABool true); JAtom (ABool true)], abc_heap).
Proof. by vm_compute. Qed.

(** [indexOf("b") == 1], [first() == 1], [last() == 3]. *)
Example example_positions :
  indexOf 1%positive (AString "b") None abc_heap = (Ok 1, abc_heap) /\
  first 1%positive abc_heap = (Ok (num 1), abc_heap) /\
  last 1%positive abc_heap = (Ok (num 3), abc_heap).
Proof. by vm_compute. Qed.

(** [flat(1)] of [hec -> [1, 2, [3, 4, [5, 6]]]] is [[1, 2, 3, 4, [5, 6]]] and
    [flat(2)] is [[1, 2, 3, 4, 5, 6]], with [Array.prototype.flat] and
    without. *)
Example example_flat :
  forall E, E = modern \/ E = legacy ->
    contents (flat E 4 1%positive (Some (Int 1)) hec_heap).2 2%positive
    = [(AString "hec", JArray [num 1; num 2; num 3; num 4; JArray [num 5; num 6]])]
    /\
    contents (flat E 4 1%positive (Some (Int 2)) hec_heap).2 2%positive
    = [(AString "hec", JArray [num 1; num 2; num 3; num 4; num 5; num 6])].
Proof. intros E [-> | ->]; by vm_compute. Qed.

(** ** The constructor *)

Lemma set_all_run (l : loc) (items : list (atom * jsval)) (d : MapData) (h : heap) :
  h !! l = Some d ->
  set_all l items h = (Ok tt, <[l := set_pairs items d]> h).
Proof.
  unfold set_all. revert d h. induction items as [|[k v] items IH]; intros d h Hl.
  - cbn. by rewrite insert_id.
  - cbn [for_of_array fst snd set_pairs fold_left].
    rewrite (bind_ok _ _ _ _ _ (Map_set_lookup h l d k v Hl)).
    rewrite (IH (data_set k v d)) by (by rewrite lookup_insert_eq).
    by rewrite insert_insert_eq.
Qed.

Lemma Store_new_FromArray_run (fuel : nat) (items : list (atom * jsval)) (h : heap) :
  Store_new fuel (FromArray items) h
  = (Ok (fresh (dom h)), <[fresh (dom h) := set_pairs items []]> h).
Proof.
  unfold Store_new.
  rewrite (bind_ok _ _ h (<[fresh (dom h) := []]> h) (fresh (dom h))) by done.
  pose proof (set_all_run (fresh (dom h)) items [] (<[fresh (dom h) := []]> h)) as Hrun.
  unfold set_all in Hrun. rewrite (bind_ok _ _ _ _ _ (Hrun (lookup_insert_eq _ _ _))).
  by rewrite insert_insert_eq.
Qed.

Lemma wf_set_pairs items (d : MapData) : wf_data d -> wf_data (set_pairs items d).
Proof.
  revert d. induction items as [|[k v] items IH]; intros d Hwf; [done|].
  cbn [set_pairs fold_left fst snd]. apply IH. by apply wf_data_set.
Qed.

Lemma keys_set_pairs items (d : MapData) k :
  k ∈ keys (set_pairs items d) <-> k ∈ keys d \/ k ∈ items.*1.
Proof.
  revert d. induction items as [|[k' v'] items IH]; intros d.
  - cbn. rewrite elem_of_nil. tauto.
  - cbn [set_pairs fold_left fst snd]. rewrite IH, keys_data_set, fmap_cons.
    cbn [fst]. rewrite elem_of_cons.
    destruct (decide (k' ∈ keys d)) as [Hin|Hnin].
    + split; [tauto|]. intros [?|[->|?]]; tauto.
    + rewrite elem_of_app, list_elem_of_singleton. tauto.
Qed.

Lemma data_get_set_eq k v (d : MapData) : data_get k (data_set k v d) = v.
Proof.
  induction d as [|[[k' v']|] d IH]; cbn [data_set data_get].
  - unfold same_value_zero. by rewrite bool_decide_eq_true_2.
  - destruct (same_value_zero k' k) eqn:Heq; cbn [data_get]; by rewrite Heq.
  - done.
Qed.

Lemma data_get_set_ne k k' v (d : MapData) :
  k <> k' -> data_get k (data_set k' v d) = data_get k d.
Proof.
  intros Hne. induction d as [|[[k1 v1]|] d IH]; cbn [data_set data_get].
  - unfold same_value_zero. by rewrite bool_decide_eq_false_2.
  - unfold same_value_zero.
    destruct (decide (k1 = k')) as [->|Hne1].
    + rewrite bool_decide_eq_true_2 by done. cbn [data_get].
      unfold same_value_zero. by rewrite !bool_decide_eq_false_2.
    + rewrite bool_decide_eq_false_2 by done. cbn [data_get].
      unfold same_value_zero. by rewrite IH.
  - done.
Qed.

Lemma data_get_set_pairs_absent k items (d : MapData) :
  k ∉ items.*1 -> data_get k (set_pairs items d) = data_get k d.
Proof.
  revert d. induction items as [|[k' v'] items IH]; intros d Hk; [done|].
  rewrite fmap_cons in Hk. cbn [fst] in Hk.
  apply not_elem_of_cons in Hk as [Hne Hk].
  cbn [set_pairs fold_left fst snd]. rewrite IH by done.
  by apply data_get_set_ne.
Qed.

Lemma data_get_set_pairs_last k v pre post (d : MapData) :
  k ∉ post.*1 -> data_get k (set_pairs (pre ++ (k, v) :: post) d) = v.
Proof.
  intros Hk. unfold set_pairs. rewrite fold_left_app. cbn [fold_left fst snd].
  fold (set_pairs post). rewrite data_get_set_pairs_absent by done.
  apply data_get_set_eq.
Qed.

Lemma set_pairs_distinct items (es0 : list (atom * jsval)) :
  NoDup (es0 ++ items).*1 -> set_pairs items (Some <$> es0) = Some <$> (es0 ++ items).
Proof.
  revert es0. induction items as [|[k v] items IH]; intros es0 Hnd.
  - by rewrite app_nil_r.
  - apply NoDup_keys_snoc in Hnd as (Hk & Hnd & _).
    cbn [set_pairs fold_left fst snd]. rewrite data_set_Some_new by done.
    fold (set_pairs items). rewrite IH by done. by rewrite <- app_assoc.
Qed.

(** X1: [new Store(items)] on an array of pairs with distinct keys gives a
    new Store that yields these pairs again, in the order given: [array()]
    and [keyArray()] are the values and the keys of [items]. *)
Theorem X1_constructor_round_trip (fuel : nat) (items : list (atom * jsval))
    (h : heap) :
  NoDup items.*1 ->
  exists (l : loc) (h' : heap),
    Store_new fuel (FromArray items) h = (Ok l, h') /\
    (l ∉ dom h) /\
    contents h' l = items /\
    array l h' = (Ok items.*2, h') /\
    keyArray l h' = (Ok items.*1, h') /\
    Map_size l h' = (Ok (Z.of_nat (length items)), h').
Proof.
  intros Hnd. exists (fresh (dom h)), (<[fresh (dom h) := Some <$> items]> h).
  assert (Hl : (<[fresh (dom h) := Some <$> items]> h) !! fresh (dom h)
               = Some (Some <$> items)) by apply lookup_insert_eq.
  split.
  - assert (Hs : set_pairs items [] = Some <$> items)
      by apply (set_pairs_distinct items [] Hnd).
    by rewrite Store_new_FromArray_run, Hs.
  - split; [apply is_fresh|]. split; [apply contents_insert_eq|].
    rewrite (array_lookup _ _ _ Hl), (keyArray_lookup _ _ _ Hl).
    rewrite (Map_size_lookup _ _ _ Hl). unfold keys, data_size.
    by rewrite entries_Some.
Qed.

Lemma X1_constructor_round_trip_witness :
  exists (l : loc) (h' : heap),
    Store_new 0 (FromArray abc_items) abc_heap = (Ok l, h') /\
    (l ∉ dom abc_heap) /\
    contents h' l = abc_items /\
    array l h' = (Ok abc_items.*2, h') /\
    keyArray l h' = (Ok abc_items.*1, h') /\
    Map_size l h' = (Ok (Z.of_nat (length abc_items)), h').
Proof.
  apply (X1_constructor_round_trip 0 abc_items abc_heap).
  apply (bool_decide_unpack _). vm_compute. exact I.
Defined.

(** X2: [new Store(items)] on any array of pairs gives a Store without
    duplicate keys whose keys are the keys of [items]; [get] of a key returns
    the value of the last pair of [items] with that key, and [undefined] for
    a key that is not in [items]. *)
Theorem X2_constructor_last_wins (fuel : nat) (items : list (atom * jsval))
    (h : heap) :
  exists (l : loc) (d : MapData),
    Store_new fuel (FromArray items) h = (Ok l, <[l := d]> h) /\
    (l ∉ dom h) /\
    wf_data d /\
    (forall k, k ∈ keys d <-> k ∈ items.*1) /\
    (forall k v pre post,
       items = pre ++ (k, v) :: post -> k ∉ post.*1 ->
       Map_get l k (<[l := d]> h) = (Ok v, <[l := d]> h)) /\
    (forall k, k ∉ items.*1 ->
       Map_get l k (<[l := d]> h) = (Ok undefined, <[l := d]> h)).
Proof.
  exists (fresh (dom h)), (set_pairs items []).
  split; [apply Store_new_FromArray_run|]. split; [apply is_fresh|].
  split; [apply wf_set_pairs, wf_data_nil|]. split.
  - intros k. rewrite keys_set_pairs. unfold keys at 1. cbn.
    rewrite elem_of_nil. tauto.
  - split.
    + intros k v pre post -> Hk.
      rewrite (Map_get_lookup _ _ _ _ (lookup_insert_eq _ _ _)).
      by rewrite data_get_set_pairs_last.
    + intros k Hk.
      rewrite (Map_get_lookup _ _ _ _ (lookup_insert_eq _ _ _)).
      by rewrite data_get_set_pairs_absent.
Qed.

Lemma X2_constructor_last_wins_witness :
  exists (l : loc) (d : MapData),
    Store_new 0 (FromArray aba_items) abc_heap = (Ok l, <[l := d]> abc_heap) /\
    wf_data d /\
    Map_get l (AString "a") (<[l := d]> abc_heap) = (Ok (num 3), <[l := d]> abc_heap) /\
    Map_get l (AString "z") (<[l := d]> abc_heap) = (Ok undefined, <[l := d]> abc_heap).
Proof.
  destruct (X2_constructor_last_wins 0 aba_items abc_heap)
    as (l & d & Hrun & _ & Hwf & _ & Hlast & Habs).
  exists l, d. split; [exact Hrun|]. split; [exact Hwf|]. split.
  - apply (Hlast (AString "a") (num 3) [(AString "a", num 1); (AString "b", num 2)] []).
    + reflexivity.
    + apply not_elem_of_nil.
  - apply Habs. apply (bool_decide_unpack _). vm_compute. exact I.
Defined.

(** ** array, keyArray and the Map interface *)

Lemma data_has_keys k (d : MapData) : data_has k d = bool_decide (k ∈ keys d).
Proof.
  unfold keys. induction d as [|[[k' v']|] d IH]; cbn [data_has].
  - done.
  - rewrite entries_cons_Some, fmap_cons. cbn [fst]. unfold same_value_zero.
    destruct (decide (k' = k)) as [->|Hne].
    + rewrite bool_decide_eq_true_2 by done. symmetry.
      apply bool_decide_eq_true_2. by left.
    + rewrite bool_decide_eq_false_2 by done. rewrite IH.
      apply bool_decide_ext. rewrite elem_of_cons. split; [tauto|].
      intros [?|?]; [congruence|done].
  - by rewrite entries_cons_None.
Qed.

Lemma Map_has_lookup (h : heap) this d k :
  h !! this = Some d -> Map_has this k h = (Ok (data_has k d), h).
Proof. intros Hd. unfold Map_has. by mrun. Qed.

(** X3: on a Store, [array()] and [keyArray()] have as many elements as
    [size], the keys are distinct, and they are aligned: the value at a
    position of [array()] is what [get] returns for the key at that position
    of [keyArray()], a key the Store [has]. The Store is not changed. *)
Theorem X3_array_keyArray_aligned (h : heap) (this : loc) (d : MapData) :
  h !! this = Some d -> wf_data d ->
  exists (vs : list jsval) (ks : list atom),
    array this h = (Ok vs, h) /\
    keyArray this h = (Ok ks, h) /\
    Map_size this h = (Ok (Z.of_nat (length vs)), h) /\
    length ks = length vs /\
    NoDup ks /\
    forall (i : nat) k, ks !! i = Some k ->
      exists v, vs !! i = Some v /\
                Map_get this k h = (Ok v, h) /\
                Map_has this k h = (Ok true, h).
Proof.
  intros Hd Hwf. exists (entries d).*2, (keys d).
  rewrite (array_lookup h this d Hd), (keyArray_lookup h this d Hd).
  rewrite (Map_size_lookup h this d Hd). unfold data_size, keys.
  rewrite !length_fmap. repeat split; [done|].
  intros i k Hi. rewrite list_lookup_fmap in Hi.
  destruct (entries d !! i) as [[k' v]|] eqn:Hkv; [|done].
  injection Hi as ->. exists v.
  assert (Hin : (k, v) ∈ entries d) by (by eapply list_elem_of_lookup_2).
  split; [by rewrite list_lookup_fmap, Hkv|]. split.
  - rewrite (Map_get_lookup h this d k Hd). by rewrite (data_get_lookup k v).
  - rewrite (Map_has_lookup h this d k Hd), data_has_keys.
    rewrite bool_decide_eq_true_2; [done|].
    apply list_elem_of_fmap. by exists (k, v).
Qed.

Lemma X3_array_keyArray_aligned_witness :
  exists (vs : list jsval) (ks : list atom),
    array 1%positive abc_heap = (Ok vs, abc_heap) /\
    keyArray 1%positive abc_heap = (Ok ks, abc_heap) /\
    ks !! 1%nat = Some (AString "b") /\
    exists v, vs !! 1%nat = Some v /\
              Map_get 1%positive (AString "b") abc_heap = (Ok v, abc_heap).
Proof.
  destruct (X3_array_keyArray_aligned abc_heap 1%positive abc_data eq_refl abc_wf)
    as (vs & ks & Harr & Hkeys & _ & _ & _ & Hal).
  exists vs, ks. split; [exact Harr|]. split; [exact Hkeys|].
  assert (Hk : ks !! 1%nat = Some (AString "b")).
  { assert (Heq : ks = keys abc_data).
    { rewrite (keyArray_lookup abc_heap 1%positive abc_data eq_refl) in Hkeys.
      by injection Hkeys. }
    by rewrite Heq. }
  split; [exact Hk|].
  destruct (Hal 1%nat (AString "b") Hk) as (v & Hv & Hget & _).
  by exists v.
Defined.

(** ** concat with any number of Stores *)

Lemma first_pair_head (h : heap) s kv :
  yields_first h s kv -> first_pair s h = (Ok kv, h).
Proof.
  intros (d & Hd & Hhead). destruct (entries d) as [|kv' rest] eqn:He; [done|].
  injection Hhead as ->. by eapply first_pair_lookup.
Qed.

Lemma yields_first_insert (h : heap) l (d : MapData) s kv :
  h !! l = None -> yields_first h s kv -> yields_first (<[l := d]> h) s kv.
Proof.
  intros Hl (ds & Hs & Hhead). exists ds. split; [|done].
  rewrite lookup_insert_ne; [done|]. congruence.
Qed.

Lemma concat_loop (l : loc) (h0 : heap) (Bs : list loc)
    (firsts : list (atom * jsval)) (dl : MapData) :
  h0 !! l = None -> Forall2 (yields_first h0) Bs firsts ->
  for_of_array Bs (fun s => kv <- first_pair s ;; Map_set l kv.1 kv.2)
    (<[l := dl]> h0)
  = (Ok tt, <[l := set_pairs firsts dl]> h0).
Proof.
  intros Hl HBs. revert dl.
  induction HBs as [|B kv Bs firsts HB _ IH]; intros dl; [done|].
  cbn [for_of_array set_pairs fold_left].
  rewrite (bind_ok _ _ _ (<[l := data_set kv.1 kv.2 dl]> h0) tt).
  - apply IH.
  - rewrite (bind_ok _ _ _ _ _
               (first_pair_head _ B kv (yields_first_insert h0 l dl B kv Hl HB))).
    rewrite (Map_set_lookup _ l dl) by apply lookup_insert_eq.
    by rewrite insert_insert_eq.
Qed.

Lemma bind_throw {A B} (m : M A) (f : A -> M B) (h h' : heap) (e : error) :
  m h = (Throw e, h') -> bind m f h = (Throw e, h').
Proof. intros Hm. unfold bind. by rewrite Hm. Qed.

Lemma first_pair_empty (h : heap) s d :
  h !! s = Some d -> entries d = [] ->
  first_pair s h = (Throw (TypeError "undefined is not iterable"), h).
Proof. intros Hd He. unfold first_pair. mrun. by rewrite He. Qed.

Lemma concat_loop_empty (l : loc) (h0 : heap) (Bs1 Bs2 : list loc) (B : loc)
    (firsts : list (atom * jsval)) (dl dB : MapData) :
  h0 !! l = None -> Forall2 (yields_first h0) Bs1 firsts ->
  h0 !! B = Some dB -> entries dB = [] ->
  for_of_array (Bs1 ++ B :: Bs2)
    (fun s => kv <- first_pair s ;; Map_set l kv.1 kv.2) (<[l := dl]> h0)
  = (Throw (TypeError "undefined is not iterable"),
     <[l := set_pairs firsts dl]> h0).
Proof.
  intros Hl HBs HB He. revert dl.
  induction HBs as [|B1 kv Bs1 firsts HB1 _ IH]; intros dl.
  - cbn [app for_of_array]. apply bind_throw, bind_throw.
    apply (first_pair_empty _ B dB); [|done].
    rewrite lookup_insert_ne; [done|]. congruence.
  - cbn [app for_of_array set_pairs fold_left].
    rewrite (bind_ok _ _ _ (<[l := data_set kv.1 kv.2 dl]> h0) tt).
    + apply IH.
    + rewrite (bind_ok _ _ _ _ _
                 (first_pair_head _ B1 kv (yields_first_insert h0 l dl B1 kv Hl HB1))).
      rewrite (Map_set_lookup _ l dl) by apply lookup_insert_eq.
      by rewrite insert_insert_eq.
Qed.

(** X4: [A.concat(B1, ..., Bn)] with Stores that are not empty returns a new
    Store: the clone of A after [set] of the first pair of each Bi in turn.
    It has no duplicate key; its keys are those of A and of the first pairs;
    for the key of a first pair [get] returns the value of the last such pair
    and for any other key what A has. A and every Bi are as before. *)
Theorem X4_concat_first_pairs (fuel : nat) (h : heap) (A : loc) (dA : MapData)
    (Bs : list loc) (firsts : list (atom * jsval)) :
  h !! A = Some dA -> wf_data dA -> (length dA < fuel)%nat ->
  Forall2 (yields_first h) Bs firsts ->
  exists (l : loc) (d : MapData),
    concat fuel A Bs h = (Ok l, <[l := d]> h) /\
    (l ∉ dom h) /\
    d = set_pairs firsts (Some <$> entries dA) /\
    wf_data d /\
    (forall k, k ∈ keys d <-> k ∈ keys dA \/ k ∈ firsts.*1) /\
    (forall k v pre post, firsts = pre ++ (k, v) :: post -> k ∉ post.*1 ->
       data_get k d = v) /\
    (forall k, k ∉ firsts.*1 -> data_get k d = data_get k dA).
Proof.
  intros HA Hwf Hfuel HBs.
  exists (fresh (dom h)), (set_pairs firsts (Some <$> entries dA)).
  assert (Hl : h !! fresh (dom h) = None)
    by (apply not_elem_of_dom, is_fresh).
  split.
  - unfold concat.
    rewrite (bind_ok _ _ _ _ _ (clone_run fuel h A dA HA Hwf Hfuel)).
    by rewrite (bind_ok _ _ _ _ _ (concat_loop _ h Bs firsts _ Hl HBs)).
  - split; [apply is_fresh|]. split; [done|]. split.
    + apply wf_set_pairs. apply wf_data_Some. exact Hwf.
    + split; [|split].
      * intros k. rewrite keys_set_pairs. unfold keys at 1.
        by rewrite entries_Some.
      * intros k v pre post -> Hk. by apply data_get_set_pairs_last.
      * intros k Hk. rewrite data_get_set_pairs_absent by done.
        destruct (decide (k ∈ keys dA)) as [Hin|Hnin].
        -- apply list_elem_of_fmap in Hin as ([k' v] & -> & Hin). cbn [fst].
           rewrite (data_get_lookup _ v dA Hwf Hin).
           apply data_get_lookup; [by apply wf_data_Some|].
           by rewrite entries_Some.
        -- rewrite (data_get_absent k dA Hnin). apply data_get_absent.
           unfold keys. by rewrite entries_Some.
Qed.

Lemma X4_concat_first_pairs_witness :
  exists (l : loc) (d : MapData),
    concat 2 1%positive [2%positive; 2%positive] xy_heap = (Ok l, <[l := d]> xy_heap) /\
    wf_data d /\
    data_get (AString "y") d = num 2 /\
    data_get (AString "x") d = num 1.
Proof.
  destruct (X4_concat_first_pairs 2 xy_heap 1%positive [Some (AString "x", num 1)]
              [2%positive; 2%positive]
              [(AString "y", num 2); (AString "y", num 2)] eq_refl)
    as (l & d & Hrun & _ & _ & Hwf & _ & Hlast & Hother).
  - apply (bool_decide_unpack _). vm_compute. exact I.
  - cbn. lia.
  - repeat constructor;
      by exists [Some (AString "y", num 2); Some (AString "z", num 3)].
  - exists l, d. split; [exact Hrun|]. split; [exact Hwf|]. split.
    + apply (Hlast _ _ [(AString "y", num 2)] []); [reflexivity|].
      apply not_elem_of_nil.
    + rewrite Hother; [reflexivity|].
      apply (bool_decide_unpack _). vm_compute. exact I.
Defined.

(** X5: [A.concat(B1, ..., Bn)] throws a TypeError at the first Bi that is an
    empty Store: destructuring its first pair fails. A and the arguments are
    as before; the clone made so far stays in the heap, out of reach. *)
Theorem X5_concat_empty_argument (fuel : nat) (h : heap) (A B : loc)
    (dA dB : MapData) (Bs1 Bs2 : list loc) (firsts : list (atom * jsval)) :
  h !! A = Some dA -> wf_data dA -> (length dA < fuel)%nat ->
  Forall2 (yields_first h) Bs1 firsts ->
  h !! B = Some dB -> entries dB = [] ->
  exists (msg : string) (l : loc) (d : MapData),
    concat fuel A (Bs1 ++ B :: Bs2) h = (Throw (TypeError msg), <[l := d]> h) /\
    (l ∉ dom h).
Proof.
  intros HA Hwf Hfuel HBs HB He.
  exists "undefined is not iterable", (fresh (dom h)),
    (set_pairs firsts (Some <$> entries dA)).
  assert (Hl : h !! fresh (dom h) = None)
    by (apply not_elem_of_dom, is_fresh).
  split; [|apply is_fresh]. unfold concat.
  rewrite (bind_ok _ _ _ _ _ (clone_run fuel h A dA HA Hwf Hfuel)).
  apply bind_throw.
  apply (concat_loop_empty _ h Bs1 Bs2 B firsts _ dB Hl HBs HB He).
Qed.

Lemma X5_concat_empty_argument_witness :
  exists (msg : string) (l : loc) (d : MapData),
    concat 2 1%positive [2%positive; 3%positive] xy_empty_heap
    = (Throw (TypeError msg), <[l := d]> xy_empty_heap) /\
    (l ∉ dom xy_empty_heap).
Proof.
  apply (X5_concat_empty_argument 2 xy_empty_heap 1%positive 3%positive
           [Some (AString "x", num 1)] [] [2%positive] []
           [(AString "y", num 2)] eq_refl).
  - apply (bool_decide_unpack _). vm_compute. exact I.
  - cbn. lia.
  - repeat constructor.
    by exists [Some (AString "y", num 2); Some (AString "z", num 3)].
  - reflexivity.
  - reflexivity.
Defined.

(** ** indexOf and lastIndexOf with a start position *)

Lemma index_from_pos x (arr : list atom) (pos : nat) i k :
  x <> ANumber NaN -> NoDup arr -> arr !! pos = Some x ->
  index_from x arr i k = if k <=? i + Z.of_nat pos then i + Z.of_nat pos else -1.
Proof.
  intros Hx. revert pos i.
  induction arr as [|y ys IH]; intros pos i Hnd Hpos; [done|].
  apply NoDup_cons in Hnd as [Hy Hnd]. cbn [index_from].
  destruct pos as [|pos].
  - injection Hpos as ->. rewrite is_strictly_equal_refl, andb_true_r by done.
    replace (i + Z.of_nat 0) with i by lia.
    destruct (k <=? i); [done|]. by apply index_from_absent.
  - cbn in Hpos. destruct (is_strictly_equal y x) eqn:Heq.
    + apply is_strictly_equal_true in Heq. subst y.
      exfalso. apply Hy. by eapply list_elem_of_lookup_2.
    + rewrite andb_false_r, (IH pos) by done.
      by replace (i + 1 + Z.of_nat pos) with (i + Z.of_nat (S pos)) by lia.
Qed.

Lemma last_index_upto_pos x (arr : list atom) (pos : nat) i k :
  x <> ANumber NaN -> NoDup arr -> arr !! pos = Some x -> 0 <= i ->
  last_index_upto x arr i k
  = if i + Z.of_nat pos <=? k then i + Z.of_nat pos else -1.
Proof.
  intros Hx. revert pos i.
  induction arr as [|y ys IH]; intros pos i Hnd Hpos Hi; [done|].
  apply NoDup_cons in Hnd as [Hy Hnd]. cbn [last_index_upto].
  destruct pos as [|pos].
  - injection Hpos as ->. rewrite last_index_upto_absent by done.
    rewrite is_strictly_equal_refl, andb_true_r by done.
    replace (i + Z.of_nat 0) with i by lia. cbn. by destruct (i <=? k).
  - cbn in Hpos. rewrite (IH pos) by (done || lia).
    replace (i + 1 + Z.of_nat pos) with (i + Z.of_nat (S pos)) by lia.
    destruct (Z.leb_spec (i + Z.of_nat (S pos)) k) as [Hle|Hgt].
    + destruct (Z.leb_spec 0 (i + Z.of_nat (S pos))); [done|lia].
    + cbn. destruct (is_strictly_equal y x) eqn:Heq; [|by rewrite andb_false_r].
      apply is_strictly_equal_true in Heq. subst y.
      exfalso. apply Hy. by eapply list_elem_of_lookup_2.
Qed.

(** X6: for a key other than NaN at position [i] of a Store, [indexOf(key,
    n)] with an integer [n] returns [i] when the search starts at or before
    [i] and -1 otherwise, where the search starts at [n], or at
    [max(size + n, 0)] for a negative [n]; [lastIndexOf(key, n)] returns [i]
    when [i <= n], or [i <= size + n] for a negative [n], and -1 otherwise. *)
Theorem X6_indexOf_from (h : heap) (this : loc) (d : MapData) (key : atom)
    (i : nat) (n : Z) :
  h !! this = Some d -> wf_data d -> key <> ANumber NaN ->
  keys d !! i = Some key ->
  indexOf this key (Some (Int n)) h
  = (Ok (if (if 0 <=? n then n else Z.max (data_size d + n) 0) <=? Z.of_nat i
         then Z.of_nat i else -1), h) /\
  lastIndexOf this key (Some (Int n)) h
  = (Ok (if Z.of_nat i <=? (if 0 <=? n then n else data_size d + n)
         then Z.of_nat i else -1), h).
Proof.
  intros Hd Hwf Hnan Hi.
  assert (Hlen : data_size d = Z.of_nat (length (keys d)))
    by (unfold data_size, keys; by rewrite length_fmap).
  pose proof (lookup_lt_Some _ _ _ Hi) as Hlt.
  unfold indexOf, lastIndexOf. cbn [default from_option]. unfold id. mrun.
  rewrite Hlen. destruct (Z.eqb_spec (Z.of_nat (length (keys d))) 0) as [?|_]; [lia|].
  mrun. unfold Array_indexOf, Array_lastIndexOf.
  destruct (Z.eqb_spec (Z.of_nat (length (keys d))) 0) as [?|_]; [lia|].
  cbn [to_integer_or_infinity].
  rewrite (index_from_pos key (keys d) i) by done.
  rewrite (last_index_upto_pos key (keys d) i) by (done || lia).
  rewrite !Z.add_0_l. split; [done|]. do 2 f_equal.
  destruct (Z.leb_spec 0 n) as [Hn|Hn]; [|done].
  destruct (Z.leb_spec (Z.of_nat i) n), (Z.leb_spec (Z.of_nat i)
    (Z.min n (Z.of_nat (length (keys d)) - 1))); (done || lia).
Qed.

Lemma X6_indexOf_from_witness :
  indexOf 1%positive (AString "b") (Some (Int 2)) abc_heap = (Ok (-1), abc_heap) /\
  lastIndexOf 1%positive (AString "b") (Some (Int (-1))) abc_heap = (Ok 1, abc_heap).
Proof.
  split.
  - apply (X6_indexOf_from abc_heap 1%positive abc_data (AString "b") 1 2
             eq_refl abc_wf); [discriminate|reflexivity].
  - apply (X6_indexOf_from abc_heap 1%positive abc_data (AString "b") 1 (-1)
             eq_refl abc_wf); [discriminate|reflexivity].
Defined.

Lemma index_from_sound x (arr : list atom) i k :
  0 <= i ->
  index_from x arr i k = -1 \/
  exists pos : nat, index_from x arr i k = i + Z.of_nat pos /\ arr !! pos = Some x.
Proof.
  revert i. induction arr as [|y ys IH]; intros i Hi; [by left|].
  cbn [index_from]. destruct ((k <=? i) && is_strictly_equal y x) eqn:Hc.
  - right. exists 0%nat. apply andb_true_iff in Hc as [_ Heq].
    apply is_strictly_equal_true in Heq. subst. split; [lia|done].
  - destruct (IH (i + 1)) as [Hr|(pos & Hr & Hpos)]; [lia|by left|].
    right. exists (S pos). split; [lia|done].
Qed.

Lemma last_index_upto_sound x (arr : list atom) i k :
  0 <= i ->
  last_index_upto x arr i k = -1 \/
  exists pos : nat,
    last_index_upto x arr i k = i + Z.of_nat pos /\ arr !! pos = Some x.
Proof.
  revert i. induction arr as [|y ys IH]; intros i Hi; [by left|].
  cbn [last_index_upto].
  destruct (IH (i + 1)) as [Hr|(pos & Hr & Hpos)]; [lia| |].
  - rewrite Hr. cbn. destruct ((i <=? k) && is_strictly_equal y x) eqn:Hc.
    + right. exists 0%nat. apply andb_true_iff in Hc as [_ Heq].
      apply is_strictly_equal_true in Heq. subst. split; [lia|done].
    + by left.
  - rewrite Hr. destruct (Z.leb_spec 0 (i + 1 + Z.of_nat pos)); [|lia].
    right. exists (S pos). split; [lia|done].
Qed.

(** X7: whatever the key and the start position, [indexOf] and
    [lastIndexOf] return and do not change the Store; the result is -1 or a
    position of [keyArray()] that holds the key. *)
Theorem X7_indexOf_sound (h : heap) (this : loc) (d : MapData) (key : atom)
    (fromIndex : option number) :
  h !! this = Some d ->
  exists r r' : Z,
    indexOf this key fromIndex h = (Ok r, h) /\
    lastIndexOf this key fromIndex h = (Ok r', h) /\
    (r = -1 \/ exists pos : nat, r = Z.of_nat pos /\ keys d !! pos = Some key) /\
    (r' = -1 \/ exists pos : nat, r' = Z.of_nat pos /\ keys d !! pos = Some key).
Proof.
  intros Hd.
  assert (Hi : forall k, index_from key (keys d) 0 k = -1 \/
             exists pos : nat, index_from key (keys d) 0 k = Z.of_nat pos
                               /\ keys d !! pos = Some key).
  { intros k. destruct (index_from_sound key (keys d) 0 k) as [?|(pos & ? & ?)];
      [lia|by left|]. right. exists pos. split; [lia|done]. }
  assert (Hl : forall k, last_index_upto key (keys d) 0 k = -1 \/
             exists pos : nat, last_index_upto key (keys d) 0 k = Z.of_nat pos
                               /\ keys d !! pos = Some key).
  { intros k. destruct (last_index_upto_sound key (keys d) 0 k)
      as [?|(pos & ? & ?)]; [lia|by left|]. right. exists pos. split; [lia|done]. }
  assert (Hfin : forall n m,
            exists r r' : Z,
              (if data_size d =? 0 then ret (-1)
               else keys0 <- keyArray this ;; ret (Array_indexOf keys0 key n)) h
              = (Ok r, h) /\
              (if data_size d =? 0 then ret (-1)
               else keys0 <- keyArray this ;; ret (Array_lastIndexOf keys0 key m)) h
              = (Ok r', h) /\
              (r = -1 \/ exists pos : nat, r = Z.of_nat pos
                                           /\ keys d !! pos = Some key) /\
              (r' = -1 \/ exists pos : nat, r' = Z.of_nat pos
                                            /\ keys d !! pos = Some key)).
  { intros n m. destruct (data_size d =? 0).
    - exists (-1), (-1). repeat split; by left.
    - mrun. eexists _, _. split; [reflexivity|]. split; [reflexivity|].
      unfold Array_indexOf, Array_lastIndexOf.
      destruct (Z.of_nat (length (keys d)) =? 0); [split; by left|].
      split.
      + destruct (to_integer_or_infinity n); first [apply Hi | by left].
      + destruct (to_integer_or_infinity m); first [apply Hl | by left]. }
  unfold indexOf, lastIndexOf. destruct fromIndex as [n|].
  - mrun. apply Hfin.
  - mrun. erewrite (bind_ok (bind _ _)) by (mrun; done). mrun. apply Hfin.
Qed.

Lemma X7_indexOf_sound_witness :
  exists r r' : Z,
    indexOf 1%positive (AString "c") (Some PosInfinity) abc_heap = (Ok r, abc_heap) /\
    lastIndexOf 1%positive (AString "c") (Some PosInfinity) abc_heap
      = (Ok r', abc_heap) /\
    (r = -1 \/ exists pos : nat, r = Z.of_nat pos
                                 /\ keys abc_data !! pos = Some (AString "c")) /\
    (r' = -1 \/ exists pos : nat, r' = Z.of_nat pos
                                  /\ keys abc_data !! pos = Some (AString "c")).
Proof.
  apply (X7_indexOf_sound abc_heap 1%positive abc_data (AString "c")
           (Some PosInfinity) eq_refl).
Defined.

Lemma indexOf_present (h : heap) (this : loc) (d : MapData) (key : atom) (i : nat) :
  h !! this = Some d -> wf_data d -> key <> ANumber NaN ->
  keys d !! i = Some key ->
  indexOf this key None h = (Ok (Z.of_nat i), h).
Proof.
  intros Hd Hwf Hnan Hi.
  assert (Hlen : data_size d = Z.of_nat (length (keys d)))
    by (unfold data_size, keys; by rewrite length_fmap).
  pose proof (lookup_lt_Some _ _ _ Hi) as Hlt.
  unfold indexOf. cbn [default from_option]. mrun. rewrite Hlen.
  destruct (Z.eqb_spec (Z.of_nat (length (keys d))) 0) as [?|_]; [lia|].
  mrun. unfold Array_indexOf.
  destruct (Z.eqb_spec (Z.of_nat (length (keys d))) 0) as [?|_]; [lia|].
  cbn [to_integer_or_infinity]. cbn [Z.leb Z.compare].
  by rewrite (index_from_found key (keys d) i) by (done || lia).
Qed.

Lemma indexOf_absent (h : heap) (this : loc) (d : MapData) (key : atom) :
  h !! this = Some d -> key ∉ keys d ->
  indexOf this key None h = (Ok (-1), h).
Proof.
  intros Hd Habs. unfold indexOf. cbn [default from_option]. mrun.
  destruct (data_size d =? 0); [done|]. mrun. unfold Array_indexOf.
  destruct (Z.of_nat (length (keys d)) =? 0); [done|].
  cbn [to_integer_or_infinity]. by rewrite index_from_absent.
Qed.

(** X8: for a key other than NaN, [indexOf(key)] is -1 exactly when
    [has(key)] is false. *)
Theorem X8_indexOf_agrees_with_has (h : heap) (this : loc) (d : MapData)
    (key : atom) :
  h !! this = Some d -> wf_data d -> key <> ANumber NaN ->
  exists (r : Z) (b : bool),
    indexOf this key None h = (Ok r, h) /\
    Map_has this key h = (Ok b, h) /\
    (b = false <-> r = -1).
Proof.
  intros Hd Hwf Hnan. rewrite (Map_has_lookup h this d key Hd), data_has_keys.
  destruct (decide (key ∈ keys d)) as [Hin|Hnin].
  - apply list_elem_of_lookup in Hin as [i Hi].
    exists (Z.of_nat i), true. rewrite (indexOf_present h this d key i) by done.
    rewrite bool_decide_eq_true_2
      by (apply list_elem_of_lookup; by exists i).
    repeat split; [done|lia].
  - exists (-1), false. rewrite (indexOf_absent h this d key) by done.
    by rewrite bool_decide_eq_false_2.
Qed.

Lemma X8_indexOf_agrees_with_has_witness :
  exists (r : Z) (b : bool),
    indexOf 1%positive (AString "z") None abc_heap = (Ok r, abc_heap) /\
    Map_has 1%positive (AString "z") abc_heap = (Ok b, abc_heap) /\
    (b = false <-> r = -1).
Proof.
  apply (X8_indexOf_agrees_with_has abc_heap 1%positive abc_data (AString "z")
           eq_refl abc_wf).
  discriminate.
Defined.

(** ** map with a function of its arguments *)

Lemma fold_map_pure (f : func) g (C : loc) (d : MapData) (thisArg : jsval)
    (es : list (atom * jsval)) (acc : list jsval) (i : Z) (h : heap) :
  (forall t args h, f t args h = (Ok (g t args (h !! C)), h)) ->
  h !! C = Some d ->
  fold_entries (fun (st : list jsval * Z) key value =>
      x <- call_entry (bind_if_given f thisArg) C value key st.2 ;;
      ret (st.1 ++ [x], st.2 + 1)) es (acc, i) h
  = (Ok (acc ++ map_results
                  (fun v k j => g thisArg [v; JAtom k; num j; JAtom (AObject C)]
                                  (Some d)) es i,
         i + Z.of_nat (length es)), h).
Proof.
  intros Hpure HC. revert acc i.
  induction es as [|[k v] es IH]; intros acc i.
  - cbn [fold_entries map_results length]. rewrite app_nil_r, ret_run.
    by replace (i + Z.of_nat 0) with i by lia.
  - cbn [fold_entries map_results length fst snd].
    rewrite (bind_ok _ _ _ _ _
               (bind_ok _ _ _ _ _ (call_entry_pure f g C d thisArg Hpure h v k i HC))).
    rewrite IH, <- app_assoc.
    by replace (i + 1 + Z.of_nat (length es)) with (i + Z.of_nat (S (length es)))
      by lia.
Qed.

Lemma map_results_length {T} (p : jsval -> atom -> Z -> T) es i :
  length (map_results p es i) = length es.
Proof.
  revert i. induction es as [|kv es IH]; intros i; [done|].
  cbn [map_results length]. by rewrite IH.
Qed.

Lemma map_results_lookup {T} (p : jsval -> atom -> Z -> T) es i (j : nat) k v :
  es !! j = Some (k, v) ->
  map_results p es i !! j = Some (p v k (i + Z.of_nat j)).
Proof.
  revert i j. induction es as [|kv es IH]; intros i j Hj; [done|].
  destruct j as [|j].
  - injection Hj as ->. cbn. do 2 f_equal. lia.
  - cbn [map_results]. change (map_results p es (i + 1) !! j
                               = Some (p v k (i + Z.of_nat (S j)))).
    rewrite (IH (i + 1) j Hj). do 2 f_equal. lia.
Qed.

(** X9: with a callback that is a function of its arguments, [map] returns
    an array as long as [size] whose element at position [i] is what the
    callback returns for the value and the key at position [i], the index
    [i] and the Store; nothing in the heap changes. *)
Theorem X9_map_results (fuel : nat) (h : heap) (C : loc) (d : MapData)
    (f : func) (thisArg : jsval) :
  h !! C = Some d -> (length d < fuel)%nat -> pure_on C f ->
  exists rs : list jsval,
    map fuel C (Callable f) thisArg h = (Ok rs, h) /\
    Z.of_nat (length rs) = data_size d /\
    forall (i : nat) k v, entries d !! i = Some (k, v) ->
      exists r,
        rs !! i = Some r /\
        f thisArg [v; JAtom k; num (Z.of_nat i); JAtom (AObject C)] h = (Ok r, h).
Proof.
  intros HC Hfuel [g Hg].
  set (p := fun v k j => g thisArg [v; JAtom k; num j; JAtom (AObject C)] (Some d)).
  exists (map_results p (entries d) 0). split; [|split].
  - unfold map, map_with. cbv zeta.
    rewrite (bind_ok _ _ h h
               (map_results p (entries d) 0, 0 + Z.of_nat (length (entries d))));
      [done|].
    rewrite (for_of_map_fold (fun h' => h' = h) C d); [|by intros ? ->| |done|lia].
    + rewrite drop_0. by rewrite (fold_map_pure f g C d thisArg _ [] 0 h Hg HC).
    + intros acc k v h' ->.
      by rewrite (bind_ok _ _ _ _ _
                    (call_entry_pure f g C d thisArg Hg h v k acc.2 HC)).
  - unfold data_size. by rewrite map_results_length.
  - intros i k v Hi. exists (p v k (Z.of_nat i)). split.
    + by rewrite (map_results_lookup p _ 0 i k v Hi).
    + by rewrite Hg, HC.
Qed.

Lemma give_index_pure (C : loc) : pure_on C give_index.
Proof. by exists (fun _ args _ => nth 2 args undefined). Qed.

Lemma X9_map_results_witness :
  exists rs : list jsval,
    map 4 1%positive (Callable give_index) undefined abc_heap = (Ok rs, abc_heap) /\
    Z.of_nat (length rs) = data_size abc_data /\
    forall (i : nat) k v, entries abc_data !! i = Some (k, v) ->
      exists r,
        rs !! i = Some r /\
        give_index undefined [v; JAtom k; num (Z.of_nat i); JAtom (AObject 1%positive)]
          abc_heap = (Ok r, abc_heap).
Proof.
  apply (X9_map_results 4 abc_heap 1%positive abc_data give_index undefined eq_refl).
  - cbn. lia.
  - apply give_index_pure.
Defined.

(** ** What filter keeps and how split divides *)

Lemma select_sublist p keep (es : list (atom * jsval)) i :
  sublist (select p keep es i) es.
Proof.
  revert i. induction es as [|kv es IH]; intros i; [done|].
  cbn [select]. destruct (Bool.eqb _ _).
  - by apply sublist_skip.
  - by apply sublist_cons.
Qed.

Lemma select_elem p keep (es : list (atom * jsval)) i (j : nat) k v :
  NoDup es.*1 -> es !! j = Some (k, v) ->
  (k, v) ∈ select p keep es i <-> p v k (i + Z.of_nat j) = keep.
Proof.
  revert i j. induction es as [|[k0 v0] es IH]; intros i j Hnd Hj; [done|].
  rewrite fmap_cons in Hnd. cbn [fst] in Hnd.
  apply NoDup_cons in Hnd as [Hk0 Hnd]. cbn [select fst snd].
  destruct j as [|j].
  - injection Hj as -> ->. replace (i + Z.of_nat 0) with i by lia.
    assert (Hnot : (k, v) ∉ select p keep es (i + 1)).
    { intros Hin. apply Hk0. apply list_elem_of_fmap. exists (k, v).
      split; [done|]. eapply elem_of_sublist; [exact Hin|apply select_sublist]. }
    destruct (Bool.eqb (p v k i) keep) eqn:Heq.
    + apply Bool.eqb_prop in Heq. split; [done|]. intros _. by left.
    + apply Bool.eqb_false_iff in Heq. split; [done|]. by intros ?.
  - cbn in Hj. specialize (IH (i + 1) j Hnd Hj).
    replace (i + 1 + Z.of_nat j) with (i + Z.of_nat (S j)) in IH by lia.
    assert (Hne : (k, v) <> (k0, v0)).
    { intros [= -> ->]. apply Hk0. apply list_elem_of_fmap. exists (k0, v0).
      split; [done|]. by eapply list_elem_of_lookup_2. }
    destruct (Bool.eqb (p v0 k0 i) keep).
    + rewrite elem_of_cons, IH. split; [|by right]. by intros [?|?].
    + done.
Qed.

Lemma select_perm p (es : list (atom * jsval)) i :
  select p true es i ++ select p false es i ≡ₚ es.
Proof.
  revert i. induction es as [|kv es IH]; intros i; [done|].
  cbn [select]. destruct (p kv.2 kv.1 i); cbn [Bool.eqb].
  - cbn. by rewrite IH.
  - rewrite <- Permutation_middle. by rewrite IH.
Qed.

Lemma select_negb p p' (es : list (atom * jsval)) i :
  (forall v k j, p' v k j = negb (p v k j)) ->
  select p' true es i = select p false es i.
Proof.
  intros Hp. revert i. induction es as [|kv es IH]; intros i; [done|].
  cbn [select]. rewrite Hp, IH. by destruct (p kv.2 kv.1 i).
Qed.

Lemma wf_select p keep (d : MapData) i :
  wf_data d -> wf_data (Some <$> select p keep (entries d) i).
Proof.
  intros Hwf. apply wf_data_Some. eapply sublist_NoDup; [exact Hwf|].
  apply fmap_sublist, select_sublist.
Qed.

(** X10: with a predicate that is a function of its arguments, [filter]
    returns a new Store without duplicate keys whose pairs are pairs of the
    receiver in the order they have there; the pair at position [i] of the
    receiver is kept exactly when the predicate, called with its value, its
    key, [i] and the Store, returns a truthy value. The rest of the heap is
    as before. *)
Theorem X10_filter_keeps (fuel : nat) (h : heap) (C : loc) (d : MapData)
    (f : func) (thisArg : jsval) :
  h !! C = Some d -> wf_data d -> (length d < fuel)%nat -> pure_on C f ->
  exists (lf : loc) (df : MapData),
    filter fuel C (Callable f) thisArg h = (Ok lf, <[lf := df]> h) /\
    (lf ∉ dom h) /\
    wf_data df /\
    sublist (entries df) (entries d) /\
    forall (i : nat) k v, entries d !! i = Some (k, v) ->
      exists r,
        f thisArg [v; JAtom k; num (Z.of_nat i); JAtom (AObject C)] h = (Ok r, h) /\
        ((k, v) ∈ entries df <-> truthy r = true).
Proof.
  intros HC Hwf Hfuel [g Hg].
  exists (fresh (dom h)),
    (Some <$> select (verdict g thisArg C d) true (entries d) 0).
  split; [by apply filter_pure_run|]. split; [apply is_fresh|].
  split; [by apply wf_select|]. rewrite entries_Some.
  split; [apply select_sublist|].
  intros i k v Hi. eexists. split; [by rewrite Hg, HC|].
  by rewrite (select_elem _ true (entries d) 0 i k v Hwf Hi).
Qed.

Lemma X10_filter_keeps_witness :
  exists (lf : loc) (df : MapData),
    filter 4 1%positive (Callable greater_than_1) undefined abc_heap
    = (Ok lf, <[lf := df]> abc_heap) /\
    (lf ∉ dom abc_heap) /\
    wf_data df /\
    sublist (entries df) (entries abc_data) /\
    forall (i : nat) k v, entries abc_data !! i = Some (k, v) ->
      exists r,
        greater_than_1 undefined
          [v; JAtom k; num (Z.of_nat i); JAtom (AObject 1%positive)] abc_heap
        = (Ok r, abc_heap) /\
        ((k, v) ∈ entries df <-> truthy r = true).
Proof.
  apply (X10_filter_keeps 4 abc_heap 1%positive abc_data greater_than_1 undefined
           eq_refl abc_wf).
  - cbn. lia.
  - apply greater_than_1_pure.
Defined.

(** X11: with a predicate that is a function of its arguments, [split]
    returns two new Stores that divide the pairs of the receiver: each keeps
    the order of the receiver, together they hold every pair once, no key is
    in both, and the pair at position [i] is in the first when the predicate
    returns a truthy value for it and in the second when it does not. *)
Theorem X11_split_partition (fuel : nat) (h : heap) (C : loc) (d : MapData)
    (f : func) (thisArg : jsval) :
  h !! C = Some d -> wf_data d -> (length d < fuel)%nat -> pure_on C f ->
  exists (l1 l2 : loc) (d1 d2 : MapData),
    split fuel C (Callable f) thisArg h
    = (Ok (l1, l2), <[l2 := d2]> (<[l1 := d1]> h)) /\
    (l1 ∉ dom h) /\ (l2 ∉ dom h) /\ l1 <> l2 /\
    sublist (entries d1) (entries d) /\
    sublist (entries d2) (entries d) /\
    entries d1 ++ entries d2 ≡ₚ entries d /\
    (forall k, k ∈ keys d1 -> k ∉ keys d2) /\
    forall (i : nat) k v, entries d !! i = Some (k, v) ->
      exists r,
        f thisArg [v; JAtom k; num (Z.of_nat i); JAtom (AObject C)] h = (Ok r, h) /\
        ((k, v) ∈ entries d1 <-> truthy r = true) /\
        ((k, v) ∈ entries d2 <-> truthy r = false).
Proof.
  intros HC Hwf Hfuel [g Hg].
  set (p := verdict g thisArg C d).
  set (l1 := fresh (dom h)).
  set (l2 := fresh (dom (<[l1 := []]> h))).
  assert (Hl2 : l2 ∉ dom (<[l1 := []]> h)) by apply is_fresh.
  rewrite dom_insert_L in Hl2.
  exists l1, l2, (Some <$> select p true (entries d) 0),
    (Some <$> select p false (entries d) 0).
  split; [by apply (split_pure_run f g C d thisArg fuel h)|].
  split; [apply is_fresh|]. split; [set_solver|]. split; [set_solver|].
  rewrite !entries_Some.
  split; [apply select_sublist|]. split; [apply select_sublist|].
  split; [apply select_perm|]. split.
  - unfold keys. rewrite !entries_Some. intros k Hk1 Hk2.
    assert (Hnd : NoDup (select p true (entries d) 0
                         ++ select p false (entries d) 0).*1).
    { rewrite select_perm. exact Hwf. }
    rewrite fmap_app in Hnd. apply NoDup_app in Hnd as (_ & Hdis & _).
    by apply (Hdis k).
  - intros i k v Hi. eexists. split; [by rewrite Hg, HC|].
    rewrite (select_elem p true (entries d) 0 i k v Hwf Hi).
    by rewrite (select_elem p false (entries d) 0 i k v Hwf Hi).
Qed.

Lemma X11_split_partition_witness :
  exists (l1 l2 : loc) (d1 d2 : MapData),
    split 4 1%positive (Callable greater_than_1) undefined abc_heap
    = (Ok (l1, l2), <[l2 := d2]> (<[l1 := d1]> abc_heap)) /\
    l1 <> l2 /\
    entries d1 ++ entries d2 ≡ₚ entries abc_data /\
    (forall k, k ∈ keys d1 -> k ∉ keys d2).
Proof.
  destruct (X11_split_partition 4 abc_heap 1%positive abc_data greater_than_1
              undefined eq_refl abc_wf)
    as (l1 & l2 & d1 & d2 & Hrun & _ & _ & Hne & _ & _ & Hperm & Hdis & _).
  - cbn. lia.
  - apply greater_than_1_pure.
  - by exists l1, l2, d1, d2.
Defined.

(** X12: with a predicate that is a function of its arguments, the second
    Store of [split(P)] holds the pairs of [filter] with the negated
    predicate, in the same order. *)
Theorem X12_split_second_is_filter_of_negation (fuel : nat) (h : heap) (C : loc)
    (d : MapData) (f : func) (thisArg : jsval) :
  h !! C = Some d -> wf_data d -> (length d < fuel)%nat -> pure_on C f ->
  exists (lf l1 l2 : loc) (hf hs : heap),
    filter fuel C (Callable (negate f)) thisArg h = (Ok lf, hf) /\
    split fuel C (Callable f) thisArg h = (Ok (l1, l2), hs) /\
    is_Some (hf !! lf) /\ is_Some (hs !! l2) /\
    contents hf lf = contents hs l2.
Proof.
  intros HC Hwf Hfuel [g Hg].
  set (g' := fun t args (o : option MapData) =>
               JAtom (ABool (negb (truthy (g t args o))))).
  assert (Hg' : forall t args h, negate f t args h = (Ok (g' t args (h !! C)), h)).
  { intros t args h0. unfold negate. by rewrite (bind_ok _ _ _ _ _ (Hg t args h0)). }
  eexists _, _, _, _, _.
  split; [by apply (filter_pure_run (negate f) g' C d thisArg fuel h)|].
  split; [by apply (split_pure_run f g C d thisArg fuel h)|].
  unfold contents. rewrite !lookup_insert_eq. split; [done|]. split; [done|].
  rewrite !entries_Some. apply select_negb. intros v k j.
  unfold verdict, g'. cbn [truthy]. done.
Qed.

Lemma X12_split_second_is_filter_of_negation_witness :
  exists (lf l1 l2 : loc) (hf hs : heap),
    filter 4 1%positive (Callable (negate greater_than_1)) undefined abc_heap
    = (Ok lf, hf) /\
    split 4 1%positive (Callable greater_than_1) undefined abc_heap
    = (Ok (l1, l2), hs) /\
    is_Some (hf !! lf) /\ is_Some (hs !! l2) /\
    contents hf lf = contents hs l2.
Proof.
  apply (X12_split_second_is_filter_of_negation 4 abc_heap 1%positive abc_data
           greater_than_1 undefined eq_refl abc_wf).
  - cbn. lia.
  - apply greater_than_1_pure.
Defined.

(** ** flat *)

Lemma on_values_keys g (es : list (atom * jsval)) : (on_values g es).*1 = es.*1.
Proof.
  unfold on_values. rewrite <- list_fmap_compose. by apply list_fmap_ext.
Qed.

Lemma on_values_app g (es1 es2 : list (atom * jsval)) :
  on_values g (es1 ++ es2) = on_values g es1 ++ on_values g es2.
Proof. unfold on_values. apply fmap_app. Qed.

Lemma data_set_middle k v v' (pre post : list (atom * jsval)) :
  k ∉ pre.*1 ->
  data_set k v' (Some <$> (pre ++ (k, v) :: post))
  = Some <$> (pre ++ (k, v') :: post).
Proof.
  induction pre as [|[k0 v0] pre IH]; intros Hk.
  - cbn. unfold same_value_zero. by rewrite bool_decide_eq_true_2.
  - rewrite fmap_cons in Hk. cbn [fst] in Hk.
    apply not_elem_of_cons in Hk as [Hne Hk].
    rewrite <- !app_comm_cons, !fmap_cons. cbn [data_set].
    unfold same_value_zero. rewrite bool_decide_eq_false_2 by congruence.
    by rewrite IH.
Qed.

(** Setting every key of a Store to a new value keeps keys and order. *)
Lemma set_pairs_on_values g (es1 es2 : list (atom * jsval)) :
  NoDup (es1 ++ es2).*1 ->
  set_pairs (on_values g es2) (Some <$> (on_values g es1 ++ es2))
  = Some <$> on_values g (es1 ++ es2).
Proof.
  revert es1. induction es2 as [|[k v] es2 IH]; intros es1 Hnd.
  - by rewrite !app_nil_r.
  - pose proof (NoDup_keys_snoc es1 es2 (k, v) Hnd) as (Hk & Hnd' & _).
    cbn [on_values fmap list_fmap set_pairs fold_left fst snd].
    rewrite data_set_middle by (by rewrite on_values_keys).
    fold (on_values g es2). fold (set_pairs (on_values g es2)).
    replace (on_values g es1 ++ (k, g v) :: es2)
      with (on_values g (es1 ++ [(k, v)]) ++ es2)
      by (by rewrite on_values_app, <- app_assoc).
    rewrite IH by done. by rewrite <- app_assoc.
Qed.

Lemma set_pairs_on_values_all g (es : list (atom * jsval)) :
  NoDup es.*1 -> set_pairs (on_values g es) (Some <$> es) = Some <$> on_values g es.
Proof. intros Hnd. exact (set_pairs_on_values g [] es Hnd). Qed.

Lemma map_results_on_values (F : atom -> jsval -> jsval) es i :
  map_results (fun v k _ => (k, F k v)) es i = (fun kv => (kv.1, F kv.1 kv.2)) <$> es.
Proof.
  revert i. induction es as [|kv es IH]; intros i; [done|].
  cbn [map_results]. by rewrite IH.
Qed.

Lemma fold_map_with {T} (P : heap -> Prop) (gfun : jsval -> atom -> Z -> M T)
    (p : jsval -> atom -> Z -> T) (es : list (atom * jsval)) (acc : list T)
    (i : Z) (h : heap) :
  (forall v k j h', P h' -> gfun v k j h' = (Ok (p v k j), h')) -> P h ->
  fold_entries (fun (st : list T * Z) key value =>
      x <- gfun value key st.2 ;; ret (st.1 ++ [x], st.2 + 1)) es (acc, i) h
  = (Ok (acc ++ map_results p es i, i + Z.of_nat (length es)), h).
Proof.
  intros Hg HP. revert acc i.
  induction es as [|[k v] es IH]; intros acc i.
  - cbn [fold_entries map_results length]. rewrite app_nil_r, ret_run.
    by replace (i + Z.of_nat 0) with i by lia.
  - cbn [fold_entries map_results length fst snd].
    rewrite (bind_ok _ _ _ _ _ (bind_ok _ _ _ _ _ (Hg v k i h HP))).
    rewrite IH, <- app_assoc.
    by replace (i + 1 + Z.of_nat (length es)) with (i + Z.of_nat (S (length es)))
      by lia.
Qed.

(** [map_with] with a function that returns and changes nothing. *)
Lemma map_with_pure {T} (P : heap -> Prop) (l : loc) (dl : MapData)
    (gfun : jsval -> atom -> Z -> M T) (p : jsval -> atom -> Z -> T)
    (fuel : nat) (h : heap) :
  (forall h', P h' -> h' !! l = Some dl) ->
  (forall v k j h', P h' -> gfun v k j h' = (Ok (p v k j), h')) ->
  P h -> (length dl < fuel)%nat ->
  map_with fuel l gfun h = (Ok (map_results p (entries dl) 0), h).
Proof.
  intros Hl Hg HP Hfuel. unfold map_with.
  rewrite (bind_ok _ _ h h
             (map_results p (entries dl) 0, 0 + Z.of_nat (length (entries dl))));
    [done|].
  rewrite (for_of_map_fold P l dl); [|done| |done|lia].
  - rewrite drop_0. by rewrite (fold_map_with P gfun p _ [] 0 h Hg HP).
  - intros acc k v h' HP'. by rewrite (bind_ok _ _ _ _ _ (Hg v k acc.2 h' HP')).
Qed.

Lemma existsb_isArray_atoms (es : list (atom * jsval)) g :
  existsb isArray es.*2 = false ->
  (forall a, g (JAtom a) = JAtom a) -> on_values g es = es.
Proof.
  intros He Hg. unfold on_values.
  induction es as [|[k v] es IH]; [done|].
  rewrite fmap_cons in He. cbn [existsb snd] in He.
  apply orb_false_iff in He as [Hv He]. rewrite fmap_cons, IH by done.
  cbn [fst snd]. destruct v as [a|xs]; [by rewrite Hg|done].
Qed.

Lemma entries_length (d : MapData) : (length (entries d) <= length d)%nat.
Proof.
  induction d as [|[kv|] d IH]; [done| |].
  - rewrite entries_cons_Some. cbn [length]. lia.
  - rewrite entries_cons_None. cbn [length]. lia.
Qed.

Lemma Some_entries_length (d : MapData) (fuel : nat) :
  (length d < fuel)%nat -> (length (Some <$> entries d) < fuel)%nat.
Proof. intros Hfuel. rewrite length_fmap. pose proof (entries_length d). lia. Qed.

(** [flat] where [Array.prototype.flat] exists. *)
Lemma flat_modern_run (E : env) (fuel : nat) (h : heap) (C : loc) (d : MapData)
    (strength : number) :
  Array_prototype_flat E = true ->
  h !! C = Some d -> wf_data d -> (length d < fuel)%nat ->
  number_ge strength (Int 1) = true ->
  flat E fuel C (Some strength) h
  = (Ok (fresh (dom h)),
     <[fresh (dom h) := Some <$> on_values (flat_value strength) (entries d)]> h).
Proof.
  intros HE HC Hwf Hfuel Hge. pose proof (fresh_ne h C d HC) as Hne.
  unfold flat. cbv zeta. cbn [default from_option]. unfold id.
  rewrite (number_ge_not_lt _ _ Hge).
  rewrite (bind_ok _ _ _ _ _ (clone_run fuel h C d HC Hwf Hfuel)).
  set (l := fresh (dom h)) in *. set (h1 := <[l := Some <$> entries d]> h).
  assert (HC1 : h1 !! C = Some d) by (unfold h1; by rewrite lookup_insert_ne).
  assert (Hl1 : h1 !! l = Some (Some <$> entries d))
    by (unfold h1; by rewrite lookup_insert_eq).
  rewrite (bind_ok _ _ _ _ _ (array_lookup h1 C d HC1)).
  destruct (existsb isArray (entries d).*2) eqn:Harr; cbn [negb].
  - rewrite HE.
    rewrite (bind_ok _ _ _ (<[l := Some <$> on_values (flat_value strength) (entries d)]> h1) tt).
    + unfold h1. by rewrite ret_run, insert_insert_eq.
    + erewrite (bind_ok (map_with _ _ _)); cycle 1.
      { apply (map_with_pure (fun h' => h' = h1) l (Some <$> entries d) _
                 (fun v k _ => (k, flat_value strength v)));
          [by intros ? ->|by intros v k j h' ->|done|by apply Some_entries_length]. }
      rewrite entries_Some,
        (map_results_on_values (fun _ v => flat_value strength v)).
      rewrite (set_all_run l _ _ h1 Hl1).
      fold (on_values (flat_value strength) (entries d)).
      by rewrite set_pairs_on_values_all.
  - rewrite ret_run, existsb_isArray_atoms; done.
Qed.

Lemma flatten_into_plain (n : nat) (xs : list jsval) :
  existsb isArray xs = false -> flatten_into n xs = xs.
Proof.
  intros Hxs. destruct n as [|n]; [done|]. cbn [flatten_into].
  induction xs as [|x xs IH]; [done|]. cbn [existsb] in Hxs.
  apply orb_false_iff in Hxs as [Hx Hxs]. cbn [List.map List.concat].
  rewrite IH by done. by destruct x.
Qed.

Lemma spread_value_plain (v : jsval) :
  has_nested_array v = false -> spread_value v = v.
Proof.
  destruct v as [a|xs]; [done|]. cbn [has_nested_array spread_value].
  intros Hxs. f_equal. by apply (flatten_into_plain 1).
Qed.

Lemma on_values_plain g (es : list (atom * jsval)) :
  existsb has_nested_array es.*2 = false ->
  (forall v, has_nested_array v = false -> g v = v) -> on_values g es = es.
Proof.
  intros He Hg. unfold on_values. induction es as [|[k v] es IH]; [done|].
  rewrite fmap_cons in He. cbn [existsb snd] in He.
  apply orb_false_iff in He as [Hv He]. rewrite fmap_cons, IH by done.
  cbn [fst snd]. by rewrite Hg.
Qed.

Lemma on_values_compose g1 g2 (es : list (atom * jsval)) :
  on_values g1 (on_values g2 es) = on_values (fun v => g1 (g2 v)) es.
Proof. unfold on_values. by rewrite <- list_fmap_compose. Qed.

Lemma on_values_ext g1 g2 (es : list (atom * jsval)) :
  (forall v, g1 v = g2 v) -> on_values g1 es = on_values g2 es.
Proof. intros Hg. unfold on_values. apply list_fmap_ext. intros i [k v] _. cbn. by rewrite Hg. Qed.

Lemma on_values_id (es : list (atom * jsval)) : on_values (fun v => v) es = es.
Proof.
  unfold on_values. induction es as [|[k v] es IH]; [done|].
  rewrite fmap_cons. cbn [fst snd]. by rewrite IH.
Qed.

(** One round of the loop of [flat]: the loop runs over the Store it
    changes; it sets the key it is at, so the records keep their places and
    every array value is spread once. *)
Lemma spread_round (l : loc) (h0 : heap) (es : list (atom * jsval)) :
  NoDup es.*1 ->
  forall (fuel i : nat), (length es - i < fuel)%nat -> (i <= length es)%nat ->
    for_of_map fuel l (fun (_ : unit) key value =>
        match value with
        | JArray xs => Map_set l key (JArray (Array_concat_all xs))
        | JAtom _ => ret tt
        end) i tt
      (<[l := Some <$> (on_values spread_value (take i es) ++ drop i es)]> h0)
    = (Ok tt, <[l := Some <$> on_values spread_value es]> h0).
Proof.
  intros Hnd. induction fuel as [|fuel IH]; intros i Hfuel Hi; [lia|].
  cbn [for_of_map].
  rewrite (bind_ok _ _ _ _ _ (this_data_lookup _ l _ (lookup_insert_eq _ _ _))).
  assert (Hlen : length (on_values spread_value (take i es)) = i).
  { unfold on_values. rewrite length_fmap, length_take. lia. }
  destruct (es !! i) as [[k v]|] eqn:Hkv.
  - rewrite list_lookup_fmap, lookup_app_r by lia.
    rewrite Hlen, Nat.sub_diag, lookup_drop, Nat.add_0_r, Hkv. cbn [fmap option_fmap option_map].
    pose proof (lookup_lt_Some _ _ _ Hkv) as Hlt.
    assert (Hnext : on_values spread_value (take (S i) es) ++ drop (S i) es
                    = on_values spread_value (take i es)
                      ++ (k, spread_value v) :: drop (S i) es).
    { rewrite (take_S_r _ _ _ Hkv), on_values_app, <- app_assoc. done. }
    assert (Hk : k ∉ (on_values spread_value (take i es)).*1).
    { rewrite on_values_keys. intros Hin.
      rewrite <- (take_drop i es), (drop_S _ _ _ Hkv), fmap_app, fmap_cons in Hnd.
      apply NoDup_app in Hnd as (_ & Hdis & _). apply (Hdis k Hin). by left. }
    rewrite (drop_S _ _ _ Hkv).
    destruct v as [a|xs].
    + rewrite (bind_ok _ _ _ _ _ (ret_run tt _)).
      rewrite <- (IH (S i)) by lia. by rewrite Hnext.
    + rewrite (bind_ok _ _ _ _ _
                 (Map_set_lookup _ l _ k _ (lookup_insert_eq _ _ _))).
      rewrite insert_insert_eq, (data_set_middle k _ _ _ _ Hk).
      rewrite <- (IH (S i)) by lia. by rewrite Hnext.
  - apply lookup_ge_None in Hkv.
    rewrite list_lookup_fmap, lookup_ge_None_2.
    + rewrite take_ge, drop_ge, app_nil_r by lia. done.
    + rewrite length_app, Hlen, length_drop. lia.
Qed.

Lemma flat_rounds_done (fuel inner : nat) (l : loc) (i : number) :
  number_gt i (Int 0) = false -> flat_rounds fuel inner l i = ret tt.
Proof. intros Hi. destruct fuel; cbn [flat_rounds]; by rewrite Hi. Qed.

Lemma spread_times_plain (n : nat) (v : jsval) :
  has_nested_array v = false -> spread_times n v = v.
Proof.
  intros Hv. induction n as [|n IH]; [done|].
  cbn [spread_times]. rewrite IH. by apply spread_value_plain.
Qed.

Lemma spread_times_S (n : nat) (v : jsval) :
  spread_times n (spread_value v) = spread_times (S n) v.
Proof. induction n as [|n IH]; [done|]. cbn [spread_times] in *. by rewrite IH. Qed.

Lemma spread_times_atom (n : nat) (a : atom) : spread_times n (JAtom a) = JAtom a.
Proof. by apply spread_times_plain. Qed.

(** The rounds of the loop of [flat] with an integer depth: every round
    spreads every array value once, and a round that finds no nested array
    is the last one, after which more rounds would change nothing. *)
Lemma flat_rounds_run (inner : nat) (l : loc) (h0 : heap) :
  forall (fuel : nat) (z : Z) (es : list (atom * jsval)),
    NoDup es.*1 -> (length es < inner)%nat -> z <= Z.of_nat fuel ->
    flat_rounds fuel inner l (Int z) (<[l := Some <$> es]> h0)
    = (Ok tt, <[l := Some <$> on_values (spread_times (Z.to_nat z)) es]> h0).
Proof.
  induction fuel as [|fuel IH]; intros z es Hnd Hinner Hz.
  - rewrite flat_rounds_done by (cbn; lia). rewrite ret_run.
    replace (Z.to_nat z) with 0%nat by lia. by rewrite on_values_id.
  - destruct (Z.ltb_spec 0 z) as [Hpos|Hneg].
    + cbn [flat_rounds]. unfold number_gt, number_lt.
      destruct (Z.ltb_spec 0 z) as [_|?]; [|lia]. cbn [negb].
      rewrite (bind_ok _ _ _ _ _ (array_lookup _ l _ (lookup_insert_eq _ _ _))).
      rewrite entries_Some.
      pose proof (spread_round l h0 es Hnd inner 0) as Hround.
      rewrite take_0, drop_0 in Hround. cbn [on_values fmap list_fmap app] in Hround.
      rewrite (bind_ok _ _ _ _ _ (Hround ltac:(lia) ltac:(lia))).
      destruct (existsb has_nested_array es.*2) eqn:Hnested; cbn [negb].
      * cbn [number_pred]. rewrite IH.
        -- rewrite on_values_compose.
           rewrite (on_values_ext _ (spread_times (Z.to_nat z))); [done|].
           intros v. rewrite spread_times_S. f_equal. lia.
        -- by rewrite on_values_keys.
        -- unfold on_values. by rewrite length_fmap.
        -- lia.
      * cbn [number_pred]. rewrite flat_rounds_done by done. rewrite ret_run.
        rewrite (on_values_plain spread_value) by (done || apply spread_value_plain).
        rewrite (on_values_plain (spread_times (Z.to_nat z)));
          [done|done|apply spread_times_plain].
    + rewrite flat_rounds_done by (cbn; lia). rewrite ret_run.
      replace (Z.to_nat z) with 0%nat by lia. by rewrite on_values_id.
Qed.

(** [flat] where [Array.prototype.flat] does not exist, with an integer
    depth the fuel covers. *)
Lemma flat_legacy_run (E : env) (fuel : nat) (h : heap) (C : loc) (d : MapData)
    (z : Z) :
  Array_prototype_flat E = false ->
  h !! C = Some d -> wf_data d -> (length d < fuel)%nat ->
  1 <= z <= Z.of_nat fuel ->
  flat E fuel C (Some (Int z)) h
  = (Ok (fresh (dom h)),
     <[fresh (dom h) := Some <$> on_values (spread_times (Z.to_nat z)) (entries d)]> h).
Proof.
  intros HE HC Hwf Hfuel Hz. pose proof (fresh_ne h C d HC) as Hne.
  unfold flat. cbv zeta. cbn [default from_option]. unfold id.
  unfold number_lt. destruct (Z.ltb_spec z 1) as [?|_]; [lia|].
  rewrite (bind_ok _ _ _ _ _ (clone_run fuel h C d HC Hwf Hfuel)).
  set (l := fresh (dom h)) in *.
  assert (HC1 : (<[l := Some <$> entries d]> h) !! C = Some d)
    by (by rewrite lookup_insert_ne).
  rewrite (bind_ok _ _ _ _ _ (array_lookup _ C d HC1)).
  destruct (existsb isArray (entries d).*2) eqn:Harr; cbn [negb].
  - rewrite HE.
    rewrite (bind_ok _ _ _ _ _
               (flat_rounds_run fuel l h fuel z (entries d) Hwf
                  ltac:(pose proof (entries_length d); lia) ltac:(lia))).
    done.
  - rewrite ret_run, existsb_isArray_atoms; [done|done|].
    intros a. apply spread_times_atom.
Qed.

(** X13: where [Array.prototype.flat] exists, [flat(strength)] with
    [strength >= 1] (Infinity too) returns a new Store with the keys of the
    receiver in the same order, where every array value [v] is replaced by
    [v.flat(strength)] and every other value is kept; the receiver and the
    rest of the heap are as before. *)
Theorem X13_flat_flattens_values (E : env) (fuel : nat) (h : heap) (C : loc)
    (d : MapData) (strength : number) :
  Array_prototype_flat E = true ->
  h !! C = Some d -> wf_data d -> (length d < fuel)%nat ->
  number_ge strength (Int 1) = true ->
  exists (l : loc) (dl : MapData),
    flat E fuel C (Some strength) h = (Ok l, <[l := dl]> h) /\
    (l ∉ dom h) /\
    keys dl = keys d /\
    forall (i : nat) k v, entries d !! i = Some (k, v) ->
      entries dl !! i
      = Some (k, match v with
                 | JArray xs => JArray (Array_flat xs strength)
                 | JAtom _ => v
                 end).
Proof.
  intros HE HC Hwf Hfuel Hge.
  exists (fresh (dom h)), (Some <$> on_values (flat_value strength) (entries d)).
  split; [by apply flat_modern_run|]. split; [apply is_fresh|].
  unfold keys. rewrite entries_Some. split; [apply on_values_keys|].
  intros i k v Hi. unfold on_values. by rewrite list_lookup_fmap, Hi.
Qed.

Lemma X13_flat_flattens_values_witness :
  exists (l : loc) (dl : MapData),
    flat modern 2 1%positive (Some PosInfinity) hec_heap = (Ok l, <[l := dl]> hec_heap) /\
    entries dl !! 0%nat
    = Some (AString "hec", JArray [num 1; num 2; num 3; num 4; num 5; num 6]).
Proof.
  destruct (X13_flat_flattens_values modern 2 hec_heap 1%positive
              [Some (AString "hec",
                     JArray [num 1; num 2;
                             JArray [num 3; num 4; JArray [num 5; num 6]]])]
              PosInfinity eq_refl eq_refl)
    as (l & dl & Hrun & _ & _ & Hval).
  - apply (bool_decide_unpack _). vm_compute. exact I.
  - cbn. lia.
  - reflexivity.
  - exists l, dl. split; [exact Hrun|].
    rewrite (Hval 0%nat (AString "hec") _ eq_refl). reflexivity.
Defined.

(** X14: where there is no [Array.prototype.flat], [flat(strength)] with an
    integer [strength >= 1] returns a new Store with the keys of the receiver
    in the same order, where every array value is replaced by what
    [strength] rounds of [[].concat(...value)] make of it and every other
    value is kept; the receiver and the rest of the heap are as before. The
    loop runs over the Store it sets, and it stops early after a round that
    found no nested array, when more rounds would change nothing. *)
Theorem X14_flat_loop_spreads_values (E : env) (fuel : nat) (h : heap) (C : loc)
    (d : MapData) (z : Z) :
  Array_prototype_flat E = false ->
  h !! C = Some d -> wf_data d -> (length d < fuel)%nat ->
  1 <= z <= Z.of_nat fuel ->
  exists (l : loc) (dl : MapData),
    flat E fuel C (Some (Int z)) h = (Ok l, <[l := dl]> h) /\
    (l ∉ dom h) /\
    keys dl = keys d /\
    forall (i : nat) k v, entries d !! i = Some (k, v) ->
      entries dl !! i
      = Some (k, match v with
                 | JArray _ => spread_times (Z.to_nat z) v
                 | JAtom _ => v
                 end).
Proof.
  intros HE HC Hwf Hfuel Hz.
  exists (fresh (dom h)),
    (Some <$> on_values (spread_times (Z.to_nat z)) (entries d)).
  split; [by apply flat_legacy_run|]. split; [apply is_fresh|].
  unfold keys. rewrite entries_Some. split; [apply on_values_keys|].
  intros i k v Hi. unfold on_values. rewrite list_lookup_fmap, Hi.
  cbn [fmap option_fmap option_map fst snd].
  destruct v as [a|xs]; [by rewrite spread_times_atom|done].
Qed.

Lemma X14_flat_loop_spreads_values_witness :
  exists (l : loc) (dl : MapData),
    flat legacy 4 1%positive (Some (Int 1)) hec_heap = (Ok l, <[l := dl]> hec_heap) /\
    entries dl !! 0%nat
    = Some (AString "hec",
            JArray [num 1; num 2; num 3; num 4; JArray [num 5; num 6]]).
Proof.
  destruct (X14_flat_loop_spreads_values legacy 4 hec_heap 1%positive
              [Some (AString "hec",
                     JArray [num 1; num 2;
                             JArray [num 3; num 4; JArray [num 5; num 6]]])]
              1 eq_refl eq_refl)
    as (l & dl & Hrun & _ & _ & Hval).
  - apply (bool_decide_unpack _). vm_compute. exact I.
  - cbn. lia.
  - lia.
  - exists l, dl. split; [exact Hrun|].
    rewrite (Hval 0%nat (AString "hec") _ eq_refl). reflexivity.
Defined.

(** ** flatMap *)

(** X15: on a Store none of whose values is an array, [flatMap] never calls
    its callback: whatever the callback would do, the result is a new Store
    with the pairs of the receiver and nothing else in the heap changes. *)
Theorem X15_flatMap_without_arrays (E : env) (fuel : nat) (h : heap) (C : loc)
    (d : MapData) (f : func) (bind : jsval) :
  h !! C = Some d -> wf_data d -> (length d < fuel)%nat ->
  Forall (fun kv => isArray kv.2 = false) (entries d) ->
  exists l : loc,
    flatMap E fuel C (Callable f) bind h = (Ok l, <[l := Some <$> entries d]> h) /\
    (l ∉ dom h).
Proof.
  intros HC Hwf Hfuel Hvals. pose proof (fresh_ne h C d HC) as Hne.
  exists (fresh (dom h)). split; [|apply is_fresh].
  unfold flatMap. cbv zeta.
  rewrite (bind_ok _ _ _ _ _ (clone_run fuel h C d HC Hwf Hfuel)).
  assert (HC1 : (<[fresh (dom h) := Some <$> entries d]> h) !! C = Some d)
    by (by rewrite lookup_insert_ne).
  rewrite (bind_ok _ _ _ _ _ (array_lookup _ C d HC1)).
  by rewrite existsb_isArray_false.
Qed.

Lemma X15_flatMap_without_arrays_witness :
  exists l : loc,
    flatMap modern 4 1%positive (Callable always_throws) undefined abc_heap
    = (Ok l, <[l := Some <$> entries abc_data]> abc_heap) /\
    (l ∉ dom abc_heap).
Proof.
  apply (X15_flatMap_without_arrays modern 4 abc_heap 1%positive abc_data
           always_throws undefined eq_refl abc_wf).
  - cbn. lia.
  - repeat constructor.
Defined.

Lemma bind_if_given_same (f : func) (b : jsval) args :
  bind_if_given f b b args = f b args.
Proof. unfold bind_if_given, Function_bind. by destruct (is_undefined b). Qed.

Lemma bind_if_given_undefined (f : func) (b : jsval) args :
  bind_if_given f b undefined args = f b args.
Proof. by destruct b as [[| | | | |]|]. Qed.

Lemma flatMap_from_pure (f : func) g (C : loc) (d : MapData) (b : jsval)
    (source rest : list jsval) (i : Z) (h : heap) :
  (forall t args h, f t args h = (Ok (g t args (h !! C)), h)) ->
  h !! C = Some d ->
  flatMap_from (bind_if_given f b) b source rest i h
  = (Ok (flatMap_results (fun x j => g b [x; num j; JArray source] (Some d)) rest i),
     h).
Proof.
  intros Hg HC. revert i. induction rest as [|x xs IH]; intros i; [done|].
  cbn [flatMap_from flatMap_results].
  rewrite bind_if_given_same.
  rewrite (bind_ok _ _ _ _ _ (Hg b _ h)), HC.
  by rewrite (bind_ok _ _ _ _ _ (IH (i + 1))).
Qed.

(** X16: with a callback that is a function of its arguments and answers
    [g], [flatMap] returns a new Store with the keys of the receiver in the
    same order. A value that is not an array is kept. With
    [Array.prototype.flatMap], an array value becomes the array of what the
    callback returns for each element (with its index and the array), arrays
    among these spread by one level; without it, the callback is called once
    with the array and [bind], and the value becomes that result, spread when
    it is an array. The receiver is as before. *)
Theorem X16_flatMap_values (E : env) (fuel : nat) (h : heap) (C : loc)
    (d : MapData) (f : func) (bind : jsval)
    (g : jsval -> list jsval -> option MapData -> jsval) :
  (forall t args h, f t args h = (Ok (g t args (h !! C)), h)) ->
  h !! C = Some d -> wf_data d -> (length d < fuel)%nat ->
  exists (l : loc) (dl : MapData),
    flatMap E fuel C (Callable f) bind h = (Ok l, <[l := dl]> h) /\
    (l ∉ dom h) /\
    keys dl = keys d /\
    forall (i : nat) k v, entries d !! i = Some (k, v) ->
      entries dl !! i = Some (k, flatMap_value E g bind d v).
Proof.
  intros Hg HC Hwf Hfuel. pose proof (fresh_ne h C d HC) as Hne.
  exists (fresh (dom h)),
    (Some <$> on_values (flatMap_value E g bind d) (entries d)).
  split; [|split; [apply is_fresh|]].
  - unfold flatMap. cbv zeta.
    rewrite (bind_ok _ _ _ _ _ (clone_run fuel h C d HC Hwf Hfuel)).
    set (l := fresh (dom h)) in *. set (h1 := <[l := Some <$> entries d]> h).
    assert (HC1 : h1 !! C = Some d) by (unfold h1; by rewrite lookup_insert_ne).
    assert (Hl1 : h1 !! l = Some (Some <$> entries d))
      by (unfold h1; by rewrite lookup_insert_eq).
    rewrite (bind_ok _ _ _ _ _ (array_lookup h1 C d HC1)).
    destruct (existsb isArray (entries d).*2) eqn:Harr; cbn [negb].
    + erewrite (bind_ok (if Array_prototype_flatMap E then _ else _)); cycle 1.
      { destruct (Array_prototype_flatMap E) eqn:HE.
        - apply (map_with_pure (fun h' => h' = h1) l (Some <$> entries d) _
                   (fun v k _ => (k, flatMap_value E g bind d v)));
            [by intros ? ->| |done|by apply Some_entries_length].
          intros v k j h' ->. destruct v as [a|xs]; [done|].
          unfold Array_flatMap, flatMap_value. rewrite HE.
          by rewrite (bind_ok _ _ _ _ _
                        (flatMap_from_pure f g C d bind xs xs 0 h1 Hg HC1)).
        - apply (map_with_pure (fun h' => h' = h1) l (Some <$> entries d) _
                   (fun v k _ => (k, flatMap_value E g bind d v)));
            [by intros ? ->| |done|by apply Some_entries_length].
          intros v k j h' ->. destruct v as [a|xs]; [done|].
          unfold flatMap_value. rewrite HE, bind_if_given_undefined.
          by rewrite (bind_ok _ _ _ _ _ (Hg bind _ h1)), HC1. }
      rewrite entries_Some,
        (map_results_on_values (fun _ v => flatMap_value E g bind d v)).
      rewrite (bind_ok _ _ _ _ _ (set_all_run l _ _ h1 Hl1)).
      fold (on_values (flatMap_value E g bind d) (entries d)).
      rewrite set_pairs_on_values_all by done.
      unfold h1. by rewrite ret_run, insert_insert_eq.
    + rewrite ret_run, existsb_isArray_atoms; done.
  - unfold keys. rewrite entries_Some. split; [apply on_values_keys|].
    intros i k v Hi. unfold on_values. by rewrite list_lookup_fmap, Hi.
Qed.

Lemma X16_flatMap_values_witness :
  exists (l : loc) (dl : MapData),
    flatMap modern 4 1%positive (Callable twice) undefined pair_heap
    = (Ok l, <[l := dl]> pair_heap) /\
    entries dl = [(AString "n", JArray [num 1; num 1; num 2; num 2]);
                  (AString "a", num 1)].
Proof.
  destruct (X16_flatMap_values modern 4 pair_heap 1%positive
              [Some (AString "n", JArray [num 1; num 2]); Some (AString "a", num 1)]
              twice undefined
              (fun _ args _ => JArray [nth 0 args undefined; nth 0 args undefined]))
    as (l & dl & Hrun & _ & Hkeys & Hval).
  - reflexivity.
  - reflexivity.
  - apply (bool_decide_unpack _). vm_compute. exact I.
  - cbn. lia.
  - exists l, dl. split; [exact Hrun|].
    pose proof (Hval 0%nat _ _ eq_refl) as H0.
    pose proof (Hval 1%nat _ _ eq_refl) as H1.
    assert (Hlen : length (entries dl) = 2%nat).
    { unfold keys in Hkeys. apply (f_equal length) in Hkeys.
      by rewrite !length_fmap in Hkeys. }
    destruct (entries dl) as [|e0 [|e1 [|e2 rest]]]; try discriminate Hlen.
    cbn in H0, H1. by injection H0 as ->; injection H1 as ->.
Defined.

(** ** Stores without pairs *)

Lemma entries_nil_lookup (d : MapData) (i : nat) :
  entries d = [] -> d !! i = None \/ d !! i = Some None.
Proof.
  revert i. induction d as [|[kv|] d IH]; intros i He; [by left|done|].
  rewrite entries_cons_None in He. destruct i as [|i]; [by right|].
  by apply IH.
Qed.

(** The loop over a Map without pairs does not run its body. *)
Lemma for_of_map_empty {S} (map : loc) (d : MapData)
    (body : S -> atom -> jsval -> M S) (h : heap) (acc : S) :
  h !! map = Some d -> entries d = [] ->
  forall (fuel i : nat), (length d - i < fuel)%nat ->
    for_of_map fuel map body i acc h = (Ok acc, h).
Proof.
  intros Hd He. induction fuel as [|fuel IH]; intros i Hfuel; [lia|].
  cbn [for_of_map]. rewrite (bind_ok _ _ _ _ _ (this_data_lookup h map d Hd)).
  destruct (entries_nil_lookup d i He) as [Hi|Hi]; rewrite Hi; [done|].
  pose proof (lookup_lt_Some _ _ _ Hi). apply IH. lia.
Qed.

(** X17: on a Store without pairs, also one whose pairs were all deleted,
    [filter], [map] and [split] never call the callback: whatever it would
    do, [filter] returns a new empty Store, [map] an empty array and [split]
    two new empty Stores. *)
Theorem X17_no_pairs_no_call (fuel : nat) (h : heap) (C : loc) (d : MapData)
    (f : func) (thisArg : jsval) :
  h !! C = Some d -> entries d = [] -> (length d < fuel)%nat ->
  (exists l : loc,
     filter fuel C (Callable f) thisArg h = (Ok l, <[l := []]> h) /\ (l ∉ dom h)) /\
  map fuel C (Callable f) thisArg h = (Ok [], h) /\
  (exists l1 l2 : loc,
     split fuel C (Callable f) thisArg h
     = (Ok (l1, l2), <[l2 := []]> (<[l1 := []]> h)) /\
     (l1 ∉ dom h) /\ (l2 ∉ dom h) /\ l1 <> l2).
Proof.
  intros HC He Hfuel. pose proof (fresh_ne h C d HC) as Hne. split; [|split].
  - exists (fresh (dom h)). split; [|apply is_fresh].
    unfold filter. cbv zeta.
    rewrite (bind_ok _ _ _ _ _ (Store_new_empty fuel h)).
    assert (HC1 : (<[fresh (dom h) := []]> h) !! C = Some d)
      by (by rewrite lookup_insert_ne).
    rewrite (bind_ok _ _ _ _ _
               (for_of_map_empty C d _ _ 0 HC1 He fuel 0%nat ltac:(lia))).
    done.
  - unfold map, map_with. cbv zeta.
    by rewrite (bind_ok _ _ _ _ _
                  (for_of_map_empty C d _ h ([], 0) HC He fuel 0%nat ltac:(lia))).
  - set (l1 := fresh (dom h)). set (l2 := fresh (dom (<[l1 := []]> h))).
    assert (Hl2 : l2 ∉ dom (<[l1 := []]> h)) by apply is_fresh.
    rewrite dom_insert_L in Hl2.
    assert (HC1 : (<[l1 := []]> h) !! C = Some d) by (by rewrite lookup_insert_ne).
    pose proof (fresh_ne _ C d HC1) as Hne2. fold l2 in Hne2.
    exists l1, l2. split; [|split; [apply is_fresh|split; set_solver]].
    unfold split. cbv zeta.
    rewrite (bind_ok _ _ _ _ _ (Store_new_empty fuel h)).
    rewrite (bind_ok _ _ _ _ _ (Store_new_empty fuel _)). fold l1 l2.
    assert (HC2 : (<[l2 := []]> (<[l1 := []]> h)) !! C = Some d)
      by (by rewrite lookup_insert_ne).
    rewrite (bind_ok _ _ _ _ _
               (for_of_map_empty C d _ _ 0 HC2 He fuel 0%nat ltac:(lia))).
    done.
Qed.

Lemma X17_no_pairs_no_call_witness :
  (exists l : loc,
     filter 3 1%positive (Callable always_throws) undefined emptied_heap
     = (Ok l, <[l := []]> emptied_heap) /\ (l ∉ dom emptied_heap)) /\
  map 3 1%positive (Callable always_throws) undefined emptied_heap
  = (Ok [], emptied_heap) /\
  (exists l1 l2 : loc,
     split 3 1%positive (Callable always_throws) undefined emptied_heap
     = (Ok (l1, l2), <[l2 := []]> (<[l1 := []]> emptied_heap)) /\
     (l1 ∉ dom emptied_heap) /\ (l2 ∉ dom emptied_heap) /\ l1 <> l2).
Proof.
  apply (X17_no_pairs_no_call 3 emptied_heap 1%positive [None; None]
           always_throws undefined eq_refl eq_refl).
  cbn. lia.
Defined.

(** ** set and delete, seen through array and keyArray *)

Lemma filter_other_keys k (es : list (atom * jsval)) :
  k ∉ es.*1 ->
  List.filter (fun kv => negb (same_value_zero kv.1 k)) es = es.
Proof.
  induction es as [|[k0 v0] es IH]; intros Hk; [done|].
  rewrite fmap_cons in Hk. cbn [fst] in Hk.
  apply not_elem_of_cons in Hk as [Hne Hk]. cbn [List.filter fst].
  unfold same_value_zero at 1. rewrite bool_decide_eq_false_2 by congruence.
  cbn [negb]. by rewrite IH.
Qed.

Lemma entries_data_delete k (d : MapData) :
  wf_data d ->
  entries (data_delete k d)
  = List.filter (fun kv => negb (same_value_zero kv.1 k)) (entries d).
Proof.
  unfold wf_data, keys. induction d as [|[[k0 v0]|] d IH]; intros Hnd.
  - done.
  - rewrite entries_cons_Some, fmap_cons in Hnd. cbn [fst] in Hnd.
    apply NoDup_cons in Hnd as [Hk0 Hnd]. cbn [data_delete].
    rewrite entries_cons_Some. cbn [List.filter fst].
    destruct (same_value_zero k0 k) eqn:Hs; cbn [negb].
    + unfold same_value_zero in Hs. apply bool_decide_eq_true in Hs as ->.
      by rewrite entries_cons_None, filter_other_keys.
    + by rewrite entries_cons_Some, IH.
  - cbn [data_delete]. rewrite !entries_cons_None. by apply IH.
Qed.

Lemma Map_delete_lookup (h : heap) l d k :
  h !! l = Some d ->
  Map_delete l k h = (Ok (data_has k d), <[l := data_delete k d]> h).
Proof. intros Hd. unfold Map_delete. by mrun. Qed.

(** X18: [delete(k)] on a Store returns whether [k] was a key; afterwards
    [has(k)] is false, and [keyArray()] and [array()] are what they were
    without the pair of [k], the other pairs in the order they had. *)
Theorem X18_delete_seen_by_arrays (h : heap) (this : loc) (d : MapData) (k : atom) :
  h !! this = Some d -> wf_data d ->
  exists h' : heap,
    Map_delete this k h = (Ok (bool_decide (k ∈ keys d)), h') /\
    Map_has this k h' = (Ok false, h') /\
    keyArray this h'
    = (Ok (List.filter (fun kv => negb (same_value_zero kv.1 k)) (entries d)).*1, h') /\
    array this h'
    = (Ok (List.filter (fun kv => negb (same_value_zero kv.1 k)) (entries d)).*2, h') /\
    forall dflt, h' !! this = Some dflt -> wf_data dflt.
Proof.
  intros Hd Hwf. exists (<[this := data_delete k d]> h).
  assert (Hl : (<[this := data_delete k d]> h) !! this = Some (data_delete k d))
    by apply lookup_insert_eq.
  rewrite (Map_delete_lookup h this d k Hd), data_has_keys.
  rewrite (Map_has_lookup _ _ _ k Hl), (keyArray_lookup _ _ _ Hl).
  rewrite (array_lookup _ _ _ Hl), data_has_keys. unfold keys.
  rewrite entries_data_delete by done.
  split; [done|]. split; [|split; [done|split; [done|]]].
  - do 2 f_equal. apply bool_decide_eq_false_2.
    intros Hin. apply list_elem_of_fmap in Hin as ([k0 v0] & -> & Hin).
    apply list_elem_of_In, List.filter_In in Hin as [_ Hin]. cbn [fst] in Hin.
    unfold same_value_zero in Hin. by rewrite bool_decide_eq_true_2 in Hin.
  - intros dflt Hdflt. rewrite Hl in Hdflt. injection Hdflt as <-.
    by apply wf_data_delete.
Qed.

Lemma X18_delete_seen_by_arrays_witness :
  exists h' : heap,
    Map_delete 1%positive (AString "a") abc_heap = (Ok true, h') /\
    keyArray 1%positive h' = (Ok [AString "b"; AString "c"], h') /\
    array 1%positive h' = (Ok [num 2; num 3], h').
Proof.
  destruct (X18_delete_seen_by_arrays abc_heap 1%positive abc_data (AString "a")
              eq_refl abc_wf) as (h' & Hdel & _ & Hkeys & Harr & _).
  exists h'. split; [exact Hdel|]. split; [exact Hkeys|exact Harr].
Defined.

(** X19: [set(k, v)] on a Store makes [get(k)] return [v] and leaves what
    [get] returns for every other key; a key that was there keeps its place
    in [keyArray()], a new key comes last. *)
Theorem X19_set_seen_by_arrays (h : heap) (this : loc) (d : MapData) (k : atom)
    (v : jsval) :
  h !! this = Some d -> wf_data d ->
  exists h' : heap,
    Map_set this k v h = (Ok tt, h') /\
    Map_get this k h' = (Ok v, h') /\
    keyArray this h'
    = (Ok (if decide (k ∈ keys d) then keys d else keys d ++ [k]), h') /\
    (forall k', k' <> k -> Map_get this k' h' = (Ok (data_get k' d), h')) /\
    forall d', h' !! this = Some d' -> wf_data d'.
Proof.
  intros Hd Hwf. exists (<[this := data_set k v d]> h).
  assert (Hl : (<[this := data_set k v d]> h) !! this = Some (data_set k v d))
    by apply lookup_insert_eq.
  rewrite (Map_set_lookup h this d k v Hd), (Map_get_lookup _ _ _ k Hl).
  rewrite (keyArray_lookup _ _ _ Hl), data_get_set_eq, keys_data_set.
  repeat split.
  - intros k' Hne. rewrite (Map_get_lookup _ _ _ k' Hl).
    by rewrite data_get_set_ne.
  - intros d' Hd'. rewrite Hl in Hd'. injection Hd' as <-.
    by apply wf_data_set.
Qed.

Lemma X19_set_seen_by_arrays_witness :
  exists h' : heap,
    Map_set 1%positive (AString "b") (num 7) abc_heap = (Ok tt, h') /\
    Map_get 1%positive (AString "b") h' = (Ok (num 7), h') /\
    keyArray 1%positive h' = (Ok [AString "a"; AString "b"; AString "c"], h').
Proof.
  destruct (X19_set_seen_by_arrays abc_heap 1%positive abc_data (AString "b")
              (num 7) eq_refl abc_wf) as (h' & Hset & Hget & Hkeys & _).
  exists h'. split; [exact Hset|]. split; [exact Hget|exact Hkeys].
Defined.

(** X20: after [clone()], no sequence of [set] and [delete] on the receiver
    changes the clone. *)
Theorem X20_clone_unaffected_by_receiver (fuel : nat) (h : heap) (C : loc)
    (d : MapData) :
  h !! C = Some d -> wf_data d -> (length d < fuel)%nat ->
  exists (l : loc) (h' : heap),
    clone fuel C h = (Ok l, h') /\
    l <> C /\
    forall ms : list mutation,
      contents (for_of_array ms (mutate C) h').2 l = entries d.
Proof.
  intros Hd Hwf Hfuel. pose proof (fresh_ne h C d Hd) as Hne.
  exists (fresh (dom h)), (<[fresh (dom h) := Some <$> entries d]> h).
  split; [by apply clone_run|]. split; [done|].
  intros ms. unfold contents. rewrite mutations_other by done.
  by rewrite lookup_insert_eq, entries_Some.
Qed.

Lemma X20_clone_unaffected_by_receiver_witness :
  exists (l : loc) (h' : heap),
    clone 4 1%positive abc_heap = (Ok l, h') /\
    l <> 1%positive /\
    forall ms : list mutation,
      contents (for_of_array ms (mutate 1%positive) h').2 l = entries abc_data.
Proof.
  apply (X20_clone_unaffected_by_receiver 4 abc_heap 1%positive abc_data
           eq_refl abc_wf).
  cbn. lia.
Defined.

(** ** flat with depth Infinity where there is no Array.prototype.flat *)













(** ** A callback that throws *)

Lemma fold_entries_first_throw {St} (P : heap -> Prop) (ix : St -> Z)
    (body : St -> atom -> jsval -> M St) (verd : jsval -> atom -> Z -> error + jsval) :
  (forall acc k v h, P h ->
     match verd v k (ix acc) with
     | inr _ => exists acc' h', body acc k v h = (Ok acc', h') /\ P h'
                                /\ ix acc' = ix acc + 1
     | inl e => exists h', body acc k v h = (Throw e, h') /\ P h'
     end) ->
  forall (es : list (atom * jsval)) (acc : St) (h : heap) (i : nat) k v e,
    P h -> es !! i = Some (k, v) -> verd v k (ix acc + Z.of_nat i) = inl e ->
    (forall (j : nat) kj vj, (j < i)%nat -> es !! j = Some (kj, vj) ->
       exists r, verd vj kj (ix acc + Z.of_nat j) = inr r) ->
    exists h', fold_entries body es acc h = (Throw e, h') /\ P h'.
Proof.
  intros Hbody. induction es as [|[k0 v0] es IH];
    intros acc h i k v e HP Hi He Hbefore; [done|].
  cbn [fold_entries fst snd]. specialize (Hbody acc k0 v0 h HP).
  destruct i as [|i].
  - injection Hi as -> ->. replace (ix acc + Z.of_nat 0) with (ix acc) in He by lia.
    rewrite He in Hbody. destruct Hbody as (h' & Hrun & HP').
    exists h'. split; [by apply bind_throw|done].
  - destruct (Hbefore 0%nat k0 v0 ltac:(lia) eq_refl) as [r Hr].
    replace (ix acc + Z.of_nat 0) with (ix acc) in Hr by lia.
    rewrite Hr in Hbody. destruct Hbody as (acc' & h' & Hrun & HP' & Hix).
    rewrite (bind_ok _ _ _ _ _ Hrun).
    apply (IH acc' h' i k v e); [done|done| |].
    + rewrite Hix. by replace (ix acc + 1 + Z.of_nat i)
        with (ix acc + Z.of_nat (S i)) by lia.
    + intros j kj vj Hj Hkj. rewrite Hix.
      replace (ix acc + 1 + Z.of_nat j) with (ix acc + Z.of_nat (S j)) by lia.
      apply (Hbefore (S j) kj vj); [lia|done].
Qed.

Lemma for_of_map_first_throw {St} (P : heap -> Prop) (ix : St -> Z) (map : loc)
    (d : MapData) (body : St -> atom -> jsval -> M St)
    (verd : jsval -> atom -> Z -> error + jsval) (fuel : nat) :
  (forall h, P h -> h !! map = Some d) ->
  (forall acc k v h, P h ->
     match verd v k (ix acc) with
     | inr _ => exists acc' h', body acc k v h = (Ok acc', h') /\ P h'
                                /\ ix acc' = ix acc + 1
     | inl e => exists h', body acc k v h = (Throw e, h') /\ P h'
     end) ->
  (length d < fuel)%nat ->
  forall (acc : St) (h : heap) (i : nat) k v e,
    P h -> ix acc = 0 -> entries d !! i = Some (k, v) ->
    verd v k (Z.of_nat i) = inl e ->
    (forall (j : nat) kj vj, (j < i)%nat -> entries d !! j = Some (kj, vj) ->
       exists r, verd vj kj (Z.of_nat j) = inr r) ->
    exists h', for_of_map fuel map body 0 acc h = (Throw e, h') /\ P h'.
Proof.
  intros Hmap Hbody Hfuel acc h i k v e HP Hix Hi He Hbefore.
  rewrite (for_of_map_fold P map d); [|done| |done|lia].
  - rewrite drop_0.
    apply (fold_entries_first_throw P ix body verd Hbody _ acc h i k v e);
      [done|done|by rewrite Hix|].
    intros j kj vj Hj Hkj. rewrite Hix. by apply (Hbefore j kj vj).
  - intros acc0 k0 v0 h0 HP0. specialize (Hbody acc0 k0 v0 h0 HP0).
    destruct (verd v0 k0 (ix acc0)).
    + destruct Hbody as (h' & -> & HP'). done.
    + destruct Hbody as (acc' & h' & -> & HP' & _). done.
Qed.

Lemma call_entry_answers (f : func) g (C : loc) (d : MapData) (thisArg : jsval)
    (h : heap) v k i :
  answers C f g -> h !! C = Some d ->
  call_entry (bind_if_given f thisArg) C v k i h
  = (match g thisArg [v; JAtom k; num i; JAtom (AObject C)] (Some d) with
     | inr r => Ok r
     | inl e => Throw e
     end, h).
Proof. intros Hg HC. by rewrite call_entry_bind, Hg, HC. Qed.

(** X22: when the callback changes nothing and throws for the pair at
    position [i] and for none before it, [map], [filter] and [split] throw
    that exception: the pairs after position [i] are not visited. [map]
    leaves the heap as it was, and [filter] and [split] leave the receiver as
    it was. *)
Theorem X22_first_exception_propagates (fuel : nat) (h : heap) (C : loc)
    (d : MapData) (f : func) (thisArg : jsval)
    (g : jsval -> list jsval -> option MapData -> error + jsval)
    (i : nat) (k : atom) (v : jsval) (e : error) :
  answers C f g ->
  h !! C = Some d -> wf_data d -> (length d < fuel)%nat ->
  entries d !! i = Some (k, v) ->
  g thisArg [v; JAtom k; num (Z.of_nat i); JAtom (AObject C)] (Some d) = inl e ->
  (forall (j : nat) kj vj, (j < i)%nat -> entries d !! j = Some (kj, vj) ->
     exists r, g thisArg [vj; JAtom kj; num (Z.of_nat j); JAtom (AObject C)] (Some d)
               = inr r) ->
  map fuel C (Callable f) thisArg h = (Throw e, h) /\
  (exists h', filter fuel C (Callable f) thisArg h = (Throw e, h')
              /\ h' !! C = Some d) /\
  (exists h', split fuel C (Callable f) thisArg h = (Throw e, h')
              /\ h' !! C = Some d).
Proof.
  intros Hg HC Hwf Hfuel Hi He Hbefore.
  set (verd := fun v k j => g thisArg [v; JAtom k; num j; JAtom (AObject C)] (Some d)).
  pose proof (fresh_ne h C d HC) as Hne. split; [|split].
  - unfold map, map_with. cbv zeta. apply bind_throw.
    destruct (for_of_map_first_throw (fun h' => h' = h) (fun st => st.2) C d
                (fun (st : list jsval * Z) key value =>
                   x <- call_entry (bind_if_given f thisArg) C value key st.2 ;;
                   ret (st.1 ++ [x], st.2 + 1))
                verd fuel) with (acc := ([] : list jsval, 0)) (h := h) (i := i)
                                (k := k) (v := v) (e := e)
      as (h' & Hrun & ->); try done.
    + by intros ? ->.
    + intros acc k0 v0 h0 ->.
      pose proof (call_entry_answers f g C d thisArg h v0 k0 acc.2 Hg HC) as Hcall.
      fold (verd v0 k0 acc.2) in Hcall. destruct (verd v0 k0 acc.2).
      * exists h. split; [by apply bind_throw|done].
      * eexists _, h. rewrite (bind_ok _ _ _ _ _ Hcall). by rewrite ret_run.
  - unfold filter. cbv zeta.
    rewrite (bind_ok _ _ _ _ _ (Store_new_empty fuel h)).
    set (lf := fresh (dom h)) in *.
    destruct (for_of_map_first_throw
                (fun h' => h' !! C = Some d /\ is_Some (h' !! lf)) (fun j => j) C d
                (fun index key value =>
                   r <- call_entry (bind_if_given f thisArg) C value key index ;;
                   (if truthy r then Map_set lf key value else ret tt) ;;
                   ret (index + 1))
                verd fuel) with (acc := 0) (h := <[lf := []]> h) (i := i)
                                (k := k) (v := v) (e := e)
      as (h' & Hrun & HC' & _); try done.
    + by intros ? [? _].
    + intros acc k0 v0 h0 [HC0 [dl Hl0]].
      pose proof (call_entry_answers f g C d thisArg h0 v0 k0 acc Hg HC0) as Hcall.
      fold (verd v0 k0 acc) in Hcall. destruct (verd v0 k0 acc) as [e0|r].
      * exists h0. split; [by apply bind_throw|by eauto].
      * rewrite (bind_ok _ _ _ _ _ Hcall). destruct (truthy r).
        -- rewrite (bind_ok _ _ _ _ _ (Map_set_lookup h0 lf dl k0 v0 Hl0)).
           eexists _, _. split; [by rewrite ret_run|].
           rewrite lookup_insert_ne by done. rewrite lookup_insert_eq.
           by eauto.
        -- rewrite (bind_ok _ _ _ _ _ (ret_run tt h0)).
           eexists _, _. split; [by rewrite ret_run|by eauto].
    + rewrite lookup_insert_ne by done. rewrite lookup_insert_eq. by eauto.
    + exists h'. split; [by apply bind_throw|done].
  - unfold split. cbv zeta.
    rewrite (bind_ok _ _ _ _ _ (Store_new_empty fuel h)).
    set (l1 := fresh (dom h)) in *.
    rewrite (bind_ok _ _ _ _ _ (Store_new_empty fuel _)).
    set (l2 := fresh (dom (<[l1 := []]> h))) in *.
    assert (HC1 : (<[l1 := []]> h) !! C = Some d) by (by rewrite lookup_insert_ne).
    pose proof (fresh_ne _ C d HC1) as Hne2. fold l2 in Hne2.
    assert (Hl12 : l2 <> l1).
    { apply (fresh_ne (<[l1 := []]> h) l1 []). by rewrite lookup_insert_eq. }
    destruct (for_of_map_first_throw
                (fun h' => h' !! C = Some d /\ is_Some (h' !! l1) /\ is_Some (h' !! l2))
                (fun j => j) C d
                (fun index key value =>
                   r <- call_entry (bind_if_given f thisArg) C value key index ;;
                   (if truthy r then Map_set l1 key value else Map_set l2 key value) ;;
                   ret (index + 1))
                verd fuel) with (acc := 0) (h := <[l2 := []]> (<[l1 := []]> h))
                                (i := i) (k := k) (v := v) (e := e)
      as (h' & Hrun & HC' & _); try done.
    + by intros ? [? _].
    + intros acc k0 v0 h0 (HC0 & [d1 Hl1] & [d2 Hl2]).
      pose proof (call_entry_answers f g C d thisArg h0 v0 k0 acc Hg HC0) as Hcall.
      fold (verd v0 k0 acc) in Hcall. destruct (verd v0 k0 acc) as [e0|r].
      * exists h0. split; [by apply bind_throw|by eauto].
      * rewrite (bind_ok _ _ _ _ _ Hcall). destruct (truthy r).
        -- rewrite (bind_ok _ _ _ _ _ (Map_set_lookup h0 l1 d1 k0 v0 Hl1)).
           eexists _, _. split; [by rewrite ret_run|].
           rewrite lookup_insert_ne by done. rewrite lookup_insert_eq.
           rewrite lookup_insert_ne by done. by eauto.
        -- rewrite (bind_ok _ _ _ _ _ (Map_set_lookup h0 l2 d2 k0 v0 Hl2)).
           eexists _, _. split; [by rewrite ret_run|].
           rewrite lookup_insert_ne by done.
           rewrite lookup_insert_ne by done. rewrite lookup_insert_eq.
           by eauto.
    + split; [by rewrite lookup_insert_ne|split].
      * rewrite lookup_insert_ne by done. rewrite lookup_insert_eq. by eauto.
      * rewrite lookup_insert_eq. by eauto.
    + exists h'. split; [by apply bind_throw|done].
Qed.

Lemma throws_at_b_answers (C : loc) :
  answers C throws_at_b
    (fun _ args _ =>
       match args with
       | _ :: JAtom (AString "b") :: _ => inl (RangeError "b")
       | _ => inr (JAtom (ABool true))
       end).
Proof.
  intros t args h. unfold throws_at_b.
  destruct args as [|a0 [|[[| | | |s|]|] args]]; try done.
  by destruct (String.eqb_spec s "b") as [->|Hne];
    repeat (match goal with
            | |- context [match ?s with EmptyString => _ | String _ _ => _ end] =>
                destruct s
            | |- context [match ?a with Ascii.Ascii _ _ _ _ _ _ _ _ => _ end] =>
                destruct a as [[] [] [] [] [] [] [] []]
            end; try done).
Qed.

Lemma X22_first_exception_propagates_witness :
  map 4 1%positive (Callable throws_at_b) undefined abc_heap
  = (Throw (RangeError "b"), abc_heap) /\
  (exists h', filter 4 1%positive (Callable throws_at_b) undefined abc_heap
              = (Throw (RangeError "b"), h')
              /\ h' !! 1%positive = Some abc_data) /\
  (exists h', split 4 1%positive (Callable throws_at_b) undefined abc_heap
              = (Throw (RangeError "b"), h')
              /\ h' !! 1%positive = Some abc_data).
Proof.
  apply (X22_first_exception_propagates 4 abc_heap 1%positive abc_data throws_at_b
           undefined _ 1 (AString "b") (num 2) (RangeError "b")
           (throws_at_b_answers 1%positive) eq_refl abc_wf).
  - cbn. lia.
  - reflexivity.
  - reflexivity.
  - intros j kj vj Hj Hkj. destruct j as [|j]; [|lia].
    injection Hkj as <- <-. by eexists.
Defined.

(** ** The ends of a Store and the positions of their keys *)

Lemma lastIndexOf_present (h : heap) (this : loc) (d : MapData) (key : atom) (i : nat) :
  h !! this = Some d -> wf_data d -> key <> ANumber NaN ->
  keys d !! i = Some key ->
  lastIndexOf this key None h = (Ok (Z.of_nat i), h).
Proof.
  intros Hd Hwf Hnan Hi.
  assert (Hlen : data_size d = Z.of_nat (length (keys d)))
    by (unfold data_size, keys; by rewrite length_fmap).
  pose proof (lookup_lt_Some _ _ _ Hi) as Hlt.
  unfold lastIndexOf.
  erewrite (bind_ok (bind _ _)) by (mrun; done).
  mrun. rewrite Hlen.
  destruct (Z.eqb_spec (Z.of_nat (length (keys d))) 0) as [?|_]; [lia|].
  mrun. unfold Array_lastIndexOf.
  destruct (Z.eqb_spec (Z.of_nat (length (keys d))) 0) as [?|_]; [lia|].
  cbn [to_integer_or_infinity].
  destruct (Z.leb_spec 0 (Z.of_nat (length (keys d)) - 1)) as [_|?]; [|lia].
  rewrite Z.min_id.
  by rewrite (last_index_upto_found key (keys d) i) by (done || lia).
Qed.

(** X23: on a Store that is not empty, [first()] is what [get] returns for
    [firstKey()] and [last()] what it returns for [lastKey()]; unless the key
    is NaN, [indexOf(firstKey())] is 0 and [lastIndexOf(lastKey())] is
    [size - 1]. *)
Theorem X23_first_last_positions (h : heap) (this : loc) (d : MapData) :
  h !! this = Some d -> wf_data d -> entries d <> [] ->
  exists (kf kl : atom) (vf vl : jsval),
    firstKey this h = (Ok kf, h) /\ first this h = (Ok vf, h) /\
    lastKey this h = (Ok kl, h) /\ last this h = (Ok vl, h) /\
    Map_get this kf h = (Ok vf, h) /\ Map_get this kl h = (Ok vl, h) /\
    (kf <> ANumber NaN -> indexOf this kf None h = (Ok 0, h)) /\
    (kl <> ANumber NaN ->
     lastIndexOf this kl None h = (Ok (data_size d - 1), h)).
Proof.
  intros Hd Hwf Hne.
  assert (Hpos : (0 < length (entries d))%nat)
    by (destruct (entries d); [done|cbn; lia]).
  destruct (lookup_lt_is_Some_2 (entries d) 0) as [[kf vf] Hf]; [lia|].
  destruct (lookup_lt_is_Some_2 (entries d) (length (entries d) - 1))
    as [[kl vl] Hl]; [lia|].
  assert (Hkf : keys d !! 0%nat = Some kf)
    by (unfold keys; by rewrite list_lookup_fmap, Hf).
  assert (Hkl : keys d !! (length (entries d) - 1)%nat = Some kl)
    by (unfold keys; by rewrite list_lookup_fmap, Hl).
  assert (Hvf : (entries d).*2 !! 0%nat = Some vf)
    by (by rewrite list_lookup_fmap, Hf).
  assert (Hvl : (entries d).*2 !! (length (entries d) - 1)%nat = Some vl)
    by (by rewrite list_lookup_fmap, Hl).
  assert (Hsize : data_size d - 1 = Z.of_nat (length (entries d) - 1))
    by (unfold data_size; lia).
  exists kf, kl, vf, vl.
  unfold first, firstKey, last, lastKey. mrun. rewrite Hsize.
  change 0 with (Z.of_nat 0) at 1 2.
  rewrite (array_get_lookup AUndefined kf _ 0%nat Hkf).
  rewrite (array_get_lookup undefined vf _ 0%nat Hvf).
  rewrite (array_get_lookup AUndefined kl _ _ Hkl).
  rewrite (array_get_lookup undefined vl _ _ Hvl).
  rewrite !(Map_get_lookup h this d) by done.
  rewrite (data_get_lookup kf vf), (data_get_lookup kl vl);
    [|done|by eapply list_elem_of_lookup_2|done|by eapply list_elem_of_lookup_2].
  repeat split.
  - intros Hnan. by apply (indexOf_present h this d kf 0).
  - intros Hnan. by apply (lastIndexOf_present h this d kl).
Qed.

Lemma X23_first_last_positions_witness :
  exists (kf kl : atom) (vf vl : jsval),
    firstKey 1%positive abc_heap = (Ok kf, abc_heap) /\
    first 1%positive abc_heap = (Ok vf, abc_heap) /\
    lastKey 1%positive abc_heap = (Ok kl, abc_heap) /\
    last 1%positive abc_heap = (Ok vl, abc_heap) /\
    Map_get 1%positive kf abc_heap = (Ok vf, abc_heap) /\
    Map_get 1%positive kl abc_heap = (Ok vl, abc_heap) /\
    (kf <> ANumber NaN -> indexOf 1%positive kf None abc_heap = (Ok 0, abc_heap)) /\
    (kl <> ANumber NaN ->
     lastIndexOf 1%positive kl None abc_heap = (Ok (data_size abc_data - 1), abc_heap)).
Proof.
  apply (X23_first_last_positions abc_heap 1%positive abc_data eq_refl abc_wf).
  vm_compute. discriminate.
Defined.
